(** * bfs store: needle codec, needle cache, volume and index recovery

    A shallow embedding of [store/needle.go], [store/volume.go] and the
    index file code of the store, with the properties of the store that
    its specification states.

    Conventions.
    - Go's fixed-width integers are [Z] with the wrap-around written out
      ([int32], [uint32], [int64] below); [%] on signed integers is
      [Z.rem], [/] is [Z.quot].
    - A byte is a [Z] in [0, 256); a [[]byte] is a [list Z] whose capacity
      equals its length.
    - A run-time panic (index or slice bounds out of range) is [None] in
      the [option] monad; an [error] result is an [option Error] next to
      the value, [None] being [nil]. *)

From Stdlib Require Import ZArith List Lia Bool Sorted.
From stdpp Require Import base option list gmap.

Local Open Scope Z_scope.

(** ** Fixed-width integers *)

Definition int32 (x : Z) : Z := (x + 2 ^ 31) mod 2 ^ 32 - 2 ^ 31.
Definition uint32 (x : Z) : Z := x mod 2 ^ 32.
Definition int64 (x : Z) : Z := (x + 2 ^ 63) mod 2 ^ 64 - 2 ^ 63.

Definition is_int32 (x : Z) : Prop := - 2 ^ 31 <= x < 2 ^ 31.
Definition is_uint32 (x : Z) : Prop := 0 <= x < 2 ^ 32.
Definition is_int64 (x : Z) : Prop := - 2 ^ 63 <= x < 2 ^ 63.
Definition is_byte (x : Z) : Prop := 0 <= x < 256.

(** ** Slices *)

(** [buf[lo:hi]]; panics unless [0 <= lo <= hi <= len(buf)]. *)
Definition slice (buf : list Z) (lo hi : Z) : option (list Z) :=
  if (0 <=? lo) && (lo <=? hi) && (hi <=? Z.of_nat (length buf))
  then Some (take (Z.to_nat (hi - lo)) (drop (Z.to_nat lo) buf))
  else None.

(** [buf[lo:]]. *)
Definition slice_from (buf : list Z) (lo : Z) : option (list Z) :=
  slice buf lo (Z.of_nat (length buf)).

(** [buf[:hi]]. *)
Definition slice_to (buf : list Z) (hi : Z) : option (list Z) :=
  slice buf 0 hi.

(** [buf[i]]; panics when [i] is out of range. *)
Definition index (buf : list Z) (i : Z) : option Z :=
  if 0 <=? i then buf !! Z.to_nat i else None.

(** The builtin [copy(dst, src)]: the first [min(len(dst), len(src))]
    elements of [dst] are overwritten. *)
Definition copy (dst src : list Z) : list Z :=
  take (length dst) src ++ drop (length src) dst.

(** [copy(buf[n:], src)] seen from [buf]; panics when [buf[n:]] does. *)
Definition copy_at (buf : list Z) (n : Z) (src : list Z) : option (list Z) :=
  if (0 <=? n) && (n <=? Z.of_nat (length buf))
  then Some (take (Z.to_nat n) buf ++ copy (drop (Z.to_nat n) buf) src)
  else None.

(** [bytes.Equal]. *)
Definition bytes_Equal (a b : list Z) : bool := bool_decide (a = b).

(** ** BigEndian *)

(** Modelled from the spec: the [BigEndian] helper of the store (its file
    is not part of the sources at hand).  The specification fixes
    big-endian order for every multi-byte integer: the most significant
    byte comes first.  Readers and writers panic on a buffer that is too
    short, as indexing a slice does. *)
Fixpoint be_put (n : nat) (v : Z) : list Z :=
  match n with
  | O => []
  | S k => Z.land (Z.shiftr v (8 * Z.of_nat k)) 255 :: be_put k v
  end.

Fixpoint be_get (bs : list Z) (acc : Z) : Z :=
  match bs with
  | [] => acc
  | b :: r => be_get r (Z.lor (Z.shiftl acc 8) b)
  end.

Module BigEndian.

Definition read (w : nat) (buf : list Z) : option Z :=
  if (w <=? length buf)%nat then Some (be_get (take w buf) 0) else None.

Definition Int64 (buf : list Z) : option Z := int64 <$> read 8 buf.
Definition Int32 (buf : list Z) : option Z := int32 <$> read 4 buf.
Definition Uint32 (buf : list Z) : option Z := read 4 buf.

Definition put (w : nat) (buf : list Z) (v : Z) : option (list Z) :=
  if (w <=? length buf)%nat then Some (copy buf (be_put w v)) else None.

(** [BigEndian.PutInt64(buf[n:], v)] and its siblings, seen from [buf]. *)
Definition put_at (w : nat) (buf : list Z) (n : Z) (v : Z) : option (list Z) :=
  tl ← slice_from buf n;
  tl' ← put w tl v;
  Some (take (Z.to_nat n) buf ++ tl').

End BigEndian.

(** ** hash/crc32 *)

(** The table-driven CRC-32 of Go's standard library, which the store
    calls as [crc32.Update(0, crc32.MakeTable(crc32.Koopman), data)]. *)
Module crc32.

Definition Koopman : Z := 0xeb31d82e.

Fixpoint shift_poly (poly : Z) (j : nat) (crc : Z) : Z :=
  match j with
  | O => crc
  | S j' =>
      shift_poly poly j'
        (if Z.land crc 1 =? 1 then Z.lxor (Z.shiftr crc 1) poly
         else Z.shiftr crc 1)
  end.

Definition MakeTable (poly : Z) : list Z :=
  map (fun i => shift_poly poly 8 (Z.of_nat i)) (seq 0 256).

Definition step (tab : list Z) (crc v : Z) : Z :=
  Z.lxor (nth (Z.to_nat (Z.lxor (Z.land crc 255) v)) tab 0) (Z.shiftr crc 8).

Definition Update (crc : Z) (tab : list Z) (p : list Z) : Z :=
  Z.lxor (fold_left (step tab) p (Z.lxor crc 0xFFFFFFFF)) 0xFFFFFFFF.

End crc32.

(** ** needle.go: constants *)

Definition NeedleMaxSize : Z := 5 * 1024 * 1024.
Definition needleCookieSize : Z := 8.
Definition needleKeySize : Z := 8.
Definition needleFlagSize : Z := 1.
Definition needleSizeSize : Z := 4.
Definition needleMagicSize : Z := 4.
Definition NeedleHeaderSize : Z :=
  needleMagicSize + needleCookieSize + needleKeySize + needleFlagSize + needleSizeSize.
Definition NeedleFlagOffset : Z := needleMagicSize + needleCookieSize + needleKeySize.
Definition needleChecksumSize : Z := 4.
Definition NeedleFooterSize : Z := needleMagicSize + needleChecksumSize.
Definition needleOffsetBit : Z := 32.
Definition NeedlePaddingSize : Z := 8.
Definition NeedleStatusOK : Z := 0.
Definition NeedleStatusDel : Z := 1.
Definition NeedleCacheDelOffset : Z := 0.

(** [needlePadding]: eight entries, indices 0 to 7. *)
Definition needlePadding : list (list Z) :=
  [ [];
    [0];
    [0; 0];
    [0; 0; 0];
    [0; 0; 0; 0];
    [0; 0; 0; 0; 0];
    [0; 0; 0; 0; 0; 0];
    [0; 0; 0; 0; 0; 0; 0] ].

(** [needlePadding[i]]; panics when [i] is out of range. *)
Definition needlePadding_at (i : Z) : option (list Z) :=
  if 0 <=? i then needlePadding !! Z.to_nat i else None.

Definition crc32Table : list Z := Eval vm_compute in crc32.MakeTable crc32.Koopman.
Definition needleHeaderMagic : list Z := [0x12; 0x34; 0x56; 0x78].
Definition needleFooterMagic : list Z := [0x87; 0x65; 0x43; 0x21].

Inductive Error : Type :=
| ErrNeedleHeaderMagic
| ErrNeedleFlag
| ErrNeedleSize
| ErrNeedleFooterMagic
| ErrNeedleChecksum
| ErrNeedlePadding
| ErrNeedleTooLarge
| ErrNeedleKey
| ErrNeedleCookie
| ErrNeedleDeleted
| ErrNoNeedle
| ErrVolumeDel
| ErrVolumeInCompress
| ErrRingFull
| ErrIO (code : Z).

(** ** needle.go: NeedleCache *)

(** [NeedleCache] is an [int64]: high 32 bits the offset, low 32 bits the
    size. *)
Definition NewNeedleCache (offset size : Z) : Z :=
  int64 (Z.shiftl offset needleOffsetBit + size).

Definition Value (n : Z) : Z * Z :=
  (uint32 (Z.shiftr n needleOffsetBit), int32 n).

(** ** needle.go: NeedleSize, NeedleOffset *)

Definition NeedleSize (ds : Z) : Z * Z * option Error :=
  let size := int32 (int32 (NeedleHeaderSize + ds) + NeedleFooterSize) in
  let padding := int32 (NeedlePaddingSize - Z.rem size NeedlePaddingSize) in
  let size := int32 (size + padding) in
  (padding, size, if NeedleMaxSize <? size then Some ErrNeedleTooLarge else None).

Definition NeedleOffset (offset : Z) : Z := uint32 (Z.quot offset NeedlePaddingSize).

(** ** needle.go: Needle *)

Record Needle : Type := mkNeedle {
  HeaderMagic : list Z;
  Cookie : Z;
  Key : Z;
  Flag : Z;
  Size : Z;
  Data : list Z;
  FooterMagic : list Z;
  Checksum : Z;
  PaddingSize : Z;
  Padding : list Z;
  DataSize : Z
}.


(** Field assignments [n.F = x]. *)
Definition set_HeaderMagic (x : list Z) (n : Needle) : Needle :=
  mkNeedle x (Cookie n) (Key n) (Flag n) (Size n) (Data n) (FooterMagic n) (Checksum n) (PaddingSize n) (Padding n) (DataSize n).
Definition set_Cookie (x : Z) (n : Needle) : Needle :=
  mkNeedle (HeaderMagic n) x (Key n) (Flag n) (Size n) (Data n) (FooterMagic n) (Checksum n) (PaddingSize n) (Padding n) (DataSize n).
Definition set_Key (x : Z) (n : Needle) : Needle :=
  mkNeedle (HeaderMagic n) (Cookie n) x (Flag n) (Size n) (Data n) (FooterMagic n) (Checksum n) (PaddingSize n) (Padding n) (DataSize n).
Definition set_Flag (x : Z) (n : Needle) : Needle :=
  mkNeedle (HeaderMagic n) (Cookie n) (Key n) x (Size n) (Data n) (FooterMagic n) (Checksum n) (PaddingSize n) (Padding n) (DataSize n).
Definition set_Size (x : Z) (n : Needle) : Needle :=
  mkNeedle (HeaderMagic n) (Cookie n) (Key n) (Flag n) x (Data n) (FooterMagic n) (Checksum n) (PaddingSize n) (Padding n) (DataSize n).
Definition set_Data (x : list Z) (n : Needle) : Needle :=
  mkNeedle (HeaderMagic n) (Cookie n) (Key n) (Flag n) (Size n) x (FooterMagic n) (Checksum n) (PaddingSize n) (Padding n) (DataSize n).
Definition set_FooterMagic (x : list Z) (n : Needle) : Needle :=
  mkNeedle (HeaderMagic n) (Cookie n) (Key n) (Flag n) (Size n) (Data n) x (Checksum n) (PaddingSize n) (Padding n) (DataSize n).
Definition set_Checksum (x : Z) (n : Needle) : Needle :=
  mkNeedle (HeaderMagic n) (Cookie n) (Key n) (Flag n) (Size n) (Data n) (FooterMagic n) x (PaddingSize n) (Padding n) (DataSize n).
Definition set_PaddingSize (x : Z) (n : Needle) : Needle :=
  mkNeedle (HeaderMagic n) (Cookie n) (Key n) (Flag n) (Size n) (Data n) (FooterMagic n) (Checksum n) x (Padding n) (DataSize n).
Definition set_Padding (x : list Z) (n : Needle) : Needle :=
  mkNeedle (HeaderMagic n) (Cookie n) (Key n) (Flag n) (Size n) (Data n) (FooterMagic n) (Checksum n) (PaddingSize n) x (DataSize n).
Definition set_DataSize (x : Z) (n : Needle) : Needle :=
  mkNeedle (HeaderMagic n) (Cookie n) (Key n) (Flag n) (Size n) (Data n) (FooterMagic n) (Checksum n) (PaddingSize n) (Padding n) x.

(** [&Needle{}] *)
Definition emptyNeedle : Needle :=
  mkNeedle [] 0 0 0 0 [] [] 0 0 [] 0.

(** [ParseHeader] fills the needle in place and returns an error; here it
    returns the needle as left by the call together with the error. *)
Definition ParseHeader (n : Needle) (buf : list Z) : option (Needle * option Error) :=
  hm ← slice_to buf needleMagicSize;
  let n := set_HeaderMagic hm n in
  if negb (bytes_Equal hm needleHeaderMagic) then Some (n, Some ErrNeedleHeaderMagic)
  else
    let bn := needleMagicSize in
    cookie ← slice_from buf bn ≫= BigEndian.Int64;
    let n := set_Cookie cookie n in
    let bn := bn + needleCookieSize in
    key ← slice_from buf bn ≫= BigEndian.Int64;
    let n := set_Key key n in
    let bn := bn + needleKeySize in
    flag ← index buf bn;
    let n := set_Flag flag n in
    if negb (flag =? NeedleStatusOK) && negb (flag =? NeedleStatusDel)
    then Some (n, Some ErrNeedleFlag)
    else
      let bn := bn + needleFlagSize in
      size ← slice_from buf bn ≫= BigEndian.Int32;
      let n := set_Size size n in
      if (NeedleMaxSize <? size) || (size <? 1) then Some (n, Some ErrNeedleSize)
      else
        let padding :=
          int32 (NeedlePaddingSize -
                 Z.rem (int32 (int32 (NeedleHeaderSize + size) + NeedleFooterSize))
                       NeedlePaddingSize) in
        let n := set_PaddingSize padding n in
        let n := set_DataSize (int32 (int32 (size + padding) + NeedleFooterSize)) n in
        Some (n, None).

Definition ParseData (n : Needle) (buf : list Z) : option (Needle * option Error) :=
  data ← slice_to buf (Size n);
  let n := set_Data data n in
  let bn := Size n in
  fm ← slice buf bn (int32 (bn + needleMagicSize));
  let n := set_FooterMagic fm n in
  if negb (bytes_Equal fm needleFooterMagic) then Some (n, Some ErrNeedleFooterMagic)
  else
    let bn := int32 (bn + needleMagicSize) in
    let checksum := crc32.Update 0 crc32Table data in
    stored ← slice buf bn (int32 (bn + needleChecksumSize)) ≫= BigEndian.Uint32;
    let n := set_Checksum stored n in
    if negb (stored =? checksum) then Some (n, Some ErrNeedleChecksum)
    else
      let bn := int32 (bn + needleChecksumSize) in
      pad ← slice buf bn (int32 (bn + PaddingSize n));
      let n := set_Padding pad n in
      pattern ← needlePadding_at (PaddingSize n);
      if negb (bytes_Equal pad pattern) then Some (n, Some ErrNeedlePadding)
      else Some (n, None).

(** [WriteNeedle] over a [bufio.Writer] whose writes do not fail: the
    writer is the sequence of bytes written so far. *)
Definition WriteNeedle (w : list Z) (padding size key cookie : Z) (data : list Z)
  : option (list Z * option Error) :=
  let w := w ++ needleHeaderMagic in
  let w := w ++ be_put 8 cookie in
  let w := w ++ be_put 8 key in
  let w := w ++ [NeedleStatusOK] in
  let w := w ++ be_put 4 size in
  let w := w ++ data in
  let w := w ++ needleFooterMagic in
  let w := w ++ be_put 4 (crc32.Update 0 crc32Table data) in
  pattern ← needlePadding_at padding;
  Some (w ++ pattern, None).

(** [FillNeedle] writes into [buf] in place; the result is [buf] after the
    call. *)
Definition FillNeedle (padding size key cookie : Z) (data buf : list Z)
  : option (list Z) :=
  let checksum := crc32.Update 0 crc32Table data in
  hm ← slice_to buf needleMagicSize;
  let buf := copy hm needleHeaderMagic ++ drop (Z.to_nat needleMagicSize) buf in
  let n := needleMagicSize in
  buf ← BigEndian.put_at 8 buf n cookie;
  let n := n + needleCookieSize in
  buf ← BigEndian.put_at 8 buf n key;
  let n := n + needleKeySize in
  _ ← index buf n;
  let buf := <[Z.to_nat n := NeedleStatusOK]> buf in
  let n := n + needleFlagSize in
  buf ← BigEndian.put_at 4 buf n size;
  let n := n + needleSizeSize in
  buf ← copy_at buf n data;
  let n := n + Z.of_nat (length data) in
  buf ← copy_at buf n needleFooterMagic;
  let n := n + needleMagicSize in
  buf ← BigEndian.put_at 4 buf n checksum;
  let n := n + needleChecksumSize in
  tl ← slice_from buf n;
  pattern ← needlePadding_at padding;
  Some (take (Z.to_nat n) buf ++ copy tl pattern).

(** ** The index file: Index, Indexer *)

Definition indexKeySize : Z := 8.
Definition indexOffsetSize : Z := 4.
Definition indexSizeSize : Z := 4.
Definition indexSize : Z := indexKeySize + indexOffsetSize + indexSizeSize.
Definition indexKeyOffset : Z := 0.
Definition indexOffsetOffset : Z := indexKeyOffset + indexKeySize.
Definition indexSizeOffset : Z := indexOffsetOffset + indexOffsetSize.

Record Index : Type := mkIndex {
  ixKey : Z;
  ixOffset : Z;
  ixSize : Z
}.

(** [Index.parse] *)
Definition parse (buf : list Z) : option Index :=
  key ← BigEndian.Int64 buf;
  offset ← slice_from buf indexOffsetOffset ≫= BigEndian.Uint32;
  size ← slice_from buf indexSizeOffset ≫= BigEndian.Int32;
  Some (mkIndex key offset size).

(** [writeIndex] over a writer whose writes do not fail. *)
Definition writeIndex (w : list Z) (key offset size : Z) : list Z :=
  w ++ be_put 8 key ++ be_put 4 offset ++ be_put 4 size.

(** The indexer: the bytes of its file, the bytes pending in its
    [bufio.Writer], the ring of index entries and the signal channel. *)
Record Indexer : Type := mkIndexer {
  ifile : list Z;
  ibw : list Z;
  iring : list Index;
  isignal : list Z
}.

Definition signalNum : nat := 1.
Definition indexReady : Z := 1.

(** Modelled from the spec: the ring of the indexer (its file is not part
    of the sources at hand), a bounded queue of index entries with
    capacity 102 400; writing to a full ring fails with RingFull. *)
Definition ringCap : Z := 102400.

(** [Indexer.Append] *)
Definition Indexer_Append (i : Indexer) (key offset size : Z) : Indexer * option Error :=
  if Z.of_nat (length (iring i)) <? ringCap
  then (mkIndexer (ifile i) (ibw i) (iring i ++ [mkIndex key offset size]) (isignal i), None)
  else (i, Some ErrRingFull).

(** [Indexer.Signal]: a send that does not block. *)
Definition Indexer_Signal (i : Indexer) : Indexer :=
  if (length (isignal i) <? signalNum)%nat
  then mkIndexer (ifile i) (ibw i) (iring i) (isignal i ++ [indexReady])
  else i.

(** [Indexer.Add] *)
Definition Indexer_Add (i : Indexer) (key offset size : Z) : Indexer * option Error :=
  match Indexer_Append i key offset size with
  | (i', Some e) => (i', Some e)
  | (i', None) => (Indexer_Signal i', None)
  end.

(** [Indexer.Write] *)
Definition Indexer_Write (i : Indexer) (key offset size : Z) : Indexer * option Error :=
  (mkIndexer (ifile i) (writeIndex (ibw i) key offset size) (iring i) (isignal i), None).

(** What [Indexer.Recovery] leaves behind: the cache, the returned offset
    and error, and the position of the index file: [Some off] after the
    final [Seek(off)], [None] when the file was not repositioned after
    the buffered reads. *)
Record Recovered : Type := mkRecovered {
  rNeedles : gmap Z Z;
  rNoffset : Z;
  rSeek : option Z;
  rErr : option Error
}.

(** The loop of [Indexer.Recovery] over the unread bytes [rd] of an index
    file held in memory (reads fail at the end of the file only).  The
    result is the state at the [break]: [true] when [Peek] met the end of
    the file ([err == io.EOF]), [false] when the size check failed
    ([err == nil]). *)
Fixpoint Recovery_loop (fuel : nat) (rd : list Z) (offset : Z)
    (needles : gmap Z Z) (noffset : Z) : option (bool * Z * gmap Z Z * Z) :=
  match fuel with
  | O => Some (true, offset, needles, noffset)
  | S fuel' =>
      if (length rd <? Z.to_nat indexSize)%nat
      then Some (true, offset, needles, noffset)
      else
        ix ← parse (take (Z.to_nat indexSize) rd);
        if (NeedleMaxSize <? ixSize ix) || (ixSize ix <? 1)
        then Some (false, offset, needles, noffset)
        else
          Recovery_loop fuel' (drop (Z.to_nat indexSize) rd)
            (int64 (offset + indexSize))
            (<[ixKey ix := NewNeedleCache (ixOffset ix) (ixSize ix)]> needles)
            (uint32 (ixOffset ix + NeedleOffset (ixSize ix)))
  end.

(** [Indexer.Recovery] *)
Definition Recovery (file : list Z) (needles : gmap Z Z) : option Recovered :=
  match Recovery_loop (S (length file)) file 0 needles 0 with
  | Some (true, offset, needles, noffset) =>
      Some (mkRecovered needles noffset (Some offset) None)
  | Some (false, _, needles, noffset) =>
      Some (mkRecovered needles noffset None None)
  | None => None
  end.

(** ** volume.go *)

Definition volumeFinish : Z := 0.
Definition volumeDelChNum : Z := 10240.
Definition volumeDelMax : nat := 50.

(** The super block is not part of the sources at hand; the volume uses
    it through these four operations.  [block_Get b offset n] is the
    positioned read of [n] bytes at block [offset]: the bytes read and an
    I/O error; [block_Add] and [block_Write] return the block offset and
    the record size of the appended needle, and may panic as the needle
    writer does. *)
Class SuperBlockOps (SB : Type) : Type := {
  block_Get : SB -> Z -> nat -> list Z * option Z;
  block_Add : SB -> Z -> Z -> list Z -> option (SB * (Z * Z * option Error));
  block_Write : SB -> Z -> Z -> list Z -> option (SB * (Z * Z * option Error));
  block_Del : SB -> Z -> SB * option Error
}.

Record Volume (SB : Type) : Type := mkVolume {
  block : SB;
  indexer : Indexer;
  needles : gmap Z Z;
  signal : list Z;
  Compress : bool;
  compressKeys : list Z
}.
Arguments mkVolume {SB}.
Arguments block {SB}.
Arguments indexer {SB}.
Arguments needles {SB}.
Arguments signal {SB}.
Arguments Compress {SB}.
Arguments compressKeys {SB}.

Definition set_needles {SB} (m : gmap Z Z) (v : Volume SB) : Volume SB :=
  mkVolume (block v) (indexer v) m (signal v) (Compress v) (compressKeys v).
Definition set_signal {SB} (q : list Z) (v : Volume SB) : Volume SB :=
  mkVolume (block v) (indexer v) (needles v) q (Compress v) (compressKeys v).
Definition set_block {SB} (b : SB) (v : Volume SB) : Volume SB :=
  mkVolume b (indexer v) (needles v) (signal v) (Compress v) (compressKeys v).
Definition set_indexer {SB} (i : Indexer) (v : Volume SB) : Volume SB :=
  mkVolume (block v) i (needles v) (signal v) (Compress v) (compressKeys v).
Definition set_compressKeys {SB} (ks : list Z) (v : Volume SB) : Volume SB :=
  mkVolume (block v) (indexer v) (needles v) (signal v) (Compress v) ks.

(** [Volume.asyncDel]: a send on the delete queue that does not block. *)
Definition asyncDel {SB} (v : Volume SB) (offset : Z) : Volume SB * option Error :=
  if Z.of_nat (length (signal v)) <? volumeDelChNum
  then (set_signal (signal v ++ [offset]) v, None)
  else (v, Some ErrVolumeDel).

Section VolumeOps.
Context {SB : Type} `{SuperBlockOps SB}.

(** [Volume.Get]: the volume after the call, the data and the error. *)
Definition Get (v : Volume SB) (key cookie : Z) (buf : list Z)
  : option (Volume SB * (list Z * option Error)) :=
  match needles v !! key with
  | None => Some (v, ([], Some ErrNoNeedle))
  | Some needleCache =>
      let '(offset, size) := Value needleCache in
      if offset =? NeedleCacheDelOffset then Some (v, ([], Some ErrNeedleDeleted))
      else
        rb ← slice_to buf size;
        match block_Get (block v) offset (length rb) with
        | (_, Some e) => Some (v, ([], Some (ErrIO e)))
        | (bytes, None) =>
            let buf := copy rb bytes ++ drop (length rb) buf in
            hb ← slice_to buf NeedleHeaderSize;
            '(needle, err) ← ParseHeader emptyNeedle hb;
            match err with
            | Some e => Some (v, ([], Some e))
            | None =>
                db ← slice_from buf NeedleHeaderSize;
                '(needle, err) ← ParseData needle db;
                match err with
                | Some e => Some (v, ([], Some e))
                | None =>
                    if negb (Key needle =? key) then Some (v, ([], Some ErrNeedleKey))
                    else if negb (Cookie needle =? cookie)
                    then Some (v, ([], Some ErrNeedleCookie))
                    else if Flag needle =? NeedleStatusDel
                    then Some (set_needles
                                 (<[key := NewNeedleCache NeedleCacheDelOffset size]>
                                    (needles v)) v,
                               ([], Some ErrNeedleDeleted))
                    else Some (v, (Data needle, None))
                end
            end
        end
  end.

(** The two steps of [Get] between the cache lookup and the checks of
    the parsed needle: the read of the record into the buffer, which
    yields the buffer after a read without error, and the parse of the
    header and of the body of the buffer. *)
Definition Get_read (v : Volume SB) (c : Z) (buf : list Z) : option (list Z) :=
  rb ← slice_to buf (snd (Value c));
  match block_Get (block v) (fst (Value c)) (length rb) with
  | (_, Some _) => None
  | (bytes, None) => Some (copy rb bytes ++ drop (length rb) buf)
  end.

Definition Get_parse (buf : list Z) : option (Needle * option Error) :=
  hb ← slice_to buf NeedleHeaderSize;
  '(needle, err) ← ParseHeader emptyNeedle hb;
  match err with
  | Some e => Some (needle, Some e)
  | None => db ← slice_from buf NeedleHeaderSize; ParseData needle db
  end.

(** The part [Volume.Add] and [Volume.Write] share once the needle was
    appended at [(offset, size)]: the cache is updated and the old offset
    of a key that was present goes to the delete queue. *)
Definition replace_entry (v : Volume SB) (old : option Z) (key offset size : Z)
  : Volume SB * option Error :=
  let v := set_needles (<[key := NewNeedleCache offset size]> (needles v)) v in
  match old with
  | Some needleCache => asyncDel v (fst (Value needleCache))
  | None => (v, None)
  end.

(** [Volume.Add] *)
Definition Add (v : Volume SB) (key cookie : Z) (data : list Z)
  : option (Volume SB * option Error) :=
  let old := needles v !! key in
  '(b, r) ← block_Add (block v) key cookie data;
  let v := set_block b v in
  match r with
  | (_, _, Some e) => Some (v, Some e)
  | (offset, size, None) =>
      match Indexer_Add (indexer v) key offset size with
      | (i, Some e) => Some (set_indexer i v, Some e)
      | (i, None) => Some (replace_entry (set_indexer i v) old key offset size)
      end
  end.

(** [Volume.Write] *)
Definition Write (v : Volume SB) (key cookie : Z) (data : list Z)
  : option (Volume SB * option Error) :=
  let old := needles v !! key in
  '(b, r) ← block_Write (block v) key cookie data;
  let v := set_block b v in
  match r with
  | (_, _, Some e) => Some (v, Some e)
  | (offset, size, None) =>
      match Indexer_Write (indexer v) key offset size with
      | (i, Some e) => Some (set_indexer i v, Some e)
      | (i, None) => Some (replace_entry (set_indexer i v) old key offset size)
      end
  end.

(** [Volume.Del] *)
Definition Del (v : Volume SB) (key : Z) : Volume SB * option Error :=
  match needles v !! key with
  | Some needleCache =>
      let '(offset, size) := Value needleCache in
      let v := set_needles
                 (<[key := NewNeedleCache NeedleCacheDelOffset size]> (needles v)) v in
      let v := if Compress v then set_compressKeys (compressKeys v ++ [key]) v else v in
      asyncDel v offset
  | None => (v, Some ErrNoNeedle)
  end.

(** *** The delete task [Volume.del] *)

(** What one turn of the [select] of the task receives: an offset from
    the delete queue, or the tick of [time.After]. *)
Inductive DelEvent : Type :=
| Recv (offset : Z)
| Tick.

(** The task: the super block it writes to, the batch [offsets], whether
    it has returned, and the offsets it has passed to [block.Del], in
    order. *)
Record DelTask : Type := mkDelTask {
  dtBlock : SB;
  dtOffsets : list Z;
  dtExited : bool;
  dtApplied : list Z
}.

(** [sort.Sort(Uint32Slice(offsets))] *)
Fixpoint sort_insert (x : Z) (l : list Z) : list Z :=
  match l with
  | [] => [x]
  | y :: r => if x <=? y then x :: l else y :: sort_insert x r
  end.

Definition sort_offsets (l : list Z) : list Z := fold_right sort_insert [] l.

(** The loop over the sorted batch: it stops at the first error. *)
Fixpoint del_batch (b : SB) (offsets applied : list Z) : SB * list Z :=
  match offsets with
  | [] => (b, applied)
  | offset :: r =>
      match block_Del b offset with
      | (b', Some _) => (b', applied ++ [offset])
      | (b', None) => del_batch b' r (applied ++ [offset])
      end
  end.

Definition del_flush (t : DelTask) (offsets : list Z) : DelTask :=
  match offsets with
  | [] => mkDelTask (dtBlock t) [] false (dtApplied t)
  | _ =>
      let '(b, applied) := del_batch (dtBlock t) (sort_offsets offsets) (dtApplied t) in
      mkDelTask b [] false applied
  end.

(** One turn of the [for] loop of [Volume.del]. *)
Definition del_step (t : DelTask) (ev : DelEvent) : DelTask :=
  if dtExited t then t
  else
    match ev with
    | Recv offset =>
        if offset =? volumeFinish
        then mkDelTask (dtBlock t) (dtOffsets t) true (dtApplied t)
        else
          let offsets := dtOffsets t ++ [offset] in
          if (length offsets <? volumeDelMax)%nat
          then mkDelTask (dtBlock t) offsets false (dtApplied t)
          else del_flush t offsets
    | Tick => del_flush t (dtOffsets t)
    end.

(** The task over the sequence of events it meets. *)
Definition del_run (t : DelTask) (evs : list DelEvent) : DelTask :=
  fold_left del_step evs t.

End VolumeOps.

(** ** A super block in memory *)

(** Modelled from the spec: the super block (its file is not part of the
    sources at hand), an append-only file of needles.  [append] computes
    the padding with [NeedleSize], encodes the needle with [WriteNeedle]
    into the buffered writer, advances the cursor by the record size and
    returns the needle offset (cursor before, in blocks) and the record
    size; [read] is a positioned read of the requested bytes at
    [offset * 8]; [mark_deleted] writes the byte 1 at
    [offset * 8 + NeedleFlagOffset]. *)
Record MemBlock : Type := mkMemBlock {
  mbFile : list Z;
  mbPending : list Z;
  mbOffset : Z
}.

Definition MemBlock_flush (b : MemBlock) : MemBlock :=
  mkMemBlock (mbFile b ++ mbPending b) [] (mbOffset b).

Definition MemBlock_append (b : MemBlock) (key cookie : Z) (data : list Z)
  : option (MemBlock * (Z * Z * option Error)) :=
  match NeedleSize (int32 (Z.of_nat (length data))) with
  | (_, _, Some e) => Some (b, (0, 0, Some e))
  | (padding, size, None) =>
      '(w, _) ← WriteNeedle (mbPending b) padding (int32 (Z.of_nat (length data)))
                  key cookie data;
      Some (mkMemBlock (mbFile b) w (uint32 (mbOffset b + NeedleOffset size)),
            (mbOffset b, size, None))
  end.

Definition MemBlock_read (b : MemBlock) (offset : Z) (n : nat) : list Z * option Z :=
  let bytes := take n (drop (Z.to_nat (offset * NeedlePaddingSize)) (mbFile b)) in
  if (length bytes <? n)%nat then (bytes, Some 1) else (bytes, None).

Definition MemBlock_mark_deleted (b : MemBlock) (offset : Z) : MemBlock * option Error :=
  (mkMemBlock
     (<[Z.to_nat (offset * NeedlePaddingSize + NeedleFlagOffset) := NeedleStatusDel]>
        (mbFile b))
     (mbPending b) (mbOffset b), None).

#[export] Instance MemBlock_ops : SuperBlockOps MemBlock := {
  block_Get := MemBlock_read;
  block_Add b key cookie data :=
    '(b', r) ← MemBlock_append b key cookie data; Some (MemBlock_flush b', r);
  block_Write := MemBlock_append;
  block_Del := MemBlock_mark_deleted
}.

(** ** The bytes of a needle *)

(** The record that the needle writers produce for the padding pattern
    [pattern]: header, data, footer and padding. *)
Definition needle_bytes (size key cookie : Z) (data pattern : list Z) : list Z :=
  needleHeaderMagic ++ be_put 8 cookie ++ be_put 8 key ++ [NeedleStatusOK] ++
  be_put 4 size ++ data ++ needleFooterMagic ++
  be_put 4 (crc32.Update 0 crc32Table data) ++ pattern.

(** ** Corruption of a stored record *)

(** Bit [k] of byte [i] of [buf] flipped. *)
Definition flip_bit (buf : list Z) (i : nat) (k : Z) : list Z :=
  alter (fun b => Z.lxor b (2 ^ k)) i buf.

(** The body of a valid needle record for the header [n], as it follows
    the header in the file: the data, as many bytes as the size of the
    header says, the footer magic, the checksum of the data, and the
    padding with whatever follows it.  The offsets of the footer fit the
    32-bit index of [ParseData]. *)
Definition record_body (n : Needle) (buf : list Z) : Prop :=
  exists data rest,
    buf = data ++ needleFooterMagic ++
          be_put 4 (crc32.Update 0 crc32Table data) ++ rest /\
    Z.of_nat (length data) = Size n /\ Size n + 8 < 2 ^ 31 /\
    Forall is_byte data.

(** ** Cache entries *)

(** A live entry of the needle cache: its offset is not the tombstone
    offset and its size is the size of a record. *)
Definition live (c : Z) : Prop :=
  fst (Value c) <> NeedleCacheDelOffset /\ 0 < snd (Value c).

(** A tombstone: the offset field is 0. *)
Definition tombstone (c : Z) : Prop := fst (Value c) = NeedleCacheDelOffset.

(** The delete queue has room for one more offset. *)
Definition has_room {SB} (v : Volume SB) : Prop :=
  Z.of_nat (length (signal v)) < volumeDelChNum.

(** ** Index files *)

(** The 16 bytes of an index record. *)
Definition index_bytes (ix : Index) : list Z :=
  writeIndex [] (ixKey ix) (ixOffset ix) (ixSize ix).

(** An index record that [Indexer.Recovery] accepts. *)
Definition valid_index (ix : Index) : Prop :=
  is_int64 (ixKey ix) /\ is_uint32 (ixOffset ix) /\ 1 <= ixSize ix <= NeedleMaxSize.

(** The rest of an index file at which the scan stops: fewer than 16
    bytes, or a record whose size field is out of range. *)
Definition short_tail (tail : list Z) : Prop := (length tail < 16)%nat.

Definition bad_tail (tail : list Z) : Prop :=
  (16 <= length tail)%nat /\
  exists ix, parse (take 16 tail) = Some ix /\
             (NeedleMaxSize < ixSize ix \/ ixSize ix < 1).

(** The cache after the records [recs] were inserted in order. *)
Definition insert_records (needles : gmap Z Z) (recs : list Index) : gmap Z Z :=
  fold_left (fun m ix => <[ixKey ix := NewNeedleCache (ixOffset ix) (ixSize ix)]> m)
            recs needles.

(** The resume offset as the specification words it: the maximum over the
    records of (offset * 8) + 8 * ceil((25 + size + 8) / 8), in blocks of
    8 bytes. *)
Definition spec_candidate (ix : Index) : Z :=
  (ixOffset ix * 8 + 8 * ((25 + ixSize ix + 8 + 7) / 8)) / 8.

Definition spec_resume (recs : list Index) : Z :=
  fold_left (fun m ix => Z.max m (spec_candidate ix)) recs 0.

(** ** Example states *)

(** A volume over the super block in memory that holds one needle: key 7,
    cookie 42, data [AA BB CC], written at block 1, after the 8 bytes kept
    for the head of the super block. *)
Definition ex_data : list Z := [0xAA; 0xBB; 0xCC].

Definition ex_block : MemBlock :=
  mkMemBlock (repeat 0 8 ++ needle_bytes 3 7 42 ex_data [0; 0; 0; 0]) [] 6.

Definition ex_indexer : Indexer := mkIndexer [] [] [] [].

Definition ex_volume : Volume MemBlock :=
  mkVolume ex_block ex_indexer {[7 := NewNeedleCache 1 40]} [] false [].

(** The same volume with the key already deleted. *)
Definition ex_deleted_volume : Volume MemBlock :=
  mkVolume ex_block ex_indexer {[7 := NewNeedleCache 0 40]} [] false [].

(** The same volume with a full delete queue. *)
Definition ex_full_volume : Volume MemBlock :=
  mkVolume ex_block ex_indexer {[7 := NewNeedleCache 1 40]}
           (repeat 5 (Z.to_nat volumeDelChNum)) false [].

(** The header and the body of the stored needle as [Get] parses them. *)
Definition ex_header : Needle :=
  mkNeedle needleHeaderMagic 42 7 0 3 [] [] 0 4 [] 15.

Definition ex_body : list Z :=
  ex_data ++ needleFooterMagic ++ be_put 4 (crc32.Update 0 crc32Table ex_data) ++
  [0; 0; 0; 0].

(** The header and the body of a needle of 7 data bytes, whose padding
    is 8. *)
Definition ex_data8 : list Z := [1; 2; 3; 4; 5; 6; 7].

Definition ex_header8 : Needle :=
  mkNeedle needleHeaderMagic 42 7 0 7 [] [] 0 8 [] 23.

Definition ex_body8 : list Z :=
  ex_data8 ++ needleFooterMagic ++ be_put 4 (crc32.Update 0 crc32Table ex_data8) ++
  repeat 0 8.

(** An index file of two records and three stray bytes. *)
Definition ex_records : list Index := [mkIndex 1 100 40; mkIndex 2 1 40].

Definition ex_index_file : list Z := concat (map index_bytes ex_records) ++ [1; 2; 3].

(** ** The index writer *)




(** [f.Write(p)] on the index file, which is opened read-write and not in
    append mode, with the position [pos] of the file, when the write
    neither fails nor falls short: the bytes are stored from the position
    on, over the bytes that the file holds there, the file grows where
    they reach past its end (with zero bytes between its end and a
    position beyond it), and the position moves past the bytes written.
    The result is the file and its position. *)
Definition file_Write (file : list Z) (pos : Z) (p : list Z) : list Z * Z :=
  let at_ := Z.to_nat pos in
  (take at_ file ++ repeat 0 (at_ - length file) ++ p ++ drop (at_ + length p) file,
   pos + Z.of_nat (length p)).

(** [Indexer.Flush] with the position [pos] of the index file, over a
    file whose writes neither fail nor fall short: the bytes pending in
    the writer are written at the position of the file; with nothing
    pending the file is not touched.  The result is the indexer, the
    position of the file and the error. *)
Definition Indexer_Flush (pos : Z) (i : Indexer) : Indexer * Z * option Error :=
  match ibw i with
  | [] => (i, pos, None)
  | _ :: _ =>
      let '(file, pos') := file_Write (ifile i) pos (ibw i) in
      (mkIndexer file [] (iring i) (isignal i), pos', None)
  end.

(** ** Compression of a volume *)

(** [block.Compress(offset, nv)] of the super block, which is not part of
    the sources at hand: it may write to the target volume [nv] and
    returns the offset reached and an error; it may panic as the needle
    writer does. *)
Class SuperBlockCompress (SB : Type) : Type := {
  block_Compress : SB -> Z -> Volume SB -> option (SB * Volume SB * (Z * option Error))
}.

Definition set_Compress {SB} (c : bool) (v : Volume SB) : Volume SB :=
  mkVolume (block v) (indexer v) (needles v) (signal v) c (compressKeys v).

Section CompressOps.
Context {SB : Type} `{SuperBlockOps SB} `{SuperBlockCompress SB}.

(** [Volume.StartCompress]; the field [compressOffset] of the volume is
    passed in and returned.  The source and the target are two volumes. *)
Definition StartCompress (v : Volume SB) (compressOffset : Z) (nv : Volume SB)
  : option (Volume SB * Z * Volume SB * option Error) :=
  if Compress v then Some (v, compressOffset, nv, Some ErrVolumeInCompress)
  else
    let v := set_Compress true v in
    '(b, nv, (offset, err)) ← block_Compress (block v) compressOffset nv;
    Some (set_block b v, offset, nv, err).

(** The loop of [Volume.StopCompress] over [compressKeys]: the keys are
    deleted from the target in order, up to the first error. *)
Fixpoint replay_dels (nv : Volume SB) (keys : list Z) : Volume SB * option Error :=
  match keys with
  | [] => (nv, None)
  | key :: keys' =>
      match Del nv key with
      | (nv', Some e) => (nv', Some e)
      | (nv', None) => replay_dels nv' keys'
      end
  end.

(** The statements after the label [failed] of [Volume.StopCompress]. *)
Definition reset_compress (v : Volume SB) : Volume SB :=
  set_compressKeys [] (set_Compress false v).

(** [Volume.StopCompress]; [nv] is [None] for a nil target. *)
Definition StopCompress (v : Volume SB) (compressOffset : Z) (nv : option (Volume SB))
  : option (Volume SB * Z * option (Volume SB) * option Error) :=
  match nv with
  | None => Some (reset_compress v, 0, None, None)
  | Some nv =>
      '(b, nv, (_, err)) ← block_Compress (block v) compressOffset nv;
      let v := set_block b v in
      match err with
      | Some e => Some (reset_compress v, 0, Some nv, Some e)
      | None =>
          let '(nv, err) := replay_dels nv (compressKeys v) in
          Some (reset_compress v, 0, Some nv, err)
      end
  end.

End CompressOps.

(** Modelled from the spec: [compress] of the super block when the scan
    starts at the end of the file: there is no record to copy, the target
    is left as it is and the offset is returned as it was. *)
Definition MemBlock_compress_at_end : SuperBlockCompress MemBlock :=
  {| block_Compress b offset nv := Some (b, nv, (offset, None)) |}.

(** A volume in compression with two keys recorded for the target, and a
    target that holds the first of them only. *)
Definition ex_compressing : Volume MemBlock :=
  mkVolume ex_block ex_indexer {[7 := NewNeedleCache 0 40]} [] true [7; 9].

(** Modelled from the spec: the super block in memory over a file that
    refuses writes: reads are as before, appends and flag writes return
    the I/O error of the file. *)
Definition ReadOnlyBlock_ops : SuperBlockOps MemBlock :=
  {| block_Get := MemBlock_read;
     block_Add b _ _ _ := Some (b, (0, 0, Some (ErrIO 30)));
     block_Write b _ _ _ := Some (b, (0, 0, Some (ErrIO 30)));
     block_Del b _ := (b, Some (ErrIO 30)) |}.

(** * Properties *)

(** ** Fixed-width arithmetic *)

Lemma int32_id x : is_int32 x -> int32 x = x.
Proof.
  unfold is_int32, int32. intros Hx.
  rewrite Z.mod_small; lia.
Qed.

Lemma int64_id x : is_int64 x -> int64 x = x.
Proof.
  unfold is_int64, int64. intros Hx.
  rewrite Z.mod_small; lia.
Qed.

Lemma uint32_id x : is_uint32 x -> uint32 x = x.
Proof.
  unfold is_uint32, uint32. intros Hx.
  rewrite Z.mod_small; lia.
Qed.

Lemma int32_range x : is_int32 (int32 x).
Proof.
  unfold is_int32, int32.
  pose proof (Z.mod_pos_bound (x + 2 ^ 31) (2 ^ 32)). lia.
Qed.

Lemma int64_mod x : int64 (x mod 2 ^ 64) = int64 x.
Proof.
  unfold int64.
  rewrite Zplus_mod_idemp_l. reflexivity.
Qed.

Lemma int32_mod x : int32 (x mod 2 ^ 32) = int32 x.
Proof.
  unfold int32.
  rewrite Zplus_mod_idemp_l. reflexivity.
Qed.

(** ** NeedleSize *)

(** Below the wrap-around of [int32], [NeedleSize] is the sizing rule. *)
Lemma NeedleSize_spec d :
  1 <= d <= 2 ^ 31 - 42 ->
  let padding := 8 - (25 + d + 8) mod 8 in
  NeedleSize d =
    (padding, 25 + d + 8 + padding,
     if 5 * 1024 * 1024 <? 25 + d + 8 + padding then Some ErrNeedleTooLarge else None)
  /\ 1 <= padding <= 8.
Proof.
  intros Hd padding.
  pose proof (Z.mod_pos_bound (25 + d + 8) 8 ltac:(lia)) as Hm.
  unfold NeedleSize, NeedleHeaderSize, NeedleFooterSize, NeedlePaddingSize,
    NeedleMaxSize, needleMagicSize, needleCookieSize, needleKeySize,
    needleFlagSize, needleSizeSize, needleChecksumSize.
  assert (H1 : int32 (4 + 8 + 8 + 1 + 4 + d) = 25 + d)
    by (rewrite int32_id; unfold is_int32; lia).
  rewrite H1.
  assert (H2 : int32 (25 + d + (4 + 4)) = 25 + d + 8)
    by (rewrite int32_id; unfold is_int32; lia).
  rewrite H2.
  rewrite Z.rem_mod_nonneg by lia.
  assert (H3 : int32 (8 - (25 + d + 8) mod 8) = padding)
    by (rewrite int32_id; unfold is_int32, padding; lia).
  rewrite H3.
  assert (H4 : int32 (25 + d + 8 + padding) = 25 + d + 8 + padding)
    by (rewrite int32_id; unfold is_int32, padding; lia).
  rewrite H4.
  split; [reflexivity | unfold padding; lia].
Qed.

(** C5, as amended: for every data length [d] with
    [1 <= d <= 2^31 - 42], so that the 32-bit arithmetic does not wrap,
    [NeedleSize d] returns the padding [8 - ((25 + d + 8) mod 8)] and the
    record length [25 + d + 8 + padding], and returns the TooLarge error
    exactly when that record length exceeds 5 MiB. *)
Theorem NeedleSize_rule d :
  1 <= d <= 2 ^ 31 - 42 ->
  let padding := 8 - (25 + d + 8) mod 8 in
  let record_len := 25 + d + 8 + padding in
  fst (fst (NeedleSize d)) = padding /\
  snd (fst (NeedleSize d)) = record_len /\
  (snd (NeedleSize d) = Some ErrNeedleTooLarge <-> 5 * 1024 * 1024 < record_len) /\
  (snd (NeedleSize d) = None <-> record_len <= 5 * 1024 * 1024).
Proof.
  intros Hd padding record_len.
  destruct (NeedleSize_spec d Hd) as [-> _]. cbn [fst snd].
  fold padding. fold record_len.
  repeat split; try reflexivity;
    destruct (Z.ltb_spec (5 * 1024 * 1024) record_len); intros; try lia; congruence.
Qed.

Lemma NeedleSize_rule_witness :
  fst (fst (NeedleSize 3)) = 4 /\ snd (fst (NeedleSize 3)) = 40 /\
  snd (NeedleSize 3) = None.
Proof.
  destruct (NeedleSize_rule 3 ltac:(lia)) as (Hp & Hs & _ & Hn).
  split; [exact Hp | split; [exact Hs |]].
  apply Hn. vm_compute. discriminate.
Defined.

(** C5, as stated, fails where the 32-bit record length wraps: for the
    data length [2^31 - 34] the returned record length is [-2^31], not
    [25 + d + 8 + padding], and no error is returned although that sum
    exceeds 5 MiB. *)
Lemma NeedleSize_rule_wraps :
  let d := 2147483614 in
  let padding := 8 - (25 + d + 8) mod 8 in
  1 <= d /\ is_int32 d /\
  ~ (snd (fst (NeedleSize d)) = 25 + d + 8 + padding /\
     (snd (NeedleSize d) = Some ErrNeedleTooLarge <->
      5 * 1024 * 1024 < 25 + d + 8 + padding)).
Proof.
  cbv zeta. split; [lia | split; [unfold is_int32; lia |]].
  intros [Hlen _]. vm_compute in Hlen. discriminate.
Qed.

(** C4, as amended: [NeedleSize] succeeds for the data lengths 1 and
    5 MiB - 34, and fails with TooLarge for the data lengths 5 MiB - 33
    and 5 MiB - 32. *)
Theorem NeedleSize_boundaries :
  NeedleSize 1 = (6, 40, None) /\
  NeedleSize (5 * 1024 * 1024 - 34) = (1, 5 * 1024 * 1024, None) /\
  NeedleSize (5 * 1024 * 1024 - 33) = (8, 5 * 1024 * 1024 + 8, Some ErrNeedleTooLarge) /\
  NeedleSize (5 * 1024 * 1024 - 32) = (7, 5 * 1024 * 1024 + 8, Some ErrNeedleTooLarge).
Proof. repeat split; vm_compute; reflexivity. Qed.

(** C4, as stated, fails: a data length of 5 MiB - 33 gives the padding 8
    and a record of 5 MiB + 8 bytes, which is refused. *)
Lemma NeedleSize_boundary_refused :
  ~ (snd (NeedleSize 1) = None /\
     snd (NeedleSize (5 * 1024 * 1024 - 33)) = None /\
     snd (NeedleSize (5 * 1024 * 1024 - 32)) = Some ErrNeedleTooLarge).
Proof. intros (_ & H & _). vm_compute in H. discriminate. Qed.

(** ** Bytes and big-endian integers *)

Lemma land_255 x : Z.land x 255 = x mod 256.
Proof. change 255 with (Z.ones 8). rewrite Z.land_ones by lia. reflexivity. Qed.

Lemma land_shiftl_byte a b : is_byte b -> Z.land (Z.shiftl a 8) b = 0.
Proof.
  intros Hb. apply Z.bits_inj'. intros n Hn.
  rewrite Z.land_spec, Z.bits_0.
  destruct (Z.lt_ge_cases n 8) as [Hlt | Hge].
  - rewrite Z.shiftl_spec_low by lia. reflexivity.
  - assert (Z.testbit b n = false) as ->; [| apply andb_false_r].
    destruct (Z.eq_dec b 0) as [-> | Hnz]; [apply Z.bits_0 |].
    apply Z.bits_above_log2; [unfold is_byte in Hb; lia |].
    assert (Z.log2 b < 8); [| lia].
    apply Z.log2_lt_pow2; unfold is_byte in Hb; lia.
Qed.

Lemma lor_shiftl_byte a b : is_byte b -> Z.lor (Z.shiftl a 8) b = a * 256 + b.
Proof.
  intros Hb. pose proof (Z.add_lor_land (Z.shiftl a 8) b) as Hadd.
  rewrite land_shiftl_byte in Hadd by assumption.
  rewrite Z.shiftl_mul_pow2 in Hadd by lia.
  rewrite Z.shiftl_mul_pow2 by lia. lia.
Qed.

Lemma be_put_length n v : length (be_put n v) = n.
Proof. induction n; simpl; congruence. Qed.

Lemma be_put_bytes n v : Forall is_byte (be_put n v).
Proof.
  induction n; simpl; constructor; [| assumption].
  rewrite land_255. unfold is_byte.
  pose proof (Z.mod_pos_bound (Z.shiftr v (8 * Z.of_nat n)) 256). lia.
Qed.

Lemma be_get_acc bs acc :
  Forall is_byte bs ->
  be_get bs acc = acc * 256 ^ Z.of_nat (length bs) + be_get bs 0.
Proof.
  intros Hbs. revert acc.
  induction Hbs as [| b r Hb Hr IH]; intros acc.
  - simpl. lia.
  - cbn [be_get length]. rewrite (IH (Z.lor (Z.shiftl acc 8) b)).
    rewrite (IH (Z.lor (Z.shiftl 0 8) b)).
    rewrite !lor_shiftl_byte by assumption.
    rewrite Nat2Z.inj_succ, Z.pow_succ_r by lia. lia.
Qed.

Lemma be_get_range bs :
  Forall is_byte bs -> 0 <= be_get bs 0 < 256 ^ Z.of_nat (length bs).
Proof.
  induction 1 as [| b r Hb Hr IH].
  - simpl. lia.
  - cbn [be_get length]. rewrite be_get_acc by assumption.
    rewrite lor_shiftl_byte by assumption.
    rewrite Nat2Z.inj_succ, Z.pow_succ_r by lia.
    unfold is_byte in Hb. nia.
Qed.

Lemma be_get_put n v : be_get (be_put n v) 0 = v mod 256 ^ Z.of_nat n.
Proof.
  induction n as [| n IH].
  - simpl. rewrite Z.mod_1_r. reflexivity.
  - cbn [be_put be_get].
    rewrite be_get_acc by apply be_put_bytes.
    rewrite be_put_length, IH.
    rewrite lor_shiftl_byte by (rewrite land_255; apply Z.mod_pos_bound; lia).
    rewrite land_255, Z.shiftr_div_pow2 by lia.
    rewrite Nat2Z.inj_succ, Z.pow_succ_r by lia.
    replace (2 ^ (8 * Z.of_nat n)) with (256 ^ Z.of_nat n)
      by (change 256 with (2 ^ 8); rewrite <- Z.pow_mul_r by lia; reflexivity).
    assert (0 < 256 ^ Z.of_nat n) as Hpos by (apply Z.pow_pos_nonneg; lia).
    rewrite (Z.mul_comm 256 (256 ^ Z.of_nat n)).
    rewrite (Z.rem_mul_r v (256 ^ Z.of_nat n) 256) by lia.
    lia.
Qed.

Lemma be_get_inj a b :
  length a = length b -> Forall is_byte a -> Forall is_byte b ->
  be_get a 0 = be_get b 0 -> a = b.
Proof.
  intros Hlen Ha. revert b Hlen.
  induction Ha as [| x r Hx Hr IH]; intros [| y s] Hlen Hb Heq;
    try discriminate; [reflexivity |].
  inversion Hb as [| ? ? Hy Hs]; subst.
  injection Hlen as Hlen.
  cbn [be_get] in Heq.
  rewrite (be_get_acc r), (be_get_acc s) in Heq by assumption.
  rewrite !lor_shiftl_byte in Heq by assumption.
  rewrite Hlen in Heq.
  pose proof (be_get_range r Hr) as Rr. pose proof (be_get_range s Hs) as Rs.
  rewrite Hlen in Rr.
  assert (0 < 256 ^ Z.of_nat (length s)) as Hpos by (apply Z.pow_pos_nonneg; lia).
  assert (x = y) as -> by (unfold is_byte in *; nia).
  f_equal. apply IH; [assumption.. | lia].
Qed.

Lemma read_put w v buf :
  BigEndian.read w (be_put w v ++ buf) = Some (v mod 256 ^ Z.of_nat w).
Proof.
  unfold BigEndian.read.
  assert ((w <=? length (be_put w v ++ buf))%nat = true) as ->
    by (apply Nat.leb_le; rewrite length_app, be_put_length; lia).
  rewrite take_app_length' by (symmetry; apply be_put_length).
  rewrite be_get_put. reflexivity.
Qed.

Lemma Int64_put v buf :
  is_int64 v -> BigEndian.Int64 (be_put 8 v ++ buf) = Some v.
Proof.
  intros Hv. unfold BigEndian.Int64. rewrite read_put.
  change (256 ^ Z.of_nat 8) with (2 ^ 64). simpl fmap.
  rewrite int64_mod, int64_id by assumption. reflexivity.
Qed.

Lemma Int32_put v buf :
  is_int32 v -> BigEndian.Int32 (be_put 4 v ++ buf) = Some v.
Proof.
  intros Hv. unfold BigEndian.Int32. rewrite read_put.
  change (256 ^ Z.of_nat 4) with (2 ^ 32). simpl fmap.
  rewrite int32_mod, int32_id by assumption. reflexivity.
Qed.

Lemma Uint32_put v buf :
  is_uint32 v -> BigEndian.Uint32 (be_put 4 v ++ buf) = Some v.
Proof.
  intros Hv. unfold BigEndian.Uint32. rewrite read_put.
  change (256 ^ Z.of_nat 4) with (2 ^ 32).
  unfold is_uint32 in Hv. rewrite Z.mod_small by lia. reflexivity.
Qed.

(** ** Slices of a buffer given by its segments *)

Lemma slice_mid (a b c : list Z) lo hi :
  lo = Z.of_nat (length a) -> hi = Z.of_nat (length a + length b) ->
  slice (a ++ b ++ c) lo hi = Some b.
Proof.
  intros -> ->. unfold slice.
  assert ((0 <=? Z.of_nat (length a)) &&
          (Z.of_nat (length a) <=? Z.of_nat (length a + length b)) &&
          (Z.of_nat (length a + length b) <=? Z.of_nat (length (a ++ b ++ c))) = true)
    as ->.
  { rewrite !length_app. rewrite !andb_true_iff, !Z.leb_le. lia. }
  f_equal.
  replace (Z.to_nat (Z.of_nat (length a + length b) - Z.of_nat (length a)))
    with (length b) by lia.
  rewrite Nat2Z.id, drop_app_length, take_app_length. reflexivity.
Qed.

Lemma slice_to_app (a c : list Z) hi :
  hi = Z.of_nat (length a) -> slice_to (a ++ c) hi = Some a.
Proof.
  intros ->. unfold slice_to.
  apply (slice_mid [] a c); simpl; lia.
Qed.

Lemma slice_from_app (a c : list Z) lo :
  lo = Z.of_nat (length a) -> slice_from (a ++ c) lo = Some c.
Proof.
  intros ->. unfold slice_from.
  rewrite <- (app_nil_r c) at 1.
  rewrite (slice_mid a c []); [reflexivity | reflexivity |].
  rewrite !length_app. simpl. lia.
Qed.

Lemma index_app (a c : list Z) x i :
  i = Z.of_nat (length a) -> index (a ++ x :: c) i = Some x.
Proof.
  intros ->. unfold index.
  assert ((0 <=? Z.of_nat (length a)) = true) as -> by (apply Z.leb_le; lia).
  rewrite Nat2Z.id. apply list_lookup_middle. reflexivity.
Qed.

Lemma copy_same_length (b c src : list Z) :
  length b = length src -> copy (b ++ c) src = src ++ c.
Proof.
  intros Hlen. unfold copy.
  rewrite take_ge by (rewrite length_app; lia).
  rewrite <- Hlen, drop_app_length. reflexivity.
Qed.

Lemma copy_at_mid (a b c src : list Z) n :
  n = Z.of_nat (length a) -> length b = length src ->
  copy_at (a ++ b ++ c) n src = Some ((a ++ src) ++ c).
Proof.
  intros -> Hlen. unfold copy_at.
  assert ((0 <=? Z.of_nat (length a)) &&
          (Z.of_nat (length a) <=? Z.of_nat (length (a ++ b ++ c))) = true) as ->.
  { rewrite !length_app. rewrite andb_true_iff, !Z.leb_le. lia. }
  rewrite Nat2Z.id, take_app_length, drop_app_length.
  rewrite copy_same_length by assumption.
  rewrite app_assoc. reflexivity.
Qed.

Lemma put_at_mid w (a b c : list Z) n v :
  n = Z.of_nat (length a) -> length b = w ->
  BigEndian.put_at w (a ++ b ++ c) n v = Some ((a ++ be_put w v) ++ c).
Proof.
  intros Hn Hlen. unfold BigEndian.put_at.
  rewrite slice_from_app by assumption. cbn [mbind option_bind].
  unfold BigEndian.put.
  assert ((w <=? length (b ++ c))%nat = true) as ->
    by (apply Nat.leb_le; rewrite length_app; lia).
  cbn [mbind option_bind].
  rewrite copy_same_length by (rewrite be_put_length; assumption).
  subst n. rewrite Nat2Z.id, take_app_length, app_assoc. reflexivity.
Qed.

Lemma split_at (n : nat) (l : list Z) :
  (n <= length l)%nat -> exists a b, l = a ++ b /\ length a = n.
Proof.
  intros Hn. exists (take n l), (drop n l).
  split; [symmetry; apply take_drop | rewrite length_take; lia].
Qed.

(** ** The layout written by FillNeedle and WriteNeedle *)

Ltac len :=
  repeat rewrite length_app; repeat rewrite be_put_length;
  unfold NeedleHeaderSize, NeedleFooterSize in *;
  unfold needleMagicSize, needleCookieSize, needleKeySize, needleFlagSize,
    needleSizeSize, needleChecksumSize, needleHeaderMagic, needleFooterMagic in *;
  simpl length in *; lia.

Lemma WriteNeedle_layout w padding size key cookie data pattern :
  needlePadding_at padding = Some pattern ->
  WriteNeedle w padding size key cookie data =
    Some (w ++ needle_bytes size key cookie data pattern, None).
Proof.
  intros Hpat. unfold WriteNeedle, needle_bytes. rewrite Hpat.
  cbn [mbind option_bind]. rewrite <- !app_assoc. reflexivity.
Qed.

Lemma FillNeedle_layout padding size key cookie data buf pattern :
  needlePadding_at padding = Some pattern ->
  length buf = (33 + length data + length pattern)%nat ->
  FillNeedle padding size key cookie data buf =
    Some (needle_bytes size key cookie data pattern).
Proof.
  intros Hpat Hlen.
  destruct (split_at 4 buf ltac:(lia)) as (hm & r1 & -> & Hhm).
  rewrite length_app in Hlen.
  destruct (split_at 8 r1 ltac:(lia)) as (c & r2 & -> & Hc).
  rewrite length_app in Hlen.
  destruct (split_at 8 r2 ltac:(lia)) as (k & r3 & -> & Hk).
  rewrite length_app in Hlen.
  destruct r3 as [| f r4]; [simpl in Hlen; lia |]. cbn [length] in Hlen.
  destruct (split_at 4 r4 ltac:(lia)) as (sz & r5 & -> & Hsz).
  rewrite length_app in Hlen.
  destruct (split_at (length data) r5 ltac:(lia)) as (d & r6 & -> & Hd).
  rewrite length_app in Hlen.
  destruct (split_at 4 r6 ltac:(lia)) as (fm & r7 & -> & Hfm).
  rewrite length_app in Hlen.
  destruct (split_at 4 r7 ltac:(lia)) as (cs & tl & -> & Hcs).
  rewrite length_app in Hlen.
  unfold FillNeedle.
  rewrite (slice_to_app hm) by len. cbn [mbind option_bind].
  replace (copy hm needleHeaderMagic) with needleHeaderMagic
    by (rewrite <- (app_nil_r hm), copy_same_length by len;
        rewrite app_nil_r; reflexivity).
  replace (drop (Z.to_nat needleMagicSize) (hm ++ c ++ k ++ f :: sz ++ d ++ fm ++ cs ++ tl))
    with (c ++ k ++ f :: sz ++ d ++ fm ++ cs ++ tl)
    by (change (Z.to_nat needleMagicSize) with 4%nat; rewrite <- Hhm, drop_app_length;
        reflexivity).
  rewrite (put_at_mid 8 needleHeaderMagic c) by len. cbn [mbind option_bind].
  rewrite (put_at_mid 8 (needleHeaderMagic ++ be_put 8 cookie) k) by len.
  cbn [mbind option_bind].
  remember ((needleHeaderMagic ++ be_put 8 cookie) ++ be_put 8 key) as a eqn:Ea.
  assert (length a = 20%nat) as Ha by (rewrite Ea; len).
  rewrite (index_app a) by len. cbn [mbind option_bind].
  replace (<[Z.to_nat (needleMagicSize + needleCookieSize + needleKeySize) :=
             NeedleStatusOK]> (a ++ f :: sz ++ d ++ fm ++ cs ++ tl))
    with ((a ++ [NeedleStatusOK]) ++ sz ++ d ++ fm ++ cs ++ tl).
  2:{ change (Z.to_nat (needleMagicSize + needleCookieSize + needleKeySize)) with 20%nat.
      rewrite insert_app_r_alt by lia. rewrite Ha, Nat.sub_diag. simpl.
      rewrite <- app_assoc. reflexivity. }
  rewrite (put_at_mid 4 (a ++ [NeedleStatusOK]) sz) by len. cbn [mbind option_bind].
  rewrite (copy_at_mid ((a ++ [NeedleStatusOK]) ++ be_put 4 size) d) by len.
  cbn [mbind option_bind].
  rewrite (copy_at_mid (((a ++ [NeedleStatusOK]) ++ be_put 4 size) ++ data) fm) by len.
  cbn [mbind option_bind].
  rewrite (put_at_mid 4
             ((((a ++ [NeedleStatusOK]) ++ be_put 4 size) ++ data) ++ needleFooterMagic) cs)
    by len.
  cbn [mbind option_bind].
  set (crc := crc32.Update 0 crc32Table data).
  set (pre := ((((a ++ [NeedleStatusOK]) ++ be_put 4 size) ++ data) ++ needleFooterMagic)
              ++ be_put 4 crc).
  assert (Z.of_nat (length pre) =
          needleMagicSize + needleCookieSize + needleKeySize + needleFlagSize +
          needleSizeSize + Z.of_nat (length data) + needleMagicSize + needleChecksumSize)
    as Hpre by (unfold pre; len).
  rewrite (slice_from_app pre) by lia. cbn [mbind option_bind].
  rewrite Hpat. cbn [mbind option_bind].
  rewrite <- Hpre, Nat2Z.id, take_app_length.
  replace (copy tl pattern) with pattern
    by (rewrite <- (app_nil_r tl), copy_same_length by lia;
        rewrite app_nil_r; reflexivity).
  unfold pre, needle_bytes, crc. rewrite Ea, <- !app_assoc. reflexivity.
Qed.

(** ** The checksum *)

Lemma lxor_range n a b :
  0 <= n -> 0 <= a < 2 ^ n -> 0 <= b < 2 ^ n -> 0 <= Z.lxor a b < 2 ^ n.
Proof.
  intros Hn Ha Hb.
  assert (0 <= Z.lxor a b) as Hnonneg by (apply Z.lxor_nonneg; lia).
  split; [assumption |].
  destruct (Z.eq_dec (Z.lxor a b) 0) as [-> | Hnz]; [lia |].
  apply Z.log2_lt_pow2; [lia |].
  pose proof (Z.log2_lxor a b ltac:(lia) ltac:(lia)) as Hlog.
  assert (forall x, 0 <= x < 2 ^ n -> Z.log2 x < n \/ x = 0) as Hx.
  { intros x Hxr. destruct (Z.eq_dec x 0); [right; assumption | left].
    apply Z.log2_lt_pow2; lia. }
  destruct (Hx a Ha) as [Hla | ->], (Hx b Hb) as [Hlb | ->].
  - lia.
  - rewrite Z.lxor_0_r in *. lia.
  - rewrite Z.lxor_0_l in *. lia.
  - rewrite Z.lxor_0_l in Hnz. lia.
Qed.

Lemma crc32Table_length : length crc32Table = 256%nat.
Proof. reflexivity. Qed.

Lemma crc32Table_range : Forall (fun t => 0 <= t < 2 ^ 32) crc32Table.
Proof.
  apply Forall_forall. intros t Ht.
  assert (forallb (fun t => (0 <=? t) && (t <? 2 ^ 32)) crc32Table = true) as Hall
    by (vm_compute; reflexivity).
  rewrite forallb_forall in Hall. specialize (Hall t).
  rewrite andb_true_iff, Z.leb_le, Z.ltb_lt in Hall.
  apply Hall. apply list_elem_of_In. assumption.
Qed.

Lemma crc32Table_nth_range i : 0 <= nth i crc32Table 0 < 2 ^ 32.
Proof.
  destruct (Nat.lt_ge_cases i (length crc32Table)) as [Hlt | Hge].
  - pose proof crc32Table_range as Hall. rewrite Forall_forall in Hall.
    apply Hall. apply list_elem_of_In. apply nth_In. assumption.
  - rewrite nth_overflow by assumption. lia.
Qed.

Lemma step_range crc v :
  0 <= crc < 2 ^ 32 -> 0 <= crc32.step crc32Table crc v < 2 ^ 32.
Proof.
  intros Hc. unfold crc32.step.
  apply lxor_range; [lia | apply crc32Table_nth_range |].
  rewrite Z.shiftr_div_pow2 by lia.
  split; [apply Z.div_pos; lia |].
  apply Z.div_lt_upper_bound; lia.
Qed.

Lemma fold_step_range p crc :
  0 <= crc < 2 ^ 32 -> 0 <= fold_left (crc32.step crc32Table) p crc < 2 ^ 32.
Proof.
  revert crc. induction p as [| v p IH]; intros crc Hc; simpl.
  - assumption.
  - apply IH, step_range, Hc.
Qed.

Lemma Update_range p : is_uint32 (crc32.Update 0 crc32Table p).
Proof.
  unfold crc32.Update, is_uint32.
  apply lxor_range; [lia | | lia].
  apply fold_step_range. rewrite Z.lxor_0_l. lia.
Qed.

(** ** Parsing what the writers wrote *)

Lemma bytes_Equal_refl a : bytes_Equal a a = true.
Proof. unfold bytes_Equal. apply bool_decide_eq_true. reflexivity. Qed.

Lemma bytes_Equal_true a b : bytes_Equal a b = true <-> a = b.
Proof. unfold bytes_Equal. apply bool_decide_eq_true. Qed.

Lemma bytes_Equal_false a b : bytes_Equal a b = false <-> a <> b.
Proof. unfold bytes_Equal. apply bool_decide_eq_false. Qed.

(** The header written for [(size, key, cookie)]. *)
Lemma ParseHeader_written n0 size key cookie :
  is_int64 key -> is_int64 cookie -> 1 <= size <= NeedleMaxSize ->
  exists n,
    ParseHeader n0
      (needleHeaderMagic ++ be_put 8 cookie ++ be_put 8 key ++ [NeedleStatusOK] ++
       be_put 4 size) = Some (n, None) /\
    Cookie n = cookie /\ Key n = key /\ Flag n = NeedleStatusOK /\ Size n = size /\
    PaddingSize n = 8 - (25 + size + 8) mod 8.
Proof.
  intros Hkey Hcookie Hsize. unfold NeedleMaxSize in Hsize.
  unfold ParseHeader. cbv zeta.
  rewrite (slice_to_app needleHeaderMagic) by len. cbn [mbind option_bind].
  rewrite bytes_Equal_refl. cbn [negb].
  rewrite (slice_from_app needleHeaderMagic _ needleMagicSize) by len.
  cbn [mbind option_bind].
  rewrite Int64_put by assumption. cbn [mbind option_bind].
  rewrite (app_assoc needleHeaderMagic).
  rewrite (slice_from_app (needleHeaderMagic ++ be_put 8 cookie) _
             (needleMagicSize + needleCookieSize)) by len.
  cbn [mbind option_bind].
  rewrite Int64_put by assumption. cbn [mbind option_bind].
  rewrite (app_assoc (needleHeaderMagic ++ be_put 8 cookie)).
  change ([NeedleStatusOK] ++ be_put 4 size) with (NeedleStatusOK :: be_put 4 size).
  rewrite (index_app ((needleHeaderMagic ++ be_put 8 cookie) ++ be_put 8 key)) by len.
  cbn [mbind option_bind].
  change (negb (NeedleStatusOK =? NeedleStatusOK) && negb (NeedleStatusOK =? NeedleStatusDel))
    with false. cbv iota.
  change (NeedleStatusOK :: be_put 4 size) with ([NeedleStatusOK] ++ be_put 4 size).
  rewrite (app_assoc _ [NeedleStatusOK]).
  rewrite <- (app_nil_r (be_put 4 size)).
  rewrite (slice_from_app
             (((needleHeaderMagic ++ be_put 8 cookie) ++ be_put 8 key) ++ [NeedleStatusOK])
             _ (needleMagicSize + needleCookieSize + needleKeySize + needleFlagSize))
    by len.
  cbn [mbind option_bind].
  rewrite Int32_put by (unfold is_int32; lia). cbn [mbind option_bind].
  assert ((NeedleMaxSize <? size) || (size <? 1) = false) as ->.
  { unfold NeedleMaxSize. apply orb_false_iff. rewrite !Z.ltb_ge. lia. }
  eexists. split; [reflexivity |].
  cbn [Cookie Key Flag Size PaddingSize set_DataSize set_PaddingSize set_Size set_Flag
         set_Key set_Cookie set_HeaderMagic].
  repeat split.
  unfold NeedleHeaderSize, NeedleFooterSize, NeedlePaddingSize, needleMagicSize,
    needleCookieSize, needleKeySize, needleFlagSize, needleSizeSize, needleChecksumSize.
  pose proof (Z.mod_pos_bound (25 + size + 8) 8 ltac:(lia)) as Hm.
  rewrite (int32_id (4 + 8 + 8 + 1 + 4 + size)) by (unfold is_int32; lia).
  rewrite (int32_id (4 + 8 + 8 + 1 + 4 + size + (4 + 4))) by (unfold is_int32; lia).
  rewrite Z.rem_mod_nonneg by lia.
  replace (4 + 8 + 8 + 1 + 4 + size + (4 + 4)) with (25 + size + 8) by lia.
  apply int32_id. unfold is_int32. lia.
Qed.

(** The body written for [data] with the padding pattern of the needle. *)
Lemma ParseData_written n (data pattern : list Z) :
  Size n = Z.of_nat (length data) -> Size n <= NeedleMaxSize ->
  PaddingSize n = Z.of_nat (length pattern) -> (length pattern <= 8)%nat ->
  needlePadding_at (PaddingSize n) = Some pattern ->
  ParseData n
    (data ++ needleFooterMagic ++ be_put 4 (crc32.Update 0 crc32Table data) ++ pattern)
  = Some (set_Padding pattern
            (set_Checksum (crc32.Update 0 crc32Table data)
               (set_FooterMagic needleFooterMagic (set_Data data n))), None).
Proof.
  intros Hsize Hmax Hpad Hpat8 Hpat. unfold NeedleMaxSize in Hmax.
  set (crc := crc32.Update 0 crc32Table data).
  unfold ParseData. cbv zeta.
  rewrite (slice_to_app data) by lia. cbn [mbind option_bind].
  assert (forall x, Size (set_Data x n) = Size n) as HS by reflexivity.
  rewrite HS.
  rewrite (int32_id (Size n + needleMagicSize)) by (unfold is_int32, needleMagicSize; lia).
  rewrite (slice_mid data needleFooterMagic _ (Size n) (Size n + needleMagicSize)) by len.
  cbn [mbind option_bind].
  rewrite bytes_Equal_refl. cbn [negb].
  rewrite (int32_id (Size n + needleMagicSize + needleChecksumSize))
    by (unfold is_int32, needleMagicSize, needleChecksumSize; lia).
  rewrite (app_assoc data).
  rewrite (slice_mid (data ++ needleFooterMagic) (be_put 4 crc) _
             (Size n + needleMagicSize)
             (Size n + needleMagicSize + needleChecksumSize)) by len.
  cbn [mbind option_bind].
  rewrite <- (app_nil_r (be_put 4 crc)) at 1.
  rewrite Uint32_put by apply Update_range. cbn [mbind option_bind].
  fold crc. rewrite Z.eqb_refl. cbn [negb].
  assert (forall x y z, PaddingSize (set_Checksum x (set_FooterMagic y (set_Data z n))) =
                        PaddingSize n) as HP by reflexivity.
  rewrite HP.
  rewrite (int32_id (Size n + needleMagicSize + needleChecksumSize + PaddingSize n))
    by (unfold is_int32, needleMagicSize, needleChecksumSize; lia).
  rewrite (app_assoc (data ++ needleFooterMagic)).
  rewrite <- (app_nil_r pattern) at 1.
  rewrite (slice_mid ((data ++ needleFooterMagic) ++ be_put 4 crc) pattern _
             (Size n + needleMagicSize + needleChecksumSize)
             (Size n + needleMagicSize + needleChecksumSize + PaddingSize n)) by len.
  cbn [mbind option_bind].
  assert (forall x y z w,
             PaddingSize (set_Padding w (set_Checksum x (set_FooterMagic y (set_Data z n)))) =
             PaddingSize n) as HP' by reflexivity.
  rewrite HP', Hpat. cbn [mbind option_bind].
  rewrite bytes_Equal_refl. reflexivity.
Qed.

(** ** The padding table *)

Lemma needlePadding_at_Some p :
  0 <= p <= 7 -> needlePadding_at p = Some (repeat 0 (Z.to_nat p)).
Proof.
  intros Hp.
  assert (p = 0 \/ p = 1 \/ p = 2 \/ p = 3 \/ p = 4 \/ p = 5 \/ p = 6 \/ p = 7)
    as Hcases by lia.
  repeat (destruct Hcases as [-> | Hcases]; [reflexivity |]).
  subst p. reflexivity.
Qed.

Lemma needlePadding_at_None p : needlePadding_at p = None <-> p < 0 \/ 8 <= p.
Proof.
  split.
  - intros Hnone.
    destruct (Z_lt_ge_dec p 0) as [Hneg | Hnonneg]; [left; assumption | right].
    destruct (Z_lt_ge_dec p 8) as [Hlt | Hge]; [| lia].
    rewrite needlePadding_at_Some in Hnone by lia. discriminate.
  - intros [Hneg | Hge]; unfold needlePadding_at.
    + destruct (Z.leb_spec 0 p); [lia | reflexivity].
    + destruct (Z.leb_spec 0 p); [| reflexivity].
      apply lookup_ge_None. simpl. lia.
Qed.

Lemma FillNeedle_padding8 padding size key cookie data buf :
  8 <= padding -> FillNeedle padding size key cookie data buf = None.
Proof.
  intros Hp. unfold FillNeedle.
  assert (needlePadding_at padding = None) as Hnone
    by (apply needlePadding_at_None; right; assumption).
  repeat match goal with
         | |- (needlePadding_at _ ≫= _) = None => rewrite Hnone; reflexivity
         | |- (?m ≫= _) = None => destruct m; cbn [mbind option_bind]; [| reflexivity]
         end.
Qed.

Lemma WriteNeedle_padding8 w padding size key cookie data :
  8 <= padding -> WriteNeedle w padding size key cookie data = None.
Proof.
  intros Hp. unfold WriteNeedle.
  assert (needlePadding_at padding = None) as ->
    by (apply needlePadding_at_None; right; assumption).
  reflexivity.
Qed.

(** The sizing rule gives the padding 8 exactly for the data lengths that
    are 7 modulo 8. *)
Lemma NeedleSize_padding8 d :
  1 <= d <= 2 ^ 31 - 42 -> fst (fst (NeedleSize d)) = 8 <-> d mod 8 = 7.
Proof.
  intros Hd. destruct (NeedleSize_spec d Hd) as [-> Hp]. cbn [fst].
  replace (25 + d + 8) with (d + 1 + 4 * 8) by lia.
  rewrite Z.mod_add by lia.
  pose proof (Z.mod_pos_bound d 8 ltac:(lia)) as Hm.
  pose proof (Z.mod_pos_bound (d + 1) 8 ltac:(lia)) as Hm1.
  rewrite (Z.add_mod d 1 8) in * by lia.
  change (1 mod 8) with 1 in *.
  split; intros Heq.
  - destruct (Z.eq_dec (d mod 8) 7) as [E | NE]; [assumption |].
    rewrite (Z.mod_small (d mod 8 + 1) 8) in Heq by lia. lia.
  - rewrite Heq. reflexivity.
Qed.

(** A data length that [NeedleSize] accepts with a record length that is
    not negative is at most 5 MiB. *)
Lemma NeedleSize_accepts d padding record_len :
  1 <= d -> is_int32 d ->
  NeedleSize d = (padding, record_len, None) -> 0 <= record_len ->
  d <= 5 * 1024 * 1024.
Proof.
  intros Hd Hint Hsize Hrec.
  destruct (Z_le_gt_dec d (2 ^ 31 - 42)) as [Hle | Hgt].
  - destruct (NeedleSize_spec d ltac:(lia)) as [Hspec Hp].
    rewrite Hspec in Hsize.
    destruct (Z.ltb_spec (5 * 1024 * 1024) (25 + d + 8 + (8 - (25 + d + 8) mod 8)));
      [discriminate | lia].
  - exfalso. unfold NeedleSize in Hsize. injection Hsize as _ Hlen _.
    subst record_len. revert Hrec.
    unfold is_int32, int32, NeedleHeaderSize, NeedleFooterSize, NeedlePaddingSize,
      needleMagicSize, needleCookieSize, needleKeySize, needleFlagSize, needleSizeSize,
      needleChecksumSize in *.
    Z.div_mod_to_equations. Z.quot_rem_to_equations. lia.
Qed.

Lemma needle_bytes_split size key cookie data pattern :
  needle_bytes size key cookie data pattern =
  (needleHeaderMagic ++ be_put 8 cookie ++ be_put 8 key ++ [NeedleStatusOK] ++
   be_put 4 size) ++
  (data ++ needleFooterMagic ++ be_put 4 (crc32.Update 0 crc32Table data) ++ pattern).
Proof. unfold needle_bytes. rewrite <- !app_assoc. reflexivity. Qed.

(** ** Round trip through the codec *)

(** X6: for a data length that is not 7 modulo 8 the needle written by
    [FillNeedle] into a buffer of the record length is parsed back to the
    same key, cookie and data. *)
Theorem FillNeedle_roundtrip key cookie data padding record_len buf :
  is_int64 key -> is_int64 cookie ->
  1 <= Z.of_nat (length data) -> is_int32 (Z.of_nat (length data)) ->
  Z.of_nat (length data) mod 8 <> 7 ->
  NeedleSize (Z.of_nat (length data)) = (padding, record_len, None) ->
  Z.of_nat (length buf) = record_len ->
  exists buf' hb db n n',
    FillNeedle padding (Z.of_nat (length data)) key cookie data buf = Some buf' /\
    slice_to buf' NeedleHeaderSize = Some hb /\
    slice_from buf' NeedleHeaderSize = Some db /\
    ParseHeader emptyNeedle hb = Some (n, None) /\
    Flag n = NeedleStatusOK /\ Size n = Z.of_nat (length data) /\
    ParseData n db = Some (n', None) /\
    Key n' = key /\ Cookie n' = cookie /\ Data n' = data.
Proof.
  intros Hkey Hcookie Hlen Hint Hmod Hsize Hbuf.
  set (d := Z.of_nat (length data)) in *.
  assert (d <= 5 * 1024 * 1024) as Hmax
    by (apply (NeedleSize_accepts d padding record_len); [assumption.. | lia]).
  destruct (NeedleSize_spec d ltac:(lia)) as [Hspec Hp].
  rewrite Hspec in Hsize. injection Hsize as Hpad Hrec _.
  assert (padding <> 8) as Hp8.
  { intros E. apply Hmod. apply NeedleSize_padding8; [lia |].
    rewrite Hspec. cbn [fst]. lia. }
  assert (needlePadding_at padding = Some (repeat 0 (Z.to_nat padding))) as Hpat
    by (apply needlePadding_at_Some; lia).
  exists (needle_bytes d key cookie data (repeat 0 (Z.to_nat padding))).
  exists (needleHeaderMagic ++ be_put 8 cookie ++ be_put 8 key ++ [NeedleStatusOK] ++
          be_put 4 d).
  exists (data ++ needleFooterMagic ++ be_put 4 (crc32.Update 0 crc32Table data) ++
          repeat 0 (Z.to_nat padding)).
  destruct (ParseHeader_written emptyNeedle d key cookie Hkey Hcookie
              ltac:(unfold NeedleMaxSize; lia))
    as (n & Hparse & Hc & Hk & Hf & Hs & Hps).
  exists n. eexists.
  split; [| split; [| split; [| split; [exact Hparse | split; [exact Hf | split;
    [exact Hs | split]]]]]].
  - apply FillNeedle_layout; [assumption |].
    rewrite repeat_length. subst d. lia.
  - rewrite needle_bytes_split. apply slice_to_app. len.
  - rewrite needle_bytes_split. apply slice_from_app. len.
  - apply ParseData_written.
    + rewrite Hs. reflexivity.
    + rewrite Hs. unfold NeedleMaxSize. lia.
    + rewrite Hps, repeat_length. lia.
    + rewrite repeat_length. lia.
    + rewrite Hps. replace (8 - (25 + d + 8) mod 8) with padding by lia. exact Hpat.
  - cbn [Key Cookie Data set_Padding set_Checksum set_FooterMagic set_Data].
    auto.
Qed.

(** ** The checksum tells single bytes apart *)

Lemma lxor_cancel_l a b c : Z.lxor a b = Z.lxor a c -> b = c.
Proof.
  intros Heq.
  assert (Z.lxor a (Z.lxor a b) = Z.lxor a (Z.lxor a c)) as H2 by congruence.
  rewrite <- !Z.lxor_assoc, Z.lxor_nilpotent, !Z.lxor_0_l in H2. exact H2.
Qed.

Lemma lxor_cancel_r a b c : Z.lxor b a = Z.lxor c a -> b = c.
Proof. rewrite !(Z.lxor_comm _ a). apply lxor_cancel_l. Qed.

Lemma crc32Table_inj i j :
  (i < 256)%nat -> (j < 256)%nat ->
  nth i crc32Table 0 = nth j crc32Table 0 -> i = j.
Proof.
  assert (List.NoDup crc32Table) as Hnd.
  { apply NoDup_ListNoDup. apply (bool_decide_unpack _). vm_compute. reflexivity. }
  intros Hi Hj. apply (proj1 (List.NoDup_nth crc32Table 0) Hnd); assumption.
Qed.

Lemma crc32Table_top_inj i j :
  (i < 256)%nat -> (j < 256)%nat ->
  Z.shiftr (nth i crc32Table 0) 24 = Z.shiftr (nth j crc32Table 0) 24 -> i = j.
Proof.
  set (tops := List.map (fun t => Z.shiftr t 24) crc32Table).
  assert (List.NoDup tops) as Hnd.
  { apply NoDup_ListNoDup. apply (bool_decide_unpack _). vm_compute. reflexivity. }
  assert (length tops = 256%nat) as Hlen by reflexivity.
  intros Hi Hj Heq.
  apply (proj1 (List.NoDup_nth tops 0) Hnd); [lia | lia |].
  pose proof (List.map_nth (fun t => Z.shiftr t 24) crc32Table 0 i) as Mi.
  pose proof (List.map_nth (fun t => Z.shiftr t 24) crc32Table 0 j) as Mj.
  cbn beta in Mi, Mj. change (Z.shiftr 0 24) with 0 in Mi, Mj.
  fold tops in Mi, Mj. rewrite Mi, Mj. exact Heq.
Qed.

Lemma crc_index_range c v :
  0 <= c -> is_byte v -> 0 <= Z.lxor (Z.land c 255) v < 256.
Proof.
  intros Hc Hv. apply (lxor_range 8); [lia | | exact Hv].
  rewrite land_255. apply Z.mod_pos_bound. lia.
Qed.

Lemma step_inj_byte c v1 v2 :
  0 <= c -> is_byte v1 -> is_byte v2 ->
  crc32.step crc32Table c v1 = crc32.step crc32Table c v2 -> v1 = v2.
Proof.
  intros Hc H1 H2 Heq. unfold crc32.step in Heq.
  apply lxor_cancel_r in Heq.
  pose proof (crc_index_range c v1 Hc H1) as R1.
  pose proof (crc_index_range c v2 Hc H2) as R2.
  apply crc32Table_inj in Heq; [| lia | lia].
  apply Z2Nat.inj in Heq; [| lia | lia].
  apply lxor_cancel_l in Heq. exact Heq.
Qed.

Lemma step_inj_state c1 c2 v :
  0 <= c1 < 2 ^ 32 -> 0 <= c2 < 2 ^ 32 -> is_byte v ->
  crc32.step crc32Table c1 v = crc32.step crc32Table c2 v -> c1 = c2.
Proof.
  intros H1 H2 Hv Heq. unfold crc32.step in Heq.
  pose proof (crc_index_range c1 v ltac:(lia) Hv) as R1.
  pose proof (crc_index_range c2 v ltac:(lia) Hv) as R2.
  assert (forall c, 0 <= c < 2 ^ 32 -> Z.shiftr (Z.shiftr c 8) 24 = 0) as Htop.
  { intros c Hc. rewrite Z.shiftr_shiftr by lia. rewrite Z.shiftr_div_pow2 by lia.
    apply Z.div_small. simpl. lia. }
  assert (Z.to_nat (Z.lxor (Z.land c1 255) v) = Z.to_nat (Z.lxor (Z.land c2 255) v))
    as Hidx.
  { apply crc32Table_top_inj; [lia | lia |].
    apply (f_equal (fun x => Z.shiftr x 24)) in Heq.
    rewrite !Z.shiftr_lxor, !Htop, !Z.lxor_0_r in Heq by assumption. exact Heq. }
  rewrite Hidx in Heq. apply lxor_cancel_l in Heq.
  apply Z2Nat.inj in Hidx; [| lia | lia].
  apply lxor_cancel_r in Hidx.
  rewrite !land_255 in Hidx. rewrite !Z.shiftr_div_pow2 in Heq by lia.
  change (2 ^ 8) with 256 in Heq.
  rewrite (Z.div_mod c1 256), (Z.div_mod c2 256) by lia. congruence.
Qed.

Lemma fold_step_inj p c1 c2 :
  Forall is_byte p -> 0 <= c1 < 2 ^ 32 -> 0 <= c2 < 2 ^ 32 ->
  fold_left (crc32.step crc32Table) p c1 = fold_left (crc32.step crc32Table) p c2 ->
  c1 = c2.
Proof.
  intros Hp. revert c1 c2.
  induction Hp as [| v p Hv Hp IH]; intros c1 c2 H1 H2 Heq; simpl in Heq.
  - exact Heq.
  - apply IH in Heq; [| apply step_range; assumption..].
    apply step_inj_state in Heq; assumption.
Qed.

(** Two byte strings that differ in one byte have different checksums. *)
Lemma Update_single_byte pre post b b' :
  Forall is_byte post -> is_byte b -> is_byte b' -> b <> b' ->
  crc32.Update 0 crc32Table (pre ++ b :: post) <>
  crc32.Update 0 crc32Table (pre ++ b' :: post).
Proof.
  intros Hpost Hb Hb' Hne Heq. unfold crc32.Update in Heq.
  apply lxor_cancel_r in Heq.
  rewrite !fold_left_app in Heq. cbn [fold_left] in Heq.
  set (c := fold_left (crc32.step crc32Table) pre (Z.lxor 0 4294967295)) in *.
  assert (0 <= c < 2 ^ 32) as Hc
    by (apply fold_step_range; rewrite Z.lxor_0_l; lia).
  apply fold_step_inj in Heq; [| assumption | apply step_range; assumption..].
  apply step_inj_byte in Heq; [contradiction | lia | assumption..].
Qed.

(** ** Corruption is detected *)

Lemma slice_inv (buf s : list Z) lo hi :
  slice buf lo hi = Some s ->
  0 <= lo /\ lo <= hi /\ hi <= Z.of_nat (length buf) /\
  Z.of_nat (length s) = hi - lo /\
  buf = take (Z.to_nat lo) buf ++ s ++ drop (Z.to_nat hi) buf.
Proof.
  unfold slice. intros H.
  destruct ((0 <=? lo) && (lo <=? hi) && (hi <=? Z.of_nat (length buf))) eqn:E;
    [| discriminate].
  rewrite !andb_true_iff, !Z.leb_le in E. destruct E as [[H0 H1] H2].
  injection H as <-.
  repeat split; try assumption.
  - rewrite length_take, length_drop. lia.
  - rewrite <- (take_drop (Z.to_nat lo) buf) at 1. f_equal.
    rewrite <- (take_drop (Z.to_nat (hi - lo)) (drop (Z.to_nat lo) buf)) at 1.
    f_equal. rewrite drop_drop. f_equal. lia.
Qed.

Lemma slice_from_eq (buf s : list Z) lo :
  slice_from buf lo = Some s -> s = drop (Z.to_nat lo) buf.
Proof.
  unfold slice_from, slice. intros Hs.
  destruct ((0 <=? lo) && (lo <=? Z.of_nat (length buf)) &&
            (Z.of_nat (length buf) <=? Z.of_nat (length buf))); [| discriminate].
  injection Hs as <-. apply take_ge. rewrite length_drop. lia.
Qed.

(** A body that [ParseData] accepts is made of the data, the footer magic,
    the checksum of the data and what follows. *)
Lemma ParseData_inv n buf n' :
  ParseData n buf = Some (n', None) ->
  exists data cs rest,
    buf = data ++ needleFooterMagic ++ cs ++ rest /\
    Z.of_nat (length data) = Size n /\ length cs = 4%nat /\
    be_get cs 0 = crc32.Update 0 crc32Table data /\
    Size n + 8 < 2 ^ 31.
Proof.
  unfold ParseData. cbv zeta.
  cbn [Size PaddingSize set_Data set_FooterMagic set_Checksum set_Padding].
  intros H.
  destruct (slice_to buf (Size n)) as [data |] eqn:E1; [| discriminate].
  cbn [mbind option_bind] in H.
  destruct (slice buf (Size n) (int32 (Size n + needleMagicSize))) as [fm |] eqn:E2;
    [| discriminate].
  cbn [mbind option_bind] in H.
  destruct (bytes_Equal fm needleFooterMagic) eqn:Efm; [| discriminate].
  apply bytes_Equal_true in Efm. subst fm. cbn [negb] in H.
  destruct (slice buf (int32 (Size n + needleMagicSize))
              (int32 (int32 (Size n + needleMagicSize) + needleChecksumSize)))
    as [cs0 |] eqn:E3; [| discriminate].
  cbn [mbind option_bind] in H.
  unfold BigEndian.Uint32, BigEndian.read in H.
  destruct (4 <=? length cs0)%nat eqn:E4; [| discriminate].
  cbn [mbind option_bind] in H.
  destruct (be_get (take 4 cs0) 0 =? crc32.Update 0 crc32Table data) eqn:E5;
    [| discriminate].
  clear H. apply Z.eqb_eq in E5. apply Nat.leb_le in E4.
  unfold slice_to in E1.
  apply slice_inv in E1 as (_ & A1 & A2 & A3 & A4).
  apply slice_inv in E2 as (_ & B1 & B2 & B3 & B4).
  apply slice_inv in E3 as (_ & C1 & C2 & C3 & C4).
  unfold needleMagicSize, needleChecksumSize in *.
  change (Z.of_nat (length needleFooterMagic)) with 4 in B3.
  assert (int32 (Size n + 4) = Size n + 4) as I1 by lia.
  rewrite I1 in *.
  assert (int32 (Size n + 4 + 4) = Size n + 8) as I2.
  { assert (Size n + 8 <= int32 (Size n + 4 + 4)) as Hge by lia.
    revert Hge. unfold int32. Z.div_mod_to_equations. lia. }
  rewrite I2 in *.
  assert (Size n + 8 < 2 ^ 31) as Hsmall.
  { pose proof (int32_range (Size n + 4 + 4)) as R. rewrite I2 in R.
    unfold is_int32 in R. lia. }
  assert (length cs0 = 4%nat) as Hcs by lia.
  rewrite take_ge in E5 by lia.
  change (Z.to_nat 0) with 0%nat in A4. rewrite take_0, app_nil_l in A4.
  exists data, cs0, (drop (Z.to_nat (Size n + 8)) buf).
  repeat split; try assumption; [| lia].
  assert (data = take (Z.to_nat (Size n)) buf) as Hdata.
  { rewrite A4 at 1. rewrite take_app_length'; [reflexivity | lia]. }
  assert (drop (Z.to_nat (Size n + 4)) buf = cs0 ++ drop (Z.to_nat (Size n + 8)) buf)
    as Hdrop.
  { rewrite C4 at 1. rewrite drop_app_length'; [reflexivity |].
    rewrite length_take. lia. }
  rewrite B4 at 1. rewrite <- Hdata, Hdrop. reflexivity.
Qed.

Lemma ParseData_bad_magic n (data fm rest : list Z) :
  Z.of_nat (length data) = Size n -> length fm = 4%nat -> Size n + 8 < 2 ^ 31 ->
  fm <> needleFooterMagic ->
  ParseData n (data ++ fm ++ rest) =
    Some (set_FooterMagic fm (set_Data data n), Some ErrNeedleFooterMagic).
Proof.
  intros Hd Hfm Hsmall Hne. unfold ParseData. cbv zeta.
  cbn [Size set_Data].
  rewrite (slice_to_app data) by lia. cbn [mbind option_bind].
  rewrite (int32_id (Size n + needleMagicSize)) by (unfold is_int32, needleMagicSize; lia).
  rewrite (slice_mid data fm _ (Size n) (Size n + needleMagicSize))
    by (unfold needleMagicSize; lia).
  cbn [mbind option_bind].
  apply bytes_Equal_false in Hne. rewrite Hne. reflexivity.
Qed.

Lemma ParseData_bad_checksum n (data cs rest : list Z) :
  Z.of_nat (length data) = Size n -> length cs = 4%nat -> Size n + 8 < 2 ^ 31 ->
  be_get cs 0 <> crc32.Update 0 crc32Table data ->
  ParseData n (data ++ needleFooterMagic ++ cs ++ rest) =
    Some (set_Checksum (be_get cs 0)
            (set_FooterMagic needleFooterMagic (set_Data data n)),
          Some ErrNeedleChecksum).
Proof.
  intros Hd Hcs Hsmall Hne. unfold ParseData. cbv zeta.
  cbn [Size set_Data set_FooterMagic].
  rewrite (slice_to_app data) by lia. cbn [mbind option_bind].
  rewrite (int32_id (Size n + needleMagicSize)) by (unfold is_int32, needleMagicSize; lia).
  rewrite (slice_mid data needleFooterMagic _ (Size n) (Size n + needleMagicSize)) by len.
  cbn [mbind option_bind].
  rewrite bytes_Equal_refl. cbn [negb].
  rewrite (int32_id (Size n + needleMagicSize + needleChecksumSize))
    by (unfold is_int32, needleMagicSize, needleChecksumSize; lia).
  rewrite (app_assoc data).
  rewrite (slice_mid (data ++ needleFooterMagic) cs _
             (Size n + needleMagicSize)
             (Size n + needleMagicSize + needleChecksumSize)) by len.
  cbn [mbind option_bind].
  unfold BigEndian.Uint32, BigEndian.read.
  rewrite Hcs. cbn [Nat.leb mbind option_bind].
  rewrite take_ge by lia.
  apply Z.eqb_neq in Hne. rewrite Hne. reflexivity.
Qed.

Lemma flip_byte b k : is_byte b -> 0 <= k < 8 ->
  is_byte (Z.lxor b (2 ^ k)) /\ Z.lxor b (2 ^ k) <> b.
Proof.
  intros Hb Hk. split.
  - apply (lxor_range 8); [lia | exact Hb |].
    split; [apply Z.pow_nonneg; lia | apply Z.pow_lt_mono_r; lia].
  - intros Heq. rewrite <- (Z.lxor_0_r b) in Heq at 2.
    apply lxor_cancel_l in Heq.
    pose proof (Z.pow_pos_nonneg 2 k ltac:(lia) ltac:(lia)). lia.
Qed.

Lemma alter_changes (f : Z -> Z) (l : list Z) i :
  (i < length l)%nat -> (forall x, l !! i = Some x -> f x <> x) -> alter f i l <> l.
Proof.
  intros Hi Hf Heq.
  destruct (lookup_lt_is_Some_2 l i Hi) as [x Hx].
  pose proof (list_lookup_alter_eq f l i) as Hl.
  rewrite Heq, Hx in Hl. simpl in Hl. injection Hl as Hl.
  apply (Hf x Hx). symmetry. exact Hl.
Qed.

Lemma be_get_put_uint32 v : is_uint32 v -> be_get (be_put 4 v) 0 = v.
Proof.
  intros Hv. rewrite be_get_put. change (256 ^ Z.of_nat 4) with (2 ^ 32).
  unfold is_uint32 in Hv. apply Z.mod_small. lia.
Qed.

(** A body of bytes that [ParseData] accepts is the body of a valid
    record; so is the body of the record that the writers produce,
    whatever the padding pattern, the 8 zero bytes of the padding 8
    included. *)
Lemma accepted_record_body n buf n' :
  Forall is_byte buf -> ParseData n buf = Some (n', None) -> record_body n buf.
Proof.
  intros Hbytes Hok.
  destruct (ParseData_inv n buf n' Hok) as (data & cs & rest & -> & Hd & Hcs & Hcrc & Hsmall).
  apply Forall_app in Hbytes as [Hdata Hbytes].
  apply Forall_app in Hbytes as [_ Hbytes].
  apply Forall_app in Hbytes as [Hcsb _].
  exists data, rest. split; [| split; [| split]]; try assumption.
  do 2 f_equal. f_equal.
  apply be_get_inj; [rewrite be_put_length; exact Hcs | exact Hcsb | apply be_put_bytes |].
  rewrite be_get_put_uint32 by apply Update_range. exact Hcrc.
Qed.

Lemma written_record_body n size key cookie data pattern :
  Z.of_nat (length data) = Size n -> Size n + 8 < 2 ^ 31 -> Forall is_byte data ->
  record_body n (drop 25 (needle_bytes size key cookie data pattern)).
Proof.
  intros Hd Hsmall Hbytes. exists data, pattern.
  split; [| split; [| split]]; try assumption.
  rewrite needle_bytes_split. apply drop_app_length'. len.
Qed.

(** C8: on the body of a valid needle record, with the header [n] of the
    record, changing any single byte of the data region makes [ParseData]
    return the checksum error, flipping any bit of the footer magic makes
    it return the footer magic error, and flipping any bit of the stored
    checksum makes it return the checksum error; no payload is returned.
    This holds for every padding, the padding 8 included. *)
Theorem ParseData_detects_corruption n buf :
  record_body n buf ->
  (forall i b, (i < Z.to_nat (Size n))%nat -> is_byte b -> buf !! i <> Some b ->
     exists m, ParseData n (<[i := b]> buf) = Some (m, Some ErrNeedleChecksum)) /\
  (forall j k, (Z.to_nat (Size n) <= j < Z.to_nat (Size n) + 4)%nat -> 0 <= k < 8 ->
     exists m, ParseData n (flip_bit buf j k) = Some (m, Some ErrNeedleFooterMagic)) /\
  (forall j k, (Z.to_nat (Size n) + 4 <= j < Z.to_nat (Size n) + 8)%nat -> 0 <= k < 8 ->
     exists m, ParseData n (flip_bit buf j k) = Some (m, Some ErrNeedleChecksum)).
Proof.
  intros (data & rest & -> & Hd & Hsmall & Hdata).
  set (cs := be_put 4 (crc32.Update 0 crc32Table data)).
  assert (length cs = 4%nat) as Hcs by apply be_put_length.
  assert (be_get cs 0 = crc32.Update 0 crc32Table data) as Hcrc
    by (apply be_get_put_uint32, Update_range).
  assert (Forall is_byte cs) as Hcsb by apply be_put_bytes.
  split; [| split].
  - intros i b Hi Hb Hne.
    assert (i < length data)%nat as Hi' by lia.
    rewrite insert_app_l by assumption.
    destruct (lookup_lt_is_Some_2 data i Hi') as [old Hold].
    rewrite lookup_app_l, Hold in Hne by assumption.
    assert (old <> b) as Hob by congruence.
    rewrite insert_take_drop by assumption.
    eexists. apply ParseData_bad_checksum; try assumption.
    + rewrite length_app, length_take. cbn [length]. rewrite length_drop. lia.
    + rewrite Hcrc.
      rewrite <- (take_drop_middle data i old Hold) at 1.
      apply Update_single_byte.
      * apply Forall_drop. assumption.
      * rewrite Forall_forall in Hdata. apply Hdata.
        apply list_elem_of_lookup. eauto.
      * assumption.
      * assumption.
  - intros j k Hj Hk. unfold flip_bit.
    rewrite alter_app_r_alt by lia.
    rewrite alter_app_l by (change (length needleFooterMagic) with 4%nat; lia).
    eexists. apply ParseData_bad_magic; try assumption.
    + rewrite length_alter. reflexivity.
    + apply alter_changes; [change (length needleFooterMagic) with 4%nat; lia |].
      intros x Hx. apply flip_byte; [| assumption].
      assert (Forall is_byte needleFooterMagic) as Hfm
        by (repeat constructor; unfold is_byte; lia).
      rewrite Forall_forall in Hfm. apply Hfm. apply list_elem_of_lookup. eauto.
  - intros j k Hj Hk. unfold flip_bit.
    rewrite alter_app_r_alt by lia.
    rewrite alter_app_r_alt by (change (length needleFooterMagic) with 4%nat; lia).
    rewrite alter_app_l by (change (length needleFooterMagic) with 4%nat; lia).
    set (j' := (j - length data - length needleFooterMagic)%nat).
    assert (j' < length cs)%nat as Hj'
      by (unfold j'; change (length needleFooterMagic) with 4%nat; lia).
    eexists. apply ParseData_bad_checksum; try assumption.
    + rewrite length_alter. assumption.
    + rewrite <- Hcrc. intros Heq.
      apply be_get_inj in Heq.
      * revert Heq. apply alter_changes; [assumption |].
        intros x Hx. apply flip_byte; [| assumption].
        rewrite Forall_forall in Hcsb. apply Hcsb. apply list_elem_of_lookup. eauto.
      * apply length_alter.
      * apply Forall_alter; [assumption |].
        intros x Hx Hbx. apply flip_byte; assumption.
      * assumption.
Qed.

(** ** The padding 8 *)

(** C1 at a data length of 7 bytes: [NeedleSize] accepts the length with
    the padding 8 and the record length 48, and [FillNeedle] with that
    padding panics on the padding table instead of filling the buffer,
    whatever the key, the cookie, the data and the buffer are. *)
Theorem FillNeedle_panics_at_length_7 :
  NeedleSize 7 = (8, 48, None) /\
  (forall key cookie data buf, FillNeedle 8 7 key cookie data buf = None) /\
  FillNeedle 8 7 7 42 [1; 2; 3; 4; 5; 6; 7] (repeat 0 48) = None.
Proof.
  split; [reflexivity | split].
  - intros. apply FillNeedle_padding8. lia.
  - apply FillNeedle_padding8. lia.
Qed.

(** C2 at the padding 8: the table [needlePadding] has the indices 0 to 7
    only, so for a data length of 7 bytes, where the sizing rule gives the
    padding 8, the access [needlePadding[8]] is out of bounds in
    [WriteNeedle], in [FillNeedle] and, on a well-formed record of that
    length, in [ParseData]. *)
Theorem needlePadding_index_8_out_of_bounds :
  let data := [1; 2; 3; 4; 5; 6; 7] in
  let record := needle_bytes 7 7 42 data (repeat 0 8) in
  NeedleSize 7 = (8, 48, None) /\
  length needlePadding = 8%nat /\
  needlePadding_at 8 = None /\
  WriteNeedle [] 8 7 7 42 data = None /\
  FillNeedle 8 7 7 42 data (repeat 0 48) = None /\
  exists n,
    ParseHeader emptyNeedle (take 25 record) = Some (n, None) /\
    PaddingSize n = 8 /\
    ParseData n (drop 25 record) = None.
Proof.
  cbv zeta. repeat split.
  eexists. split; [vm_compute; reflexivity | split; vm_compute; reflexivity].
Qed.

(** For the paddings 1 to 7 the table access is in bounds and the writers
    put exactly [padding] zero bytes after the checksum. *)
Lemma padding_written padding size key cookie data w :
  1 <= padding <= 7 ->
  needlePadding_at padding = Some (repeat 0 (Z.to_nat padding)) /\
  WriteNeedle w padding size key cookie data =
    Some (w ++ needle_bytes size key cookie data (repeat 0 (Z.to_nat padding)), None) /\
  (forall buf,
      length buf = (33 + length data + Z.to_nat padding)%nat ->
      FillNeedle padding size key cookie data buf =
        Some (needle_bytes size key cookie data (repeat 0 (Z.to_nat padding)))).
Proof.
  intros Hp.
  assert (needlePadding_at padding = Some (repeat 0 (Z.to_nat padding))) as Hpat
    by (apply needlePadding_at_Some; lia).
  split; [exact Hpat | split].
  - apply WriteNeedle_layout. exact Hpat.
  - intros buf Hlen. apply FillNeedle_layout; [exact Hpat |].
    rewrite repeat_length. exact Hlen.
Qed.

(** ** The needle cache *)

Lemma Value_size offset size :
  is_int32 size -> snd (Value (NewNeedleCache offset size)) = size.
Proof.
  intros Hs. unfold Value, NewNeedleCache, needleOffsetBit. cbn [snd].
  rewrite Z.shiftl_mul_pow2 by lia.
  unfold is_int32 in Hs. unfold int32, int64.
  Z.div_mod_to_equations. lia.
Qed.

Lemma Value_offset offset size :
  is_uint32 offset -> 0 <= size < 2 ^ 31 ->
  fst (Value (NewNeedleCache offset size)) = offset.
Proof.
  intros Ho Hs. unfold Value, NewNeedleCache, needleOffsetBit. cbn [fst].
  rewrite Z.shiftl_mul_pow2, Z.shiftr_div_pow2 by lia.
  unfold is_uint32 in Ho. unfold uint32, int64.
  Z.div_mod_to_equations. lia.
Qed.

Lemma Value_int32 c : is_int32 (snd (Value c)).
Proof. apply int32_range. Qed.

Lemma Value_tombstone size :
  0 <= size < 2 ^ 31 -> Value (NewNeedleCache NeedleCacheDelOffset size) = (0, size).
Proof.
  intros Hs. rewrite (surjective_pairing (Value _)).
  rewrite Value_offset, Value_size; unfold is_int32, is_uint32, NeedleCacheDelOffset;
    try lia. reflexivity.
Qed.

(** ** The volume *)

Section VolumeProperties.
Context {SB : Type} `{SuperBlockOps SB}.

Lemma asyncDel_needles (v : Volume SB) offset :
  needles (fst (asyncDel v offset)) = needles v.
Proof. unfold asyncDel. destruct (_ <? _); reflexivity. Qed.

Lemma asyncDel_room (v : Volume SB) offset :
  has_room v -> asyncDel v offset = (set_signal (signal v ++ [offset]) v, None).
Proof.
  unfold has_room, asyncDel. intros Hroom.
  destruct (Z.ltb_spec (Z.of_nat (length (signal v))) volumeDelChNum); [reflexivity | lia].
Qed.

Lemma asyncDel_full (v : Volume SB) offset :
  ~ has_room v -> asyncDel v offset = (v, Some ErrVolumeDel).
Proof.
  unfold has_room, asyncDel. intros Hfull.
  destruct (Z.ltb_spec (Z.of_nat (length (signal v))) volumeDelChNum); [lia | reflexivity].
Qed.

Lemma asyncDel_err (v : Volume SB) offset :
  snd (asyncDel v offset) = None \/ snd (asyncDel v offset) = Some ErrVolumeDel.
Proof. unfold asyncDel. destruct (_ <? _); auto. Qed.

(** What [Del] does to the cache. *)
Lemma Del_needles (v : Volume SB) key c :
  needles v !! key = Some c ->
  needles (fst (Del v key)) =
    <[key := NewNeedleCache NeedleCacheDelOffset (snd (Value c))]> (needles v).
Proof.
  intros Hc. unfold Del. rewrite Hc.
  destruct (Value c) as [offset size]. cbn [snd].
  rewrite asyncDel_needles.
  destruct (Compress _); reflexivity.
Qed.

Lemma Del_present_err (v : Volume SB) key c :
  needles v !! key = Some c ->
  snd (Del v key) = None \/ snd (Del v key) = Some ErrVolumeDel.
Proof.
  intros Hc. unfold Del. rewrite Hc.
  destruct (Value c) as [offset size]. apply asyncDel_err.
Qed.

Lemma Get_tombstone (v : Volume SB) key cookie buf c :
  needles v !! key = Some c -> tombstone c ->
  Get v key cookie buf = Some (v, ([], Some ErrNeedleDeleted)).
Proof.
  unfold tombstone. intros Hc Ht. unfold Get. rewrite Hc.
  destruct (Value c) as [offset size]. cbn [fst] in Ht. subst offset.
  reflexivity.
Qed.

(** C3, as amended: after [Del(k)] on a live key, [Get(k)] returns the
    Deleted error; a second [Del(k)] immediately after the first does not
    return the NoNeedle error: the key is still in the cache, as a
    tombstone, and the call returns nil when the delete queue has room
    and the VolumeDel error when the delete queue is full. *)
Theorem Del_then_Get_then_Del (v : Volume SB) key c :
  needles v !! key = Some c -> live c ->
  let v1 := fst (Del v key) in
  (forall cookie buf, Get v1 key cookie buf = Some (v1, ([], Some ErrNeedleDeleted))) /\
  snd (Del v1 key) <> Some ErrNoNeedle /\
  (snd (Del v1 key) = None \/ snd (Del v1 key) = Some ErrVolumeDel) /\
  (has_room v1 -> snd (Del v1 key) = None) /\
  (~ has_room v1 -> snd (Del v1 key) = Some ErrVolumeDel).
Proof.
  intros Hc [_ Hsize] v1.
  pose proof (Value_int32 c) as Hint. unfold is_int32 in Hint.
  assert (needles v1 !! key =
          Some (NewNeedleCache NeedleCacheDelOffset (snd (Value c)))) as Hv1.
  { unfold v1. rewrite (Del_needles v key c Hc). apply lookup_insert_eq. }
  assert (tombstone (NewNeedleCache NeedleCacheDelOffset (snd (Value c)))) as Ht.
  { unfold tombstone. rewrite Value_tombstone by lia. reflexivity. }
  split; [| split; [| split; [| split]]].
  - intros cookie buf. apply (Get_tombstone v1 key cookie buf _ Hv1 Ht).
  - destruct (Del_present_err v1 key _ Hv1) as [-> | ->]; discriminate.
  - apply (Del_present_err v1 key _ Hv1).
  - intros Hroom. unfold Del. rewrite Hv1.
    destruct (Value (NewNeedleCache _ _)) as [offset size]. cbv zeta.
    match goal with
    | |- snd (asyncDel ?w offset) = None =>
        rewrite (asyncDel_room w offset); [reflexivity |]
    end.
    destruct (Compress _); exact Hroom.
  - intros Hfull. unfold Del. rewrite Hv1.
    destruct (Value (NewNeedleCache _ _)) as [offset size]. cbv zeta.
    match goal with
    | |- snd (asyncDel ?w offset) = Some ErrVolumeDel =>
        rewrite (asyncDel_full w offset); [reflexivity |]
    end.
    destruct (Compress _); exact Hfull.
Qed.

(** [Del] on a key whose entry is already a tombstone returns nil when
    the queue has room, and posts the offset 0 to the delete queue. *)
Lemma Del_tombstone_posts_0 (v : Volume SB) key c :
  needles v !! key = Some c -> tombstone c -> has_room v ->
  snd (Del v key) = None /\
  signal (fst (Del v key)) = signal v ++ [volumeFinish].
Proof.
  unfold tombstone. intros Hc Ht Hroom. unfold Del. rewrite Hc.
  destruct (Value c) as [offset size]. cbn [fst] in Ht. subst offset. cbv zeta.
  match goal with
  | |- snd (asyncDel ?w _) = None /\ _ =>
      rewrite (asyncDel_room w); [| destruct (Compress _); exact Hroom]
  end.
  cbn [fst snd]. split; [reflexivity |].
  destruct (Compress _); reflexivity.
Qed.

(** The delete task after its return. *)
Lemma del_run_exited (t : DelTask) evs :
  dtExited t = true -> del_run t evs = t.
Proof.
  intros Hex. induction evs as [| ev evs IH]; [reflexivity |].
  unfold del_run in *. cbn [fold_left].
  unfold del_step at 2. rewrite Hex. exact IH.
Qed.

Lemma del_step_finish (t : DelTask) :
  dtExited (del_step t (Recv volumeFinish)) = true /\
  dtApplied (del_step t (Recv volumeFinish)) = dtApplied t /\
  dtBlock (del_step t (Recv volumeFinish)) = dtBlock t.
Proof.
  unfold del_step. destruct (dtExited t) eqn:Hex; [auto |].
  cbn. auto.
Qed.

(** C10: [Del] on a key whose entry is already a tombstone returns nil
    when the queue send succeeds and posts the offset 0 to the delete
    queue; the delete task takes a received offset 0 for the
    [volumeFinish] sentinel and returns, so that whatever is queued
    afterwards is never passed to [block.Del]. *)
Theorem Del_tombstone_stops_delete_task (v : Volume SB) key c :
  needles v !! key = Some c -> tombstone c -> has_room v ->
  (snd (Del v key) = None /\
   signal (fst (Del v key)) = signal v ++ [volumeFinish]) /\
  forall (t : DelTask) (before after : list DelEvent),
    let t' := del_run t (before ++ Recv volumeFinish :: after) in
    dtExited t' = true /\
    dtApplied t' = dtApplied (del_run t before) /\
    dtBlock t' = dtBlock (del_run t before).
Proof.
  intros Hc Ht Hroom. split; [apply (Del_tombstone_posts_0 v key c); assumption |].
  intros t before after t'. unfold t', del_run.
  rewrite fold_left_app. cbn [fold_left].
  fold (del_run t before).
  destruct (del_step_finish (del_run t before)) as (Hex & Happ & Hblk).
  fold (del_run (del_step (del_run t before) (Recv volumeFinish)) after).
  rewrite del_run_exited by exact Hex. auto.
Qed.

(** The errors of the parsers. *)
Lemma ParseHeader_errors n buf n' e :
  ParseHeader n buf = Some (n', Some e) ->
  e = ErrNeedleHeaderMagic \/ e = ErrNeedleFlag \/ e = ErrNeedleSize.
Proof.
  unfold ParseHeader. cbv zeta. intros Hp.
  repeat match type of Hp with
         | (?m ≫= _) = Some _ =>
             destruct m; cbn [mbind option_bind] in Hp; [| discriminate]
         | (if ?b then _ else _) = Some _ => destruct b
         end;
    inversion Hp; subst; auto.
Qed.

Lemma ParseData_errors n buf n' e :
  ParseData n buf = Some (n', Some e) ->
  e = ErrNeedleFooterMagic \/ e = ErrNeedleChecksum \/ e = ErrNeedlePadding.
Proof.
  unfold ParseData. cbv zeta. intros Hp.
  repeat match type of Hp with
         | (?m ≫= _) = Some _ =>
             destruct m; cbn [mbind option_bind] in Hp; [| discriminate]
         | (if ?b then _ else _) = Some _ => destruct b
         end;
    inversion Hp; subst; auto.
Qed.

(** [ParseData] returns as data the first [Size] bytes of the body. *)
Lemma ParseData_payload n buf n' :
  ParseData n buf = Some (n', None) ->
  Data n' = take (Z.to_nat (Size n)) buf /\
  Key n' = Key n /\ Cookie n' = Cookie n /\ Flag n' = Flag n.
Proof.
  unfold ParseData. cbv zeta. intros Hp.
  destruct (slice_to buf (Size n)) as [data |] eqn:E1;
    cbn [mbind option_bind] in Hp; [| discriminate].
  unfold slice_to in E1. apply slice_inv in E1 as (_ & A1 & A2 & A3 & A4).
  assert (data = take (Z.to_nat (Size n)) buf) as Hdata.
  { change (Z.to_nat 0) with 0%nat in A4. rewrite take_0, app_nil_l in A4.
    rewrite A4 at 1. rewrite take_app_length'; [reflexivity | lia]. }
  repeat match type of Hp with
         | (?m ≫= _) = Some _ =>
             destruct m; cbn [mbind option_bind] in Hp; [| discriminate]
         | (if ?b then _ else _) = Some _ => destruct b
         end;
    try discriminate.
  injection Hp as <-. cbn. auto.
Qed.

(** A read into [buf[:size]] that does not panic has a size that is not
    negative. *)
Lemma Get_read_size (v : Volume SB) c buf buf' :
  Get_read v c buf = Some buf' -> 0 <= snd (Value c).
Proof.
  unfold Get_read. intros Hread.
  destruct (slice_to buf (snd (Value c))) as [rb |] eqn:Hrb; [| discriminate].
  unfold slice_to in Hrb. apply slice_inv in Hrb. lia.
Qed.

Lemma Get_unfold (v : Volume SB) key cookie buf c buf' n :
  needles v !! key = Some c -> ~ tombstone c ->
  Get_read v c buf = Some buf' -> Get_parse buf' = Some (n, None) ->
  Get v key cookie buf =
    if negb (Key n =? key) then Some (v, ([], Some ErrNeedleKey))
    else if negb (Cookie n =? cookie) then Some (v, ([], Some ErrNeedleCookie))
    else if Flag n =? NeedleStatusDel
    then Some (set_needles
                 (<[key := NewNeedleCache NeedleCacheDelOffset (snd (Value c))]>
                    (needles v)) v,
               ([], Some ErrNeedleDeleted))
    else Some (v, (Data n, None)).
Proof.
  unfold tombstone, Get_read, Get_parse, Get. intros Hc Hlive Hread Hparse.
  rewrite Hc. destruct (Value c) as [offset size]. cbn [fst snd] in *.
  destruct (Z.eqb_spec offset NeedleCacheDelOffset) as [E | _]; [contradiction |].
  destruct (slice_to buf size) as [rb |]; cbn [mbind option_bind] in *;
    [| discriminate].
  destruct (block_Get (block v) offset (length rb)) as [bytes [e |]];
    [discriminate |].
  injection Hread as <-.
  destruct (slice_to _ NeedleHeaderSize) as [hb |]; cbn [mbind option_bind] in *;
    [| discriminate].
  destruct (ParseHeader emptyNeedle hb) as [[n1 [e |]] |];
    cbn [mbind option_bind] in *; try discriminate.
  destruct (slice_from _ NeedleHeaderSize) as [db |]; cbn [mbind option_bind] in *;
    [| discriminate].
  rewrite Hparse. cbn [mbind option_bind]. reflexivity.
Qed.

Lemma Get_present_not_NoNeedle (v : Volume SB) key cookie buf c v' d :
  needles v !! key = Some c ->
  Get v key cookie buf <> Some (v', (d, Some ErrNoNeedle)).
Proof.
  intros Hc Hget. unfold Get in Hget. rewrite Hc in Hget.
  destruct (Value c) as [offset size].
  destruct (offset =? NeedleCacheDelOffset); [discriminate |].
  destruct (slice_to buf size) as [rb |]; cbn [mbind option_bind] in Hget;
    [| discriminate].
  destruct (block_Get (block v) offset (length rb)) as [bytes [e |]];
    [discriminate |].
  destruct (slice_to _ NeedleHeaderSize) as [hb |]; cbn [mbind option_bind] in Hget;
    [| discriminate].
  destruct (ParseHeader emptyNeedle hb) as [[n1 [e |]] |] eqn:Eh;
    cbn [mbind option_bind] in Hget; try discriminate.
  { apply ParseHeader_errors in Eh. injection Hget as _ _ ->.
    destruct Eh as [? | [? | ?]]; discriminate. }
  destruct (slice_from _ NeedleHeaderSize) as [db |]; cbn [mbind option_bind] in Hget;
    [| discriminate].
  destruct (ParseData n1 db) as [[n2 [e |]] |] eqn:Ed;
    cbn [mbind option_bind] in Hget; try discriminate.
  { apply ParseData_errors in Ed. injection Hget as _ _ ->.
    destruct Ed as [? | [? | ?]]; discriminate. }
  repeat match type of Hget with
         | (if ?b then _ else _) = Some _ => destruct b
         end; discriminate.
Qed.

(** C6: [Get] returns the NoNeedle error exactly when the key is absent
    from the cache; it returns the Deleted error when the entry is a
    tombstone; after a successful read and parse it returns the Key
    error when the parsed key differs from the requested key, then the
    Cookie error when the parsed cookie differs; when the parsed flag is
    Deleted it overwrites the entry with a tombstone that keeps the size
    and returns the Deleted error; otherwise it returns the payload, the
    first [Size] bytes after the header in the buffer. *)
Theorem Get_spec (v : Volume SB) key cookie buf :
  (needles v !! key = None <->
   exists v' d, Get v key cookie buf = Some (v', (d, Some ErrNoNeedle))) /\
  (forall c, needles v !! key = Some c -> tombstone c ->
     Get v key cookie buf = Some (v, ([], Some ErrNeedleDeleted))) /\
  (forall c buf' n,
     needles v !! key = Some c -> ~ tombstone c ->
     Get_read v c buf = Some buf' -> Get_parse buf' = Some (n, None) ->
     (Key n <> key ->
      Get v key cookie buf = Some (v, ([], Some ErrNeedleKey))) /\
     (Key n = key -> Cookie n <> cookie ->
      Get v key cookie buf = Some (v, ([], Some ErrNeedleCookie))) /\
     (Key n = key -> Cookie n = cookie -> Flag n = NeedleStatusDel ->
      Get v key cookie buf =
        Some (set_needles
                (<[key := NewNeedleCache NeedleCacheDelOffset (snd (Value c))]>
                   (needles v)) v,
              ([], Some ErrNeedleDeleted)) /\
      tombstone (NewNeedleCache NeedleCacheDelOffset (snd (Value c))) /\
      snd (Value (NewNeedleCache NeedleCacheDelOffset (snd (Value c)))) =
        snd (Value c)) /\
     (Key n = key -> Cookie n = cookie -> Flag n <> NeedleStatusDel ->
      Get v key cookie buf = Some (v, (Data n, None)) /\
      Data n = take (Z.to_nat (Size n)) (drop (Z.to_nat NeedleHeaderSize) buf'))).
Proof.
  split; [| split].
  - split.
    + intros Hnone. exists v, []. unfold Get. rewrite Hnone. reflexivity.
    + intros (v' & d & Hget).
      destruct (needles v !! key) as [c |] eqn:Hc; [| reflexivity].
      exfalso. exact (Get_present_not_NoNeedle v key cookie buf c v' d Hc Hget).
  - intros c Hc Ht. exact (Get_tombstone v key cookie buf c Hc Ht).
  - intros c buf' n Hc Hlive Hread Hparse.
    rewrite (Get_unfold v key cookie buf c buf' n Hc Hlive Hread Hparse).
    split; [| split; [| split]].
    + intros Hk. apply Z.eqb_neq in Hk. rewrite Hk. reflexivity.
    + intros Hk Hck. apply Z.eqb_eq in Hk. apply Z.eqb_neq in Hck.
      rewrite Hk, Hck. reflexivity.
    + intros Hk Hck Hf. split; [| split; [| apply Value_size, Value_int32]].
      * apply Z.eqb_eq in Hk, Hck, Hf. rewrite Hk, Hck, Hf. reflexivity.
      * pose proof (Get_read_size v c buf buf' Hread) as Hsize.
        pose proof (Value_int32 c) as Hint. unfold is_int32 in Hint.
        unfold tombstone. rewrite Value_tombstone by lia. reflexivity.
    + intros Hk Hck Hf. apply Z.eqb_eq in Hk, Hck. apply Z.eqb_neq in Hf.
      rewrite Hk, Hck, Hf. split; [reflexivity |].
      unfold Get_parse in Hparse.
      destruct (slice_to buf' NeedleHeaderSize) as [hb |];
        cbn [mbind option_bind] in Hparse; [| discriminate].
      destruct (ParseHeader emptyNeedle hb) as [[n1 [e |]] |] eqn:Eh;
        cbn [mbind option_bind] in Hparse; try discriminate.
      destruct (slice_from buf' NeedleHeaderSize) as [db |] eqn:Edb;
        cbn [mbind option_bind] in Hparse; [| discriminate].
      destruct (ParseData_payload n1 db n Hparse) as (Hdata & _).
      rewrite Hdata. apply slice_from_eq in Edb. subst db.
      (* the size of the parsed needle is the size of the header *)
      f_equal. f_equal.
      clear - Hparse. unfold ParseData in Hparse. cbv zeta in Hparse.
      repeat match type of Hparse with
             | (?m ≫= _) = Some _ =>
                 destruct m; cbn [mbind option_bind] in Hparse; [| discriminate]
             | (if ?b then _ else _) = Some _ => destruct b
             end; try discriminate.
      injection Hparse as <-. reflexivity.
Qed.

End VolumeProperties.

(** ** The cache invariant *)

Section CacheInvariant.
Context {SB : Type} `{SuperBlockOps SB}.

Lemma replace_entry_needles (v : Volume SB) old key offset size :
  needles (fst (replace_entry v old key offset size)) =
    <[key := NewNeedleCache offset size]> (needles v).
Proof.
  unfold replace_entry. destruct old as [c |]; [| reflexivity].
  rewrite asyncDel_needles. reflexivity.
Qed.

Lemma insert_keeps (m : gmap Z Z) k key x :
  is_Some (m !! k) -> is_Some (<[key := x]> m !! k).
Proof.
  intros Hk. destruct (decide (key = k)) as [-> | Hne].
  - rewrite lookup_insert_eq. eauto.
  - rewrite lookup_insert_ne by assumption. exact Hk.
Qed.

(** The cache after [Get]: unchanged, or the entry of the key replaced
    by a tombstone of the same size, with the Deleted error. *)
Lemma Get_needles (v v' : Volume SB) key cookie buf d e :
  Get v key cookie buf = Some (v', (d, e)) ->
  needles v' = needles v \/
  exists c, needles v !! key = Some c /\ ~ tombstone c /\
    needles v' =
      <[key := NewNeedleCache NeedleCacheDelOffset (snd (Value c))]> (needles v) /\
    e = Some ErrNeedleDeleted.
Proof.
  unfold Get, tombstone. intros Hget.
  destruct (needles v !! key) as [c |] eqn:Hc; [| simplify_eq; left; reflexivity].
  destruct (Value c) as [offset size] eqn:Hv. cbn [fst snd].
  destruct (Z.eqb_spec offset NeedleCacheDelOffset) as [E | NE];
    [simplify_eq; left; reflexivity |].
  repeat match type of Hget with
         | (?m ≫= _) = Some _ =>
             destruct m; cbn [mbind option_bind] in Hget; [| discriminate]
         | (let '(_, _) := ?p in _) = Some _ => destruct p
         | match ?x with (_, _) => _ end = Some _ => destruct x
         | match ?x with Some _ => _ | None => _ end = Some _ => destruct x
         | (if ?b then _ else _) = Some _ => destruct b
         end;
    simplify_eq; try (left; reflexivity).
  right. exists c. rewrite Hv. cbn [fst snd]. auto.
Qed.

(** The cache after [Add] and [Write]: unchanged when the call fails
    before the update, the entry of the key set to the new offset and
    size otherwise. *)
Lemma Add_needles (v v' : Volume SB) key cookie data e :
  Add v key cookie data = Some (v', e) ->
  needles v' = needles v \/
  exists b offset size,
    block_Add (block v) key cookie data = Some (b, (offset, size, None)) /\
    needles v' = <[key := NewNeedleCache offset size]> (needles v).
Proof.
  unfold Add. intros Hadd.
  destruct (block_Add (block v) key cookie data) as [[b [[offset size] [e0 |]]] |];
    cbn [mbind option_bind] in Hadd; try discriminate.
  - simplify_eq. left. reflexivity.
  - destruct (Indexer_Add _ key offset size) as [i [e1 |]].
    + simplify_eq. left. reflexivity.
    + right. exists b, offset, size. split; [reflexivity |].
      injection Hadd as Hv'.
      apply (f_equal fst) in Hv'. cbn [fst] in Hv'.
      rewrite <- Hv', replace_entry_needles. reflexivity.
Qed.

Lemma Write_needles (v v' : Volume SB) key cookie data e :
  Write v key cookie data = Some (v', e) ->
  needles v' = needles v \/
  exists b offset size,
    block_Write (block v) key cookie data = Some (b, (offset, size, None)) /\
    needles v' = <[key := NewNeedleCache offset size]> (needles v).
Proof.
  unfold Write. intros Hw.
  destruct (block_Write (block v) key cookie data) as [[b [[offset size] [e0 |]]] |];
    cbn [mbind option_bind] in Hw; try discriminate.
  - simplify_eq. left. reflexivity.
  - unfold Indexer_Write in Hw.
    right. exists b, offset, size. split; [reflexivity |].
    injection Hw as Hv'.
    apply (f_equal fst) in Hv'. cbn [fst] in Hv'.
    rewrite <- Hv', replace_entry_needles. reflexivity.
Qed.

Lemma Del_absent (v : Volume SB) key :
  needles v !! key = None -> Del v key = (v, Some ErrNoNeedle).
Proof. intros Hnone. unfold Del. rewrite Hnone. reflexivity. Qed.

(** No operation removes a key from the cache. *)
Lemma keys_kept (v : Volume SB) k :
  is_Some (needles v !! k) ->
  (forall key cookie buf v' r,
      Get v key cookie buf = Some (v', r) -> is_Some (needles v' !! k)) /\
  (forall key cookie data v' e,
      Add v key cookie data = Some (v', e) -> is_Some (needles v' !! k)) /\
  (forall key cookie data v' e,
      Write v key cookie data = Some (v', e) -> is_Some (needles v' !! k)) /\
  (forall key, is_Some (needles (fst (Del v key)) !! k)).
Proof.
  intros Hk. split; [| split; [| split]].
  - intros key cookie buf v' [d e] Hget.
    destruct (Get_needles v v' key cookie buf d e Hget) as [-> | (c & _ & _ & -> & _)];
      [exact Hk | apply insert_keeps, Hk].
  - intros key cookie data v' e Hadd.
    destruct (Add_needles v v' key cookie data e Hadd) as [-> | (b & o & s & _ & ->)];
      [exact Hk | apply insert_keeps, Hk].
  - intros key cookie data v' e Hw.
    destruct (Write_needles v v' key cookie data e Hw) as [-> | (b & o & s & _ & ->)];
      [exact Hk | apply insert_keeps, Hk].
  - intros key. destruct (needles v !! key) as [c |] eqn:Hc.
    + rewrite (Del_needles v key c Hc). apply insert_keeps, Hk.
    + rewrite (Del_absent v key Hc). exact Hk.
Qed.

(** What [Add] and [Write] do to the delete queue when they replace the
    entry [c] of a key. *)
Lemma replace_entry_signal (v : Volume SB) c key offset size :
  let r := replace_entry v (Some c) key offset size in
  (has_room v ->
   signal (fst r) = signal v ++ [fst (Value c)] /\ snd r = None) /\
  (~ has_room v -> signal (fst r) = signal v /\ snd r = Some ErrVolumeDel).
Proof.
  unfold replace_entry. cbv zeta. split; intros Hroom.
  - rewrite asyncDel_room by exact Hroom. auto.
  - rewrite asyncDel_full by exact Hroom. auto.
Qed.

Lemma Add_replaces (v : Volume SB) key cookie data c b offset size i :
  needles v !! key = Some c ->
  block_Add (block v) key cookie data = Some (b, (offset, size, None)) ->
  Indexer_Add (indexer v) key offset size = (i, None) ->
  Add v key cookie data =
    Some (replace_entry (set_indexer i (set_block b v)) (Some c) key offset size).
Proof.
  intros Hc Hb Hi. unfold Add. rewrite Hb. cbn [mbind option_bind].
  cbn [indexer set_block]. rewrite Hi, Hc. reflexivity.
Qed.

Lemma Write_replaces (v : Volume SB) key cookie data c b offset size :
  needles v !! key = Some c ->
  block_Write (block v) key cookie data = Some (b, (offset, size, None)) ->
  Write v key cookie data =
    Some (replace_entry
            (set_indexer (fst (Indexer_Write (indexer v) key offset size))
               (set_block b v))
            (Some c) key offset size).
Proof.
  intros Hc Hb. unfold Write. rewrite Hb. cbn [mbind option_bind].
  rewrite Hc. reflexivity.
Qed.

(** C7, as amended: no operation ([Add], [Write], [Del], [Get]) removes
    a key from the needle cache; when [Del], or [Get] finding the
    Deleted flag on disk, tombstones a key whose entry was
    packed(offset, size), the new entry is packed(0, size) with the size
    field preserved; when [Add] or [Write] replaces an existing key the
    entry becomes the new packed(offset, size), and the old offset is
    posted to the delete queue when the queue has room; when the queue
    is full the old offset is not queued and the call returns the
    VolumeDel error. *)
Theorem cache_invariant (v : Volume SB) :
  (forall k, is_Some (needles v !! k) ->
     (forall key cookie buf v' r,
         Get v key cookie buf = Some (v', r) -> is_Some (needles v' !! k)) /\
     (forall key cookie data v' e,
         Add v key cookie data = Some (v', e) -> is_Some (needles v' !! k)) /\
     (forall key cookie data v' e,
         Write v key cookie data = Some (v', e) -> is_Some (needles v' !! k)) /\
     (forall key, is_Some (needles (fst (Del v key)) !! k))) /\
  (forall key c, needles v !! key = Some c ->
     needles (fst (Del v key)) !! key =
       Some (NewNeedleCache NeedleCacheDelOffset (snd (Value c))) /\
     snd (Value (NewNeedleCache NeedleCacheDelOffset (snd (Value c)))) =
       snd (Value c)) /\
  (forall key cookie buf v' d e,
     Get v key cookie buf = Some (v', (d, e)) -> needles v' <> needles v ->
     exists c, needles v !! key = Some c /\
       needles v' !! key =
         Some (NewNeedleCache NeedleCacheDelOffset (snd (Value c))) /\
       snd (Value (NewNeedleCache NeedleCacheDelOffset (snd (Value c)))) =
         snd (Value c)) /\
  (forall key cookie data c b offset size i,
     needles v !! key = Some c ->
     block_Add (block v) key cookie data = Some (b, (offset, size, None)) ->
     Indexer_Add (indexer v) key offset size = (i, None) ->
     exists v' e, Add v key cookie data = Some (v', e) /\
       needles v' !! key = Some (NewNeedleCache offset size) /\
       (has_room v -> signal v' = signal v ++ [fst (Value c)] /\ e = None) /\
       (~ has_room v -> signal v' = signal v /\ e = Some ErrVolumeDel)) /\
  (forall key cookie data c b offset size,
     needles v !! key = Some c ->
     block_Write (block v) key cookie data = Some (b, (offset, size, None)) ->
     exists v' e, Write v key cookie data = Some (v', e) /\
       needles v' !! key = Some (NewNeedleCache offset size) /\
       (has_room v -> signal v' = signal v ++ [fst (Value c)] /\ e = None) /\
       (~ has_room v -> signal v' = signal v /\ e = Some ErrVolumeDel)).
Proof.
  split; [| split; [| split; [| split]]].
  - intros k Hk. exact (keys_kept v k Hk).
  - intros key c Hc. split; [| apply Value_size, Value_int32].
    rewrite (Del_needles v key c Hc). apply lookup_insert_eq.
  - intros key cookie buf v' d e Hget Hne.
    destruct (Get_needles v v' key cookie buf d e Hget)
      as [Heq | (c & Hc & _ & -> & _)]; [contradiction |].
    exists c. split; [exact Hc | split; [apply lookup_insert_eq |]].
    apply Value_size, Value_int32.
  - intros key cookie data c b offset size i Hc Hb Hi.
    rewrite (Add_replaces v key cookie data c b offset size i Hc Hb Hi).
    set (w := set_indexer i (set_block b v)).
    exists (fst (replace_entry w (Some c) key offset size)),
           (snd (replace_entry w (Some c) key offset size)).
    split; [rewrite <- surjective_pairing; reflexivity |].
    split; [rewrite replace_entry_needles; apply lookup_insert_eq |].
    exact (replace_entry_signal w c key offset size).
  - intros key cookie data c b offset size Hc Hb.
    rewrite (Write_replaces v key cookie data c b offset size Hc Hb).
    set (w := set_indexer _ (set_block b v)).
    exists (fst (replace_entry w (Some c) key offset size)),
           (snd (replace_entry w (Some c) key offset size)).
    split; [rewrite <- surjective_pairing; reflexivity |].
    split; [rewrite replace_entry_needles; apply lookup_insert_eq |].
    exact (replace_entry_signal w c key offset size).
Qed.

End CacheInvariant.

(** ** Recovery from the index file *)

Lemma index_bytes_length ix : length (index_bytes ix) = 16%nat.
Proof. unfold index_bytes, writeIndex. len. Qed.

Lemma parse_written ix rest :
  valid_index ix -> parse (index_bytes ix ++ rest) = Some ix.
Proof.
  intros (Hk & Ho & Hs). unfold NeedleMaxSize in Hs.
  unfold parse, index_bytes, writeIndex. cbn [app].
  rewrite <- !app_assoc.
  rewrite Int64_put by assumption. cbn [mbind option_bind].
  rewrite (slice_from_app (be_put 8 (ixKey ix)) _ indexOffsetOffset)
    by (rewrite be_put_length; reflexivity).
  cbn [mbind option_bind].
  rewrite Uint32_put by assumption. cbn [mbind option_bind].
  rewrite (app_assoc (be_put 8 (ixKey ix))).
  rewrite (slice_from_app (be_put 8 (ixKey ix) ++ be_put 4 (ixOffset ix)) _
             indexSizeOffset)
    by (rewrite length_app, !be_put_length; reflexivity).
  cbn [mbind option_bind].
  rewrite Int32_put by (unfold is_int32; lia). cbn [mbind option_bind].
  destruct ix. reflexivity.
Qed.

Lemma parse_written_exact ix : valid_index ix -> parse (index_bytes ix) = Some ix.
Proof.
  intros Hix. pose proof (parse_written ix [] Hix) as Hp.
  rewrite app_nil_r in Hp. exact Hp.
Qed.

Lemma NeedleOffset_size size :
  1 <= size <= NeedleMaxSize -> NeedleOffset size = size / 8.
Proof.
  unfold NeedleMaxSize, NeedleOffset, NeedlePaddingSize. intros Hs.
  rewrite Z.quot_div_nonneg by lia.
  apply uint32_id. unfold is_uint32.
  split; [apply Z.div_pos; lia | apply Z.div_lt_upper_bound; lia].
Qed.

Lemma Recovery_loop_records recs :
  forall fuel tail offset needles noffset,
    Forall valid_index recs -> (length recs < fuel)%nat ->
    0 <= offset -> offset + 16 * Z.of_nat (length recs) < 2 ^ 63 ->
    short_tail tail \/ bad_tail tail ->
    exists eof,
      Recovery_loop fuel (concat (map index_bytes recs) ++ tail) offset needles noffset =
        Some (eof, offset + 16 * Z.of_nat (length recs),
              insert_records needles recs,
              fold_left (fun _ ix => uint32 (ixOffset ix + ixSize ix / 8)) recs noffset)
      /\ (short_tail tail -> eof = true).
Proof.
  induction recs as [| ix recs IH];
    intros fuel tail offset needles noffset Hvalid Hfuel Hoff Hmax Htail.
  - destruct fuel as [| fuel]; [simpl in Hfuel; lia |].
    cbn [map concat app length fold_left insert_records Recovery_loop].
    replace (offset + 16 * Z.of_nat 0) with offset by lia.
    change (Z.to_nat indexSize) with 16%nat.
    destruct Htail as [Hshort | (Hlen & bad & Hparse & Hbad)].
    + unfold short_tail in Hshort.
      destruct (Nat.ltb_spec (length tail) 16); [| lia].
      exists true. auto.
    + destruct (Nat.ltb_spec (length tail) 16); [lia |].
      rewrite Hparse. cbn [mbind option_bind].
      assert ((NeedleMaxSize <? ixSize bad) || (ixSize bad <? 1) = true) as ->
        by (apply orb_true_iff; rewrite !Z.ltb_lt; exact Hbad).
      exists false. split; [reflexivity |].
      unfold short_tail. lia.
  - inversion Hvalid as [| ? ? Hix Hrecs]; subst.
    destruct fuel as [| fuel]; [simpl in Hfuel; lia |].
    cbn [length] in Hfuel, Hmax.
    cbn [map concat]. rewrite <- app_assoc.
    cbn [Recovery_loop]. change (Z.to_nat indexSize) with 16%nat.
    destruct (Nat.ltb_spec (length (index_bytes ix ++ concat (map index_bytes recs) ++ tail))
                16) as [Hlt | _];
      [rewrite length_app, index_bytes_length in Hlt; lia |].
    rewrite <- (index_bytes_length ix). rewrite take_app_length, drop_app_length.
    rewrite parse_written_exact by assumption. cbn [mbind option_bind].
    destruct Hix as (Hk & Ho & Hs).
    assert ((NeedleMaxSize <? ixSize ix) || (ixSize ix <? 1) = false) as ->
      by (apply orb_false_iff; rewrite !Z.ltb_ge; lia).
    unfold indexSize, indexKeySize, indexOffsetSize, indexSizeSize.
    rewrite (int64_id (offset + (8 + 4 + 4))) by (unfold is_int64; lia).
    rewrite NeedleOffset_size by assumption.
    destruct (IH fuel tail (offset + (8 + 4 + 4))
                (<[ixKey ix := NewNeedleCache (ixOffset ix) (ixSize ix)]> needles)
                (uint32 (ixOffset ix + ixSize ix / 8)) Hrecs ltac:(lia) ltac:(lia)
                ltac:(lia) Htail) as (eof & Hloop & Heof).
    exists eof. split; [| exact Heof].
    rewrite Hloop. cbn [insert_records fold_left length].
    replace (offset + 16 * Z.of_nat (S (length recs)))
      with (offset + (8 + 4 + 4) + 16 * Z.of_nat (length recs)) by lia.
    reflexivity.
Qed.

Lemma fold_left_last {A B} (f : B -> A) (l : list B) (a : A) :
  fold_left (fun _ x => f x) l a = match last l with Some x => f x | None => a end.
Proof.
  induction l as [| x l IH] using rev_ind; [reflexivity |].
  rewrite fold_left_app, last_snoc. reflexivity.
Qed.

(** C9, as amended: [Indexer.Recovery] scans the index file from offset 0
    in records of 16 bytes, accepts a record when its size field is in
    [1, 5 MiB], and stops at the first record that is not accepted or at
    the end of the file; it inserts each record before that point in the
    cache as packed(offset, size), a later record of a key overwriting an
    earlier one; it returns nil and, for the last such record, its offset
    plus the floor of its size divided by 8, modulo 2^32 (0 when there is
    none); when the scan ends at the end of the file, the file is left at
    the offset after the last such record. *)
Theorem Recovery_spec (recs : list Index) (tail : list Z) (needles : gmap Z Z) :
  let file := concat (map index_bytes recs) ++ tail in
  Forall valid_index recs ->
  Z.of_nat (length file) < 2 ^ 63 ->
  short_tail tail \/ bad_tail tail ->
  exists r,
    Recovery file needles = Some r /\
    rNeedles r = insert_records needles recs /\
    rNoffset r =
      match last recs with
      | Some ix => uint32 (ixOffset ix + ixSize ix / 8)
      | None => 0
      end /\
    rErr r = None /\
    (short_tail tail -> rSeek r = Some (16 * Z.of_nat (length recs))).
Proof.
  intros file Hvalid Hlen Htail.
  assert (length file = (16 * length recs + length tail)%nat) as Hfile.
  { unfold file. rewrite length_app. f_equal.
    clear. induction recs as [| ix recs IH]; [reflexivity |].
    cbn [map concat length]. rewrite length_app, index_bytes_length, IH. lia. }
  destruct (Recovery_loop_records recs (S (length file)) tail 0 needles 0 Hvalid
              ltac:(lia) ltac:(lia) ltac:(lia) Htail) as (eof & Hloop & Heof).
  unfold Recovery. subst file. rewrite Hloop.
  rewrite fold_left_last. rewrite Z.add_0_l.
  destruct eof; eexists; (split; [reflexivity |]); cbn [rNeedles rNoffset rErr rSeek];
    repeat split; auto.
  intros Hshort. specialize (Heof Hshort). discriminate.
Qed.

(** ** The properties on the example states *)

Lemma ParseData_detects_corruption_witness :
  record_body ex_header ex_body /\
  (exists m, ParseData ex_header (<[1%nat := 9]> ex_body) =
               Some (m, Some ErrNeedleChecksum)) /\
  (exists m, ParseData ex_header (flip_bit ex_body 4 7) =
               Some (m, Some ErrNeedleFooterMagic)) /\
  (exists m, ParseData ex_header (flip_bit ex_body 10 0) =
               Some (m, Some ErrNeedleChecksum)) /\
  record_body ex_header8 ex_body8 /\
  (exists m, ParseData ex_header8 (<[6%nat := 9]> ex_body8) =
               Some (m, Some ErrNeedleChecksum)) /\
  (exists m, ParseData ex_header8 (flip_bit ex_body8 7 0) =
               Some (m, Some ErrNeedleFooterMagic)) /\
  (exists m, ParseData ex_header8 (flip_bit ex_body8 14 3) =
               Some (m, Some ErrNeedleChecksum)).
Proof.
  assert (record_body ex_header ex_body) as Hbody.
  { exists ex_data, [0; 0; 0; 0]. split; [reflexivity | split; [reflexivity | split]].
    - simpl. lia.
    - repeat constructor; unfold is_byte; lia. }
  assert (record_body ex_header8 ex_body8) as Hbody8.
  { exists ex_data8, (repeat 0 8). split; [reflexivity | split; [reflexivity | split]].
    - simpl. lia.
    - repeat constructor; unfold is_byte; lia. }
  destruct (ParseData_detects_corruption ex_header ex_body Hbody) as (Hdata & Hmagic & Hsum).
  destruct (ParseData_detects_corruption ex_header8 ex_body8 Hbody8)
    as (Hdata8 & Hmagic8 & Hsum8).
  split; [exact Hbody | split; [| split; [| split; [| split; [exact Hbody8 |
    split; [| split]]]]]].
  - apply Hdata; [vm_compute; lia | unfold is_byte; lia | vm_compute; discriminate].
  - apply Hmagic; [vm_compute; lia | lia].
  - apply Hsum; [vm_compute; lia | lia].
  - apply Hdata8; [vm_compute; lia | unfold is_byte; lia | vm_compute; discriminate].
  - apply Hmagic8; [vm_compute; lia | lia].
  - apply Hsum8; [vm_compute; lia | lia].
Defined.

Lemma Del_then_Get_then_Del_witness :
  needles ex_volume !! 7 = Some (NewNeedleCache 1 40) /\
  Get (fst (Del ex_volume 7)) 7 42 (repeat 0 64) =
    Some (fst (Del ex_volume 7), ([], Some ErrNeedleDeleted)) /\
  snd (Del (fst (Del ex_volume 7)) 7) = None.
Proof.
  assert (needles ex_volume !! 7 = Some (NewNeedleCache 1 40)) as Hc
    by (vm_compute; reflexivity).
  assert (live (NewNeedleCache 1 40)) as Hlive
    by (split; [vm_compute; discriminate | vm_compute; reflexivity]).
  destruct (Del_then_Get_then_Del ex_volume 7 _ Hc Hlive) as (Hget & _ & _ & Hdel & _).
  split; [exact Hc | split].
  - apply Hget.
  - apply Hdel. unfold has_room. vm_compute. reflexivity.
Defined.

(** C3, as stated, fails: on the example volume the second [Del] of the
    live key 7 returns nil, not the NoNeedle error. *)
Lemma Del_twice_returns_nil :
  needles ex_volume !! 7 = Some (NewNeedleCache 1 40) /\
  live (NewNeedleCache 1 40) /\
  snd (Del (fst (Del ex_volume 7)) 7) = None /\
  snd (Del (fst (Del ex_volume 7)) 7) <> Some ErrNoNeedle.
Proof.
  split; [vm_compute; reflexivity | split; [| split]].
  - split; [vm_compute; discriminate | vm_compute; reflexivity].
  - vm_compute. reflexivity.
  - vm_compute. discriminate.
Qed.

Lemma Get_spec_witness :
  needles ex_volume !! 7 = Some (NewNeedleCache 1 40) /\
  Get ex_volume 7 42 (repeat 0 64) = Some (ex_volume, (ex_data, None)) /\
  Get ex_volume 7 43 (repeat 0 64) = Some (ex_volume, ([], Some ErrNeedleCookie)) /\
  Get ex_deleted_volume 7 42 (repeat 0 64) =
    Some (ex_deleted_volume, ([], Some ErrNeedleDeleted)) /\
  exists v' d, Get ex_volume 8 42 (repeat 0 64) = Some (v', (d, Some ErrNoNeedle)).
Proof.
  assert (needles ex_volume !! 7 = Some (NewNeedleCache 1 40)) as Hc
    by (vm_compute; reflexivity).
  assert (~ tombstone (NewNeedleCache 1 40)) as Hlive
    by (unfold tombstone; vm_compute; discriminate).
  split; [exact Hc | split; [| split; [| split]]].
  - destruct (Get_spec ex_volume 7 42 (repeat 0 64)) as (_ & _ & Hparsed).
    destruct (Hparsed _ _ _ Hc Hlive ltac:(vm_compute; reflexivity)
                ltac:(vm_compute; reflexivity)) as (_ & _ & _ & Hdata).
    apply Hdata; [reflexivity | reflexivity | vm_compute; discriminate].
  - destruct (Get_spec ex_volume 7 43 (repeat 0 64)) as (_ & _ & Hparsed).
    destruct (Hparsed _ _ _ Hc Hlive ltac:(vm_compute; reflexivity)
                ltac:(vm_compute; reflexivity)) as (_ & Hcookie & _).
    apply Hcookie; [reflexivity | vm_compute; discriminate].
  - destruct (Get_spec ex_deleted_volume 7 42 (repeat 0 64)) as (_ & Htomb & _).
    apply (Htomb (NewNeedleCache 0 40)); vm_compute; reflexivity.
  - destruct (Get_spec ex_volume 8 42 (repeat 0 64)) as (Habsent & _).
    apply Habsent. vm_compute. reflexivity.
Defined.

Lemma cache_invariant_witness :
  needles ex_volume !! 7 = Some (NewNeedleCache 1 40) /\
  exists v' e,
    Add ex_volume 7 42 [1; 2; 3] = Some (v', e) /\
    needles v' !! 7 = Some (NewNeedleCache 6 40) /\
    signal v' = [1] /\ e = None.
Proof.
  assert (needles ex_volume !! 7 = Some (NewNeedleCache 1 40)) as Hc
    by (vm_compute; reflexivity).
  split; [exact Hc |].
  destruct (cache_invariant ex_volume) as (_ & _ & _ & Hadd & _).
  destruct (Hadd 7 42 [1; 2; 3] _ _ 6 40 _ Hc ltac:(vm_compute; reflexivity)
              ltac:(vm_compute; reflexivity))
    as (v' & e & Hres & Hentry & Hroom & _).
  exists v', e. split; [exact Hres | split; [exact Hentry |]].
  apply Hroom. unfold has_room. vm_compute. reflexivity.
Defined.

(** C7, as stated, fails: on the example volume with a full delete queue
    [Add] replaces the entry of key 7, whose old offset was 1, returns the
    VolumeDel error and leaves the queue as it was, without the offset
    1. *)
Lemma Add_full_queue_drops_old_offset :
  needles ex_full_volume !! 7 = Some (NewNeedleCache 1 40) /\
  fst (Value (NewNeedleCache 1 40)) = 1 /\
  exists v',
    Add ex_full_volume 7 42 [1; 2; 3] = Some (v', Some ErrVolumeDel) /\
    needles v' !! 7 = Some (NewNeedleCache 6 40) /\
    signal v' = signal ex_full_volume /\
    1 ∉ signal v'.
Proof.
  split; [vm_compute; reflexivity | split; [vm_compute; reflexivity |]].
  eexists. split; [vm_compute; reflexivity |].
  split; [vm_compute; reflexivity | split; [reflexivity |]].
  apply (bool_decide_unpack _). vm_compute. reflexivity.
Qed.

Lemma Recovery_spec_witness :
  Forall valid_index ex_records /\
  exists r,
    Recovery ex_index_file ∅ = Some r /\
    rNeedles r = <[2 := NewNeedleCache 1 40]> (<[1 := NewNeedleCache 100 40]> ∅) /\
    rNoffset r = 6 /\ rErr r = None /\ rSeek r = Some 32.
Proof.
  assert (Forall valid_index ex_records) as Hvalid.
  { repeat constructor; unfold is_int64, is_uint32, NeedleMaxSize; simpl; lia. }
  split; [exact Hvalid |].
  destruct (Recovery_spec ex_records [1; 2; 3] ∅ Hvalid ltac:(vm_compute; reflexivity)
              ltac:(left; unfold short_tail; simpl; lia))
    as (r & Hrec & Hneedles & Hnoffset & Herr & Hseek).
  exists r. split; [exact Hrec | split; [| split; [| split]]].
  - rewrite Hneedles. reflexivity.
  - rewrite Hnoffset. reflexivity.
  - exact Herr.
  - apply Hseek. unfold short_tail. simpl. lia.
Defined.

(** C9, as stated, fails: on the example index file the returned offset is
    that of the last record, 1 + 40 / 8 = 6 blocks, while the largest of
    the offsets worded by the specification is 100 + ceil(73 / 8) = 110
    blocks. *)
Lemma Recovery_returns_last_record :
  Forall valid_index ex_records /\
  spec_resume ex_records = 110 /\
  exists r, Recovery ex_index_file ∅ = Some r /\ rNoffset r = 6 /\
            rNoffset r <> spec_resume ex_records.
Proof.
  split; [| split; [vm_compute; reflexivity |]].
  - repeat constructor; unfold is_int64, is_uint32, NeedleMaxSize; simpl; lia.
  - eexists. split; [vm_compute; reflexivity |].
    split; [reflexivity | vm_compute; discriminate].
Qed.

Lemma Del_tombstone_stops_delete_task_witness :
  needles ex_deleted_volume !! 7 = Some (NewNeedleCache 0 40) /\
  snd (Del ex_deleted_volume 7) = None /\
  signal (fst (Del ex_deleted_volume 7)) = [0] /\
  dtApplied (del_run (mkDelTask ex_block [] false [])
                     [Recv 3; Recv 0; Recv 1; Tick]) = [].
Proof.
  assert (needles ex_deleted_volume !! 7 = Some (NewNeedleCache 0 40)) as Hc
    by (vm_compute; reflexivity).
  destruct (Del_tombstone_stops_delete_task ex_deleted_volume 7 _ Hc
              ltac:(unfold tombstone; vm_compute; reflexivity)
              ltac:(unfold has_room; vm_compute; reflexivity))
    as ((Herr & Hsig) & Htask).
  split; [exact Hc | split; [exact Herr | split; [exact Hsig |]]].
  destruct (Htask (mkDelTask ex_block [] false []) [Recv 3] [Recv 1; Tick])
    as (_ & Happlied & _).
  exact Happlied.
Defined.

(** * Further properties of the needle codec *)

(** X1: packing and unpacking a cache entry.  For a 32-bit offset and a
    size that is not negative, [Value] gives back the offset and the size
    that [NewNeedleCache] packed; for a negative size the size comes back
    but the offset field reads one less (modulo 2^32), the sign of the
    size having been carried into the high word. *)
Theorem NeedleCache_roundtrip offset size :
  is_uint32 offset -> is_int32 size ->
  Value (NewNeedleCache offset size) =
    (if size <? 0 then uint32 (offset - 1) else offset, size).
Proof.
  intros Ho Hs.
  rewrite (surjective_pairing (Value _)), Value_size by assumption.
  f_equal.
  unfold Value, NewNeedleCache, needleOffsetBit. cbn [fst].
  rewrite Z.shiftl_mul_pow2, Z.shiftr_div_pow2 by lia.
  unfold is_uint32 in Ho. unfold is_int32 in Hs.
  destruct (Z.ltb_spec size 0); unfold uint32, int64;
    Z.div_mod_to_equations; lia.
Qed.

Lemma NeedleCache_roundtrip_witness :
  Value (NewNeedleCache 7 40) = (7, 40) /\
  Value (NewNeedleCache 7 (-1)) = (6, -1).
Proof.
  split.
  - apply (NeedleCache_roundtrip 7 40); [unfold is_uint32 | unfold is_int32]; lia.
  - apply (NeedleCache_roundtrip 7 (-1)); [unfold is_uint32 | unfold is_int32]; lia.
Defined.

Lemma padded_length_aligned x : 0 <= x -> (x + (8 - x mod 8)) mod 8 = 0.
Proof.
  intros Hx. pose proof (Z.div_mod x 8 ltac:(lia)) as Hdm.
  replace (x + (8 - x mod 8)) with ((x / 8 + 1) * 8) by lia.
  apply Z.mod_mul. lia.
Qed.

(** X2: the record length that [NeedleSize] returns is the least multiple
    of 8 strictly above header + data + footer, and the padding is the
    difference; so a record is aligned to 8 bytes and never without
    padding. *)
Theorem NeedleSize_aligned d :
  1 <= d <= 2 ^ 31 - 42 ->
  let padding := fst (fst (NeedleSize d)) in
  let size := snd (fst (NeedleSize d)) in
  size mod 8 = 0 /\
  NeedleHeaderSize + d + NeedleFooterSize < size <= NeedleHeaderSize + d + NeedleFooterSize + 8 /\
  padding = size - (NeedleHeaderSize + d + NeedleFooterSize).
Proof.
  intros Hd. cbv zeta.
  destruct (NeedleSize_spec d Hd) as [-> Hp]. cbn [fst snd].
  change NeedleHeaderSize with 25. change NeedleFooterSize with 8.
  repeat split; try lia.
  apply padded_length_aligned. lia.
Qed.

Lemma NeedleSize_aligned_witness :
  snd (fst (NeedleSize 7)) mod 8 = 0 /\ fst (fst (NeedleSize 7)) = 8.
Proof.
  destruct (NeedleSize_aligned 7 ltac:(lia)) as (Hmod & _ & _).
  split; [exact Hmod | reflexivity].
Defined.

(** X3: a header that [ParseHeader] accepts has the header magic, a flag
    that is OK or Deleted and a size in [1, 5 MiB]; its padding and data
    part sizes are those of the sizing rule: [PaddingSize] is the padding
    that [NeedleSize] gives for the size, and header size + [DataSize] is
    the record length of [NeedleSize], a multiple of 8. *)
Theorem ParseHeader_accepts n0 buf n :
  ParseHeader n0 buf = Some (n, None) ->
  HeaderMagic n = needleHeaderMagic /\
  (Flag n = NeedleStatusOK \/ Flag n = NeedleStatusDel) /\
  1 <= Size n <= NeedleMaxSize /\
  PaddingSize n = fst (fst (NeedleSize (Size n))) /\
  NeedleHeaderSize + DataSize n = snd (fst (NeedleSize (Size n))) /\
  (NeedleHeaderSize + DataSize n) mod 8 = 0.
Proof.
  unfold ParseHeader. cbv zeta. intros Hp.
  destruct (slice_to buf needleMagicSize) as [hm |]; cbn [mbind option_bind] in Hp;
    [| discriminate].
  destruct (bytes_Equal hm needleHeaderMagic) eqn:Ehm; cbn [negb] in Hp;
    [| discriminate].
  apply bytes_Equal_true in Ehm. subst hm.
  destruct (slice_from buf needleMagicSize ≫= BigEndian.Int64) as [cookie |];
    cbn [mbind option_bind] in Hp; [| discriminate].
  destruct (slice_from buf (needleMagicSize + needleCookieSize) ≫= BigEndian.Int64)
    as [key |]; cbn [mbind option_bind] in Hp; [| discriminate].
  destruct (index buf (needleMagicSize + needleCookieSize + needleKeySize))
    as [flag |]; cbn [mbind option_bind] in Hp; [| discriminate].
  destruct (negb (flag =? NeedleStatusOK) && negb (flag =? NeedleStatusDel)) eqn:Ef;
    [discriminate |].
  destruct (slice_from buf
              (needleMagicSize + needleCookieSize + needleKeySize + needleFlagSize)
            ≫= BigEndian.Int32) as [size |];
    cbn [mbind option_bind] in Hp; [| discriminate].
  destruct ((NeedleMaxSize <? size) || (size <? 1)) eqn:Es; [discriminate |].
  injection Hp as <-.
  cbn [HeaderMagic Flag Size PaddingSize DataSize set_DataSize set_PaddingSize set_Size
         set_Flag set_Key set_Cookie set_HeaderMagic].
  apply orb_false_iff in Es as [Es1 Es2]. apply Z.ltb_ge in Es1, Es2.
  unfold NeedleMaxSize in *.
  destruct (NeedleSize_spec size ltac:(lia)) as [Hspec Hpad].
  pose proof (padded_length_aligned (25 + size + 8) ltac:(lia)) as Hmod.
  rewrite Hspec in *. cbn [fst snd] in *.
  assert (int32 (NeedlePaddingSize -
                 Z.rem (int32 (int32 (NeedleHeaderSize + size) + NeedleFooterSize))
                       NeedlePaddingSize) = 8 - (25 + size + 8) mod 8) as Hp8.
  { change NeedleHeaderSize with 25. change NeedleFooterSize with 8.
    change NeedlePaddingSize with 8.
    rewrite (int32_id (25 + size)) by (unfold is_int32; lia).
    rewrite (int32_id (25 + size + 8)) by (unfold is_int32; lia).
    rewrite Z.rem_mod_nonneg by lia.
    apply int32_id. unfold is_int32. lia. }
  rewrite Hp8.
  assert (int32 (int32 (size + (8 - (25 + size + 8) mod 8)) + NeedleFooterSize) =
          size + (8 - (25 + size + 8) mod 8) + 8) as Hds.
  { change NeedleFooterSize with 8.
    rewrite (int32_id (size + _)) by (unfold is_int32; lia).
    apply int32_id. unfold is_int32. lia. }
  rewrite Hds. change NeedleHeaderSize with 25.
  replace (25 + (size + (8 - (25 + size + 8) mod 8) + 8))
    with (25 + size + 8 + (8 - (25 + size + 8) mod 8)) by lia.
  unfold NeedleStatusOK, NeedleStatusDel in *.
  repeat split; try lia; try assumption.
Qed.

Lemma ParseHeader_accepts_witness :
  ParseHeader emptyNeedle (take 25 (needle_bytes 3 7 42 ex_data [0; 0; 0; 0])) =
    Some (ex_header, None) /\
  PaddingSize ex_header = 4 /\ NeedleHeaderSize + DataSize ex_header = 40.
Proof.
  assert (ParseHeader emptyNeedle (take 25 (needle_bytes 3 7 42 ex_data [0; 0; 0; 0])) =
          Some (ex_header, None)) as Hp by (vm_compute; reflexivity).
  destruct (ParseHeader_accepts _ _ _ Hp) as (_ & _ & _ & Hpad & Hlen & _).
  split; [exact Hp | split; [exact Hpad | exact Hlen]].
Defined.

Lemma read_app w (a rest : list Z) :
  length a = w -> BigEndian.read w (a ++ rest) = Some (be_get a 0).
Proof.
  intros Hlen. unfold BigEndian.read.
  assert ((w <=? length (a ++ rest))%nat = true) as ->
    by (apply Nat.leb_le; rewrite length_app; lia).
  rewrite take_app_length' by (symmetry; exact Hlen). reflexivity.
Qed.

(** X4: [ParseHeader] does not panic on a buffer of at least 25 bytes:
    it returns nil or one of the errors HeaderMagic, Flag and Size, the
    magic being checked first, then the flag, then the size. *)
Theorem ParseHeader_no_panic n buf :
  (25 <= length buf)%nat ->
  exists n' e flag size,
    ParseHeader n buf = Some (n', e) /\
    buf !! 20%nat = Some flag /\
    size = int32 (be_get (take 4 (drop 21 buf)) 0) /\
    e = (if negb (bytes_Equal (take 4 buf) needleHeaderMagic)
         then Some ErrNeedleHeaderMagic
         else if negb (flag =? NeedleStatusOK) && negb (flag =? NeedleStatusDel)
         then Some ErrNeedleFlag
         else if (NeedleMaxSize <? size) || (size <? 1) then Some ErrNeedleSize
         else None).
Proof.
  - intros Hlen.
    destruct (split_at 4 buf ltac:(lia)) as (hm & r1 & -> & Hhm).
    rewrite length_app in Hlen.
    destruct (split_at 8 r1 ltac:(lia)) as (c & r2 & -> & Hc).
    rewrite length_app in Hlen.
    destruct (split_at 8 r2 ltac:(lia)) as (k & r3 & -> & Hk).
    rewrite length_app in Hlen.
    destruct r3 as [| f r4]; [simpl in Hlen; lia |]. cbn [length] in Hlen.
    destruct (split_at 4 r4 ltac:(lia)) as (sz & rest & -> & Hsz).
    assert (take 4 (hm ++ c ++ k ++ f :: sz ++ rest) = hm) as Htake
      by (rewrite take_app_length'; [reflexivity | lia]).
    assert ((hm ++ c ++ k ++ f :: sz ++ rest) !! 20%nat = Some f) as Hflag.
    { rewrite !app_assoc. apply list_lookup_middle. rewrite !length_app. lia. }
    assert (take 4 (drop 21 (hm ++ c ++ k ++ f :: sz ++ rest)) = sz) as Hsize.
    { replace (hm ++ c ++ k ++ f :: sz ++ rest)
        with ((hm ++ c ++ k ++ [f]) ++ sz ++ rest)
        by (rewrite <- !app_assoc; reflexivity).
      rewrite drop_app_length' by (rewrite !length_app; simpl; lia).
      rewrite take_app_length'; [reflexivity | lia]. }
    rewrite Htake, Hflag, Hsize.
    unfold ParseHeader. cbv zeta.
    rewrite (slice_to_app hm) by (unfold needleMagicSize; lia).
    cbn [mbind option_bind].
    destruct (bytes_Equal hm needleHeaderMagic) eqn:Ehm; cbn [negb];
      [| do 4 eexists; split; [reflexivity | split; [reflexivity | split; [reflexivity |]]];
         rewrite ?Ehm; reflexivity].
    rewrite (slice_from_app hm _ needleMagicSize) by (unfold needleMagicSize; lia).
    cbn [mbind option_bind]. unfold BigEndian.Int64.
    rewrite (read_app 8 c) by assumption. cbn [fmap option_fmap option_map mbind option_bind].
    rewrite (app_assoc hm).
    rewrite (slice_from_app (hm ++ c) _ (needleMagicSize + needleCookieSize))
      by (rewrite length_app; unfold needleMagicSize, needleCookieSize; lia).
    cbn [mbind option_bind].
    rewrite (read_app 8 k) by assumption. cbn [fmap option_fmap option_map mbind option_bind].
    rewrite (app_assoc (hm ++ c)).
    rewrite (index_app ((hm ++ c) ++ k))
      by (rewrite !length_app; unfold needleMagicSize, needleCookieSize, needleKeySize; lia).
    cbn [mbind option_bind].
    destruct (negb (f =? NeedleStatusOK) && negb (f =? NeedleStatusDel)) eqn:Ef;
      [do 4 eexists; split; [reflexivity | split; [reflexivity | split; [reflexivity |]]];
       rewrite ?Ehm, ?Ef; reflexivity |].
    change (f :: sz ++ rest) with ([f] ++ sz ++ rest).
    rewrite (app_assoc _ [f]).
    rewrite (slice_from_app (((hm ++ c) ++ k) ++ [f]) _
               (needleMagicSize + needleCookieSize + needleKeySize + needleFlagSize))
      by (rewrite !length_app; simpl;
          unfold needleMagicSize, needleCookieSize, needleKeySize, needleFlagSize; lia).
    cbn [mbind option_bind]. unfold BigEndian.Int32.
    rewrite (read_app 4 sz) by assumption. cbn [fmap option_fmap option_map mbind option_bind].
    destruct ((NeedleMaxSize <? int32 (be_get sz 0)) || (int32 (be_get sz 0) <? 1)) eqn:Es;
      do 4 eexists; (split; [reflexivity | split; [reflexivity | split; [reflexivity |]]]);
      rewrite ?Ehm, ?Ef, ?Es; reflexivity.
Qed.

Lemma ParseHeader_no_panic_witness :
  (25 <= length (repeat 0 25))%nat /\
  exists n', ParseHeader emptyNeedle (repeat 0 25) = Some (n', Some ErrNeedleHeaderMagic).
Proof.
  split; [simpl; lia |].
  destruct (ParseHeader_no_panic emptyNeedle (repeat 0 25) ltac:(simpl; lia))
    as (n' & e & flag & size & Hp & _ & _ & He).
  exists n'. rewrite Hp, He. reflexivity.
Defined.

(** X5: [FillNeedle] and [WriteNeedle] write the same record.  For a
    padding that is in the table, [FillNeedle] turns a buffer of the
    length of the record into the bytes that [WriteNeedle] appends to its
    writer, whatever the buffer held before; for a padding above 7 both
    panic. *)
Theorem FillNeedle_WriteNeedle_agree padding size key cookie data buf pattern :
  (needlePadding_at padding = Some pattern ->
   length buf = (33 + length data + length pattern)%nat ->
   exists record,
     FillNeedle padding size key cookie data buf = Some record /\
     length record = length buf /\
     forall w, WriteNeedle w padding size key cookie data = Some (w ++ record, None)) /\
  (8 <= padding ->
   FillNeedle padding size key cookie data buf = None /\
   forall w, WriteNeedle w padding size key cookie data = None).
Proof.
  split.
  - intros Hpat Hlen. exists (needle_bytes size key cookie data pattern).
    split; [apply FillNeedle_layout; assumption | split].
    + rewrite Hlen. unfold needle_bytes. len.
    + intros w. apply WriteNeedle_layout. exact Hpat.
  - intros Hp. split; [apply FillNeedle_padding8; exact Hp |].
    intros w. apply WriteNeedle_padding8. exact Hp.
Qed.

Lemma FillNeedle_WriteNeedle_agree_witness :
  exists record,
    FillNeedle 4 3 7 42 ex_data (repeat 9 40) = Some record /\
    WriteNeedle [] 4 3 7 42 ex_data = Some (record, None).
Proof.
  destruct (FillNeedle_WriteNeedle_agree 4 3 7 42 ex_data (repeat 9 40) [0; 0; 0; 0])
    as (Hsame & _).
  destruct (Hsame ltac:(reflexivity) ltac:(reflexivity)) as (record & Hfill & _ & Hwrite).
  exists record. split; [exact Hfill | exact (Hwrite [])].
Defined.

Lemma FillNeedle_roundtrip_witness :
  exists buf' hb db n n',
    FillNeedle 4 3 7 42 ex_data (repeat 9 40) = Some buf' /\
    slice_to buf' NeedleHeaderSize = Some hb /\
    slice_from buf' NeedleHeaderSize = Some db /\
    ParseHeader emptyNeedle hb = Some (n, None) /\
    ParseData n db = Some (n', None) /\
    Key n' = 7 /\ Cookie n' = 42 /\ Data n' = ex_data.
Proof.
  destruct (FillNeedle_roundtrip 7 42 ex_data 4 40 (repeat 9 40))
    as (buf' & hb & db & n & n' & H1 & H2 & H3 & H4 & _ & _ & H5 & H6 & H7 & H8);
    try (unfold is_int64, is_int32; simpl; lia);
    try reflexivity.
  - vm_compute. discriminate.
  - exists buf', hb, db, n, n'. auto 10.
Defined.

Lemma Uint32_put_exact v : is_uint32 v -> BigEndian.Uint32 (be_put 4 v) = Some v.
Proof.
  intros Hv. pose proof (Uint32_put v [] Hv) as Hp.
  rewrite app_nil_r in Hp. exact Hp.
Qed.

(** X7: the padding check of [ParseData].  On a body made of the data,
    the footer magic, the checksum of the data, [PaddingSize] padding
    bytes and anything after them, with a padding size from 0 to 7,
    [ParseData] returns the data when the padding bytes are all zero and
    the Padding error otherwise; the bytes after the padding are not
    looked at. *)
Theorem ParseData_checks_padding n (data pad rest : list Z) :
  Z.of_nat (length data) = Size n -> Size n <= NeedleMaxSize ->
  Z.of_nat (length pad) = PaddingSize n -> 0 <= PaddingSize n <= 7 ->
  exists n',
    ParseData n
      (data ++ needleFooterMagic ++ be_put 4 (crc32.Update 0 crc32Table data) ++
       pad ++ rest) =
      Some (n', if bytes_Equal pad (repeat 0 (length pad)) then None
                else Some ErrNeedlePadding) /\
    Data n' = data /\ Padding n' = pad.
Proof.
  intros Hsize Hmax Hpad Hrange. unfold NeedleMaxSize in Hmax.
  set (crc := crc32.Update 0 crc32Table data).
  unfold ParseData. cbv zeta.
  rewrite (slice_to_app data) by lia. cbn [mbind option_bind].
  cbn [Size PaddingSize set_Data set_FooterMagic set_Checksum set_Padding].
  rewrite (int32_id (Size n + needleMagicSize)) by (unfold is_int32, needleMagicSize; lia).
  rewrite (slice_mid data needleFooterMagic _ (Size n) (Size n + needleMagicSize)) by len.
  cbn [mbind option_bind].
  rewrite bytes_Equal_refl. cbn [negb].
  rewrite (int32_id (Size n + needleMagicSize + needleChecksumSize))
    by (unfold is_int32, needleMagicSize, needleChecksumSize; lia).
  rewrite (app_assoc data).
  rewrite (slice_mid (data ++ needleFooterMagic) (be_put 4 crc) _
             (Size n + needleMagicSize)
             (Size n + needleMagicSize + needleChecksumSize)) by len.
  cbn [mbind option_bind].
  rewrite Uint32_put_exact by apply Update_range. cbn [mbind option_bind].
  fold crc. rewrite Z.eqb_refl. cbn [negb].
  rewrite (int32_id (Size n + needleMagicSize + needleChecksumSize + PaddingSize n))
    by (unfold is_int32, needleMagicSize, needleChecksumSize; lia).
  rewrite (app_assoc (data ++ needleFooterMagic)).
  rewrite (slice_mid ((data ++ needleFooterMagic) ++ be_put 4 crc) pad _
             (Size n + needleMagicSize + needleChecksumSize)
             (Size n + needleMagicSize + needleChecksumSize + PaddingSize n)) by len.
  cbn [mbind option_bind].
  rewrite needlePadding_at_Some by lia. cbn [mbind option_bind].
  replace (Z.to_nat (PaddingSize n)) with (length pad) by lia.
  destruct (bytes_Equal pad (repeat 0 (length pad))); cbn [negb];
    eexists; (split; [reflexivity | split; reflexivity]).
Qed.

Lemma ParseData_checks_padding_witness :
  (exists n', ParseData ex_header
                (ex_data ++ needleFooterMagic ++
                 be_put 4 (crc32.Update 0 crc32Table ex_data) ++
                 [0; 0; 1; 0] ++ [5; 5]) = Some (n', Some ErrNeedlePadding)) /\
  (exists n', ParseData ex_header
                (ex_data ++ needleFooterMagic ++
                 be_put 4 (crc32.Update 0 crc32Table ex_data) ++
                 [0; 0; 0; 0] ++ [5; 5]) = Some (n', None) /\ Data n' = ex_data).
Proof.
  split.
  - destruct (ParseData_checks_padding ex_header ex_data [0; 0; 1; 0] [5; 5])
      as (n' & Hp & _); try (vm_compute; first [reflexivity | discriminate | lia]).
    + simpl. lia.
    + exists n'. exact Hp.
  - destruct (ParseData_checks_padding ex_header ex_data [0; 0; 0; 0] [5; 5])
      as (n' & Hp & Hd & _); try (vm_compute; first [reflexivity | discriminate | lia]).
    + simpl. lia.
    + exists n'. split; [exact Hp | exact Hd].
Defined.

(** * Further properties of the index file *)

(** X8: an index record written by [writeIndex] is read back by [parse]:
    for a 64-bit key, a 32-bit offset and a 32-bit size, [writeIndex]
    appends 16 bytes to its writer and [parse] of these bytes, whatever
    follows them, gives the key, the offset and the size. *)
Theorem writeIndex_parse key offset size (w rest : list Z) :
  is_int64 key -> is_uint32 offset -> is_int32 size ->
  length (writeIndex w key offset size) = (length w + 16)%nat /\
  take (length w) (writeIndex w key offset size) = w /\
  parse (drop (length w) (writeIndex w key offset size) ++ rest) =
    Some (mkIndex key offset size).
Proof.
  intros Hk Ho Hs. unfold writeIndex.
  split; [len | split].
  - rewrite take_app_length. reflexivity.
  - rewrite drop_app_length. unfold parse.
    rewrite <- !app_assoc.
    rewrite Int64_put by assumption. cbn [mbind option_bind].
    rewrite (slice_from_app (be_put 8 key) _ indexOffsetOffset)
      by (rewrite be_put_length; reflexivity).
    cbn [mbind option_bind].
    rewrite Uint32_put by assumption. cbn [mbind option_bind].
    rewrite (app_assoc (be_put 8 key)).
    rewrite (slice_from_app (be_put 8 key ++ be_put 4 offset) _ indexSizeOffset)
      by (rewrite length_app, !be_put_length; reflexivity).
    cbn [mbind option_bind].
    rewrite Int32_put by assumption. reflexivity.
Qed.

Lemma writeIndex_parse_witness :
  parse (writeIndex [] 7 1 (-5) ++ [9]) = Some (mkIndex 7 1 (-5)).
Proof.
  destruct (writeIndex_parse 7 1 (-5) [] [9]) as (_ & _ & Hp);
    try (unfold is_int64, is_uint32, is_int32; lia).
  exact Hp.
Defined.

Lemma parse_total (buf : list Z) :
  (16 <= length buf)%nat -> exists ix, parse buf = Some ix /\ is_int32 (ixSize ix).
Proof.
  intros Hlen.
  destruct (split_at 8 buf ltac:(lia)) as (k & r1 & -> & Hk).
  rewrite length_app in Hlen.
  destruct (split_at 4 r1 ltac:(lia)) as (o & r2 & -> & Ho).
  rewrite length_app in Hlen.
  destruct (split_at 4 r2 ltac:(lia)) as (sz & rest & -> & Hsz).
  unfold parse, BigEndian.Int64, BigEndian.Uint32, BigEndian.Int32.
  rewrite (read_app 8 k) by assumption. cbn [fmap option_fmap option_map mbind option_bind].
  rewrite (slice_from_app k _ indexOffsetOffset) by (rewrite Hk; reflexivity).
  cbn [mbind option_bind].
  rewrite (read_app 4 o) by assumption. cbn [mbind option_bind].
  rewrite (app_assoc k).
  rewrite (slice_from_app (k ++ o) _ indexSizeOffset)
    by (rewrite length_app, Hk, Ho; reflexivity).
  cbn [mbind option_bind].
  rewrite (read_app 4 sz) by assumption. cbn [fmap option_fmap option_map mbind option_bind].
  eexists. split; [reflexivity |]. cbn [ixSize]. apply int32_range.
Qed.

Lemma Recovery_loop_any fuel :
  forall rd offset needles noffset,
  exists eof offset' needles' noffset',
    Recovery_loop fuel rd offset needles noffset =
      Some (eof, offset', needles', noffset') /\
    (forall k, is_Some (needles !! k) -> is_Some (needles' !! k)) /\
    (forall k c, needles' !! k = Some c ->
       needles !! k = Some c \/ 1 <= snd (Value c) <= NeedleMaxSize) /\
    (is_uint32 noffset -> is_uint32 noffset').
Proof.
  induction fuel as [| fuel IH]; intros rd offset needles noffset.
  - exists true, offset, needles, noffset. cbn [Recovery_loop]. auto.
  - cbn [Recovery_loop].
    destruct (Nat.ltb_spec (length rd) (Z.to_nat indexSize)) as [Hshort | Hlong].
    + exists true, offset, needles, noffset. auto.
    + change (Z.to_nat indexSize) with 16%nat in *.
      destruct (parse_total (take 16 rd)) as (ix & -> & Hint32);
        [rewrite length_take; lia |].
      cbn [mbind option_bind].
      destruct ((NeedleMaxSize <? ixSize ix) || (ixSize ix <? 1)) eqn:Es.
      * exists false, offset, needles, noffset. auto.
      * apply orb_false_iff in Es as [Es1 Es2]. apply Z.ltb_ge in Es1, Es2.
        destruct (IH (drop 16 rd) (int64 (offset + indexSize))
                    (<[ixKey ix := NewNeedleCache (ixOffset ix) (ixSize ix)]> needles)
                    (uint32 (ixOffset ix + NeedleOffset (ixSize ix))))
          as (eof & offset' & needles' & noffset' & Hloop & Hkeys & Hvals & Hno).
        exists eof, offset', needles', noffset'.
        split; [exact Hloop | split; [| split]].
        -- intros k Hk. apply Hkeys.
           destruct (decide (ixKey ix = k)) as [-> | Hne].
           ++ rewrite lookup_insert_eq. eauto.
           ++ rewrite lookup_insert_ne by assumption. exact Hk.
        -- intros k c Hc. destruct (Hvals k c Hc) as [Hin | Hsz]; [| right; exact Hsz].
           destruct (decide (ixKey ix = k)) as [E | Hne].
           ++ subst k. rewrite lookup_insert_eq in Hin. injection Hin as <-.
              right. rewrite Value_size by exact Hint32. lia.
           ++ rewrite lookup_insert_ne in Hin by assumption. left. exact Hin.
        -- intros _. apply Hno. unfold is_uint32, uint32.
           apply Z.mod_pos_bound. lia.
Qed.

(** X9: recovery from any index file.  Whatever the bytes of the file
    are, [Indexer.Recovery] does not panic and returns nil; every key of
    the cache it was given is still in the cache; an entry it added or
    replaced has a size in [1, 5 MiB]; the returned offset is a 32-bit
    number. *)
Theorem Recovery_any_file (file : list Z) (needles : gmap Z Z) :
  exists r,
    Recovery file needles = Some r /\ rErr r = None /\
    (forall k, is_Some (needles !! k) -> is_Some (rNeedles r !! k)) /\
    (forall k c, rNeedles r !! k = Some c ->
       needles !! k = Some c \/ 1 <= snd (Value c) <= NeedleMaxSize) /\
    is_uint32 (rNoffset r).
Proof.
  destruct (Recovery_loop_any (S (length file)) file 0 needles 0)
    as (eof & offset' & needles' & noffset' & Hloop & Hkeys & Hvals & Hno).
  unfold Recovery. rewrite Hloop.
  assert (is_uint32 noffset') as Hu by (apply Hno; unfold is_uint32; lia).
  destruct eof; eexists; (split; [reflexivity |]);
    cbn [rErr rNeedles rNoffset]; auto.
Qed.

Lemma Recovery_loop_step fuel ix rd offset needles noffset :
  valid_index ix ->
  Recovery_loop (S fuel) (index_bytes ix ++ rd) offset needles noffset =
    Recovery_loop fuel rd (int64 (offset + indexSize))
      (<[ixKey ix := NewNeedleCache (ixOffset ix) (ixSize ix)]> needles)
      (uint32 (ixOffset ix + NeedleOffset (ixSize ix))).
Proof.
  intros Hix. cbn [Recovery_loop]. change (Z.to_nat indexSize) with 16%nat.
  destruct (Nat.ltb_spec (length (index_bytes ix ++ rd)) 16) as [Hlt | _];
    [rewrite length_app, index_bytes_length in Hlt; lia |].
  rewrite <- (index_bytes_length ix). rewrite take_app_length, drop_app_length.
  rewrite parse_written_exact by assumption. cbn [mbind option_bind].
  destruct Hix as (Hk & Ho & Hs).
  assert ((NeedleMaxSize <? ixSize ix) || (ixSize ix <? 1) = false) as ->
    by (apply orb_false_iff; rewrite !Z.ltb_ge; lia).
  reflexivity.
Qed.

Lemma Recovery_loop_bad recs :
  forall fuel tail offset needles noffset,
    Forall valid_index recs -> (length recs < fuel)%nat -> bad_tail tail ->
    exists offset' noffset',
      Recovery_loop fuel (concat (map index_bytes recs) ++ tail) offset needles noffset =
        Some (false, offset', insert_records needles recs, noffset').
Proof.
  induction recs as [| ix recs IH]; intros fuel tail offset needles noffset Hvalid Hfuel Hbad.
  - destruct fuel as [| fuel]; [simpl in Hfuel; lia |].
    destruct Hbad as (Hlen & bad & Hparse & Hsize).
    cbn [map concat app insert_records fold_left Recovery_loop].
    change (Z.to_nat indexSize) with 16%nat.
    destruct (Nat.ltb_spec (length tail) 16); [lia |].
    rewrite Hparse. cbn [mbind option_bind].
    assert ((NeedleMaxSize <? ixSize bad) || (ixSize bad <? 1) = true) as ->
      by (apply orb_true_iff; rewrite !Z.ltb_lt; exact Hsize).
    eauto.
  - inversion Hvalid as [| ? ? Hix Hrecs]; subst.
    destruct fuel as [| fuel]; [simpl in Hfuel; lia |].
    cbn [length] in Hfuel. cbn [map concat]. rewrite <- app_assoc.
    rewrite Recovery_loop_step by assumption.
    apply IH; [assumption | lia | assumption].
Qed.

(** X10: recovery stops at a bad record without repositioning the file.
    When the records of an index file are followed by a record whose size
    is out of [1, 5 MiB], [Indexer.Recovery] inserts the records before
    it, returns nil and leaves the index file where the buffered reads
    left it: the final [Seek] to the end of the last good record is
    reached only when the scan ends at the end of the file. *)
Theorem Recovery_bad_record_no_seek (recs : list Index) (tail : list Z)
    (needles : gmap Z Z) :
  Forall valid_index recs -> bad_tail tail ->
  exists r,
    Recovery (concat (map index_bytes recs) ++ tail) needles = Some r /\
    rNeedles r = insert_records needles recs /\
    rErr r = None /\ rSeek r = None.
Proof.
  intros Hvalid Hbad.
  set (file := concat (map index_bytes recs) ++ tail).
  assert (length recs <= length file)%nat as Hlen.
  { unfold file. rewrite length_app.
    assert (length (concat (map index_bytes recs)) = (16 * length recs)%nat) as ->.
    { clear. induction recs as [| ix recs IH]; [reflexivity |].
      cbn [map concat length]. rewrite length_app, index_bytes_length, IH. lia. }
    lia. }
  destruct (Recovery_loop_bad recs (S (length file)) tail 0 needles 0 Hvalid
              ltac:(lia) Hbad) as (offset' & noffset' & Hloop).
  unfold Recovery. subst file. rewrite Hloop.
  eexists. split; [reflexivity |]. cbn [rNeedles rErr rSeek]. auto.
Qed.

Lemma Recovery_bad_record_no_seek_witness :
  exists r,
    Recovery (concat (map index_bytes ex_records) ++ index_bytes (mkIndex 3 9 0)) ∅ =
      Some r /\
    rNeedles r = insert_records ∅ ex_records /\ rErr r = None /\ rSeek r = None.
Proof.
  apply (Recovery_bad_record_no_seek ex_records (index_bytes (mkIndex 3 9 0)) ∅).
  - repeat constructor; unfold is_int64, is_uint32, NeedleMaxSize; simpl; lia.
  - split; [simpl; lia |].
    exists (mkIndex 3 9 0). split; [vm_compute; reflexivity | right; simpl; lia].
Defined.

Lemma writeIndex_app w ix :
  writeIndex w (ixKey ix) (ixOffset ix) (ixSize ix) = w ++ index_bytes ix.
Proof. reflexivity. Qed.



Lemma concat_index_bytes_length recs :
  length (concat (map index_bytes recs)) = (16 * length recs)%nat.
Proof.
  induction recs as [| ix recs IH]; [reflexivity |].
  cbn [map concat length]. rewrite length_app, index_bytes_length, IH. lia.
Qed.

Lemma Indexer_Write_all recs :
  forall i,
    let i' := fold_left
                (fun i ix => fst (Indexer_Write i (ixKey ix) (ixOffset ix) (ixSize ix)))
                recs i in
    ifile i' = ifile i /\ ibw i' = ibw i ++ concat (map index_bytes recs) /\
    iring i' = iring i /\ isignal i' = isignal i.
Proof.
  induction recs as [| ix recs IH]; intros i; cbn [fold_left map concat].
  - rewrite app_nil_r. auto.
  - destruct (IH (fst (Indexer_Write i (ixKey ix) (ixOffset ix) (ixSize ix))))
      as (Hf & Hw & Hr & Hs).
    cbv zeta in *. rewrite Hf, Hw, Hr, Hs. cbn [Indexer_Write fst ifile ibw iring isignal].
    rewrite writeIndex_app, <- app_assoc. auto.
Qed.

(** X12: what [Indexer.Write] and [Indexer.Flush] store after a recovery
    is read back by [Indexer.Recovery].  The index file holds the records
    [old] and fewer than 16 further bytes; [Recovery] leaves the file at
    the end of the last record.  After [Write] of the records [recs] and
    [Flush] at that position the file holds the records [old] and [recs]
    and what the new records did not overwrite of the further bytes, the
    writer is empty and the file is at the end of the last record; a
    [Recovery] of this file inserts all the records into the cache in
    order, seeks to the end of the last record and returns the offset
    behind the last record. *)
Theorem Indexer_Write_Flush_Recovery (i : Indexer) (old recs : list Index)
    (tail : list Z) (needles0 needles : gmap Z Z) :
  ifile i = concat (map index_bytes old) ++ tail -> ibw i = [] ->
  short_tail tail ->
  Forall valid_index old -> Forall valid_index recs ->
  16 * Z.of_nat (length (old ++ recs)) < 2 ^ 63 ->
  let i1 := fold_left
              (fun i ix => fst (Indexer_Write i (ixKey ix) (ixOffset ix) (ixSize ix)))
              recs i in
  exists r0 pos i2 r,
    Recovery (ifile i) needles0 = Some r0 /\ rSeek r0 = Some pos /\
    pos = 16 * Z.of_nat (length old) /\
    Indexer_Flush pos i1 = (i2, 16 * Z.of_nat (length (old ++ recs)), None) /\
    ifile i2 = concat (map index_bytes (old ++ recs)) ++ drop (16 * length recs) tail /\
    ibw i2 = [] /\
    Recovery (ifile i2) needles = Some r /\
    rNeedles r = insert_records needles (old ++ recs) /\
    rSeek r = Some (16 * Z.of_nat (length (old ++ recs))) /\ rErr r = None /\
    rNoffset r =
      match last (old ++ recs) with
      | Some ix => uint32 (ixOffset ix + ixSize ix / 8)
      | None => 0
      end.
Proof.
  intros Hfile Hbw Htail Hold Hrecs Hlen i1.
  rewrite length_app in Hlen.
  destruct (Indexer_Write_all recs i) as (Hf & Hw & Hr & Hs). fold i1 in Hf, Hw, Hr, Hs.
  rewrite Hbw, app_nil_l in Hw. rewrite Hfile in Hf.
  (* the first recovery *)
  destruct (Recovery_loop_records old (S (length (concat (map index_bytes old) ++ tail)))
              tail 0 needles0 0 Hold)
    as (eof0 & Hloop0 & Heof0); [| lia | lia | left; exact Htail |].
  { rewrite length_app, concat_index_bytes_length. lia. }
  rewrite (Heof0 Htail) in Hloop0.
  (* the flush *)
  set (file2 := concat (map index_bytes (old ++ recs)) ++ drop (16 * length recs) tail).
  assert (exists i2,
            Indexer_Flush (16 * Z.of_nat (length old)) i1 =
              (i2, 16 * Z.of_nat (length (old ++ recs)), None) /\
            ifile i2 = file2 /\ ibw i2 = []) as (i2 & Hflush & Hfile2 & Hbw2).
  { unfold Indexer_Flush. rewrite Hw.
    destruct (concat (map index_bytes recs)) as [| b bs] eqn:Ebytes.
    - assert (recs = []) as ->.
      { apply (f_equal length) in Ebytes. rewrite concat_index_bytes_length in Ebytes.
        destruct recs; [reflexivity | simpl in Ebytes; lia]. }
      exists i1. rewrite app_nil_r. split; [reflexivity | split; [| exact Hw]].
      rewrite Hf. unfold file2. rewrite app_nil_r. reflexivity.
    - exists (mkIndexer file2 [] (iring i1) (isignal i1)).
      split; [| split; reflexivity].
      rewrite <- Ebytes. unfold file_Write. cbv zeta.
      rewrite length_app, concat_index_bytes_length.
      replace (16 * Z.of_nat (length old) + Z.of_nat (16 * length recs))
        with (16 * Z.of_nat (length old + length recs)) by lia.
      do 3 f_equal.
      + rewrite Hf. unfold file2.
        replace (Z.to_nat (16 * Z.of_nat (length old)))
          with (length (concat (map index_bytes old)))
          by (rewrite concat_index_bytes_length; lia).
        rewrite take_app_length.
        replace (length (concat (map index_bytes old)) -
                 length (concat (map index_bytes old) ++ tail))%nat with 0%nat
          by (rewrite length_app; lia).
        cbn [repeat app].
        rewrite drop_app_add'
          by reflexivity.
        rewrite map_app, concat_app, <- app_assoc. reflexivity. }
  (* the second recovery *)
  assert (Forall valid_index (old ++ recs)) as Hall by (apply Forall_app; auto).
  assert (short_tail (drop (16 * length recs) tail)) as Htail2
    by (unfold short_tail in *; rewrite length_drop; lia).
  destruct (Recovery_loop_records (old ++ recs) (S (length file2))
              (drop (16 * length recs) tail) 0 needles 0 Hall)
    as (eof & Hloop & Heof); [| lia | rewrite length_app; lia | left; exact Htail2 |].
  { unfold file2. rewrite (length_app (concat _)), concat_index_bytes_length. lia. }
  rewrite (Heof Htail2) in Hloop. fold file2 in Hloop.
  eexists _, _, i2, _.
  split; [unfold Recovery; rewrite Hfile, Hloop0; reflexivity |].
  cbn [rSeek]. split; [reflexivity |]. split; [lia |].
  split; [rewrite <- Hflush; f_equal; lia |].
  split; [exact Hfile2 |]. split; [exact Hbw2 |].
  split; [rewrite Hfile2; unfold Recovery; rewrite Hloop; reflexivity |].
  cbn [rNeedles rSeek rErr rNoffset].
  rewrite fold_left_last.
  repeat split; f_equal; lia.
Qed.

Lemma Indexer_Write_Flush_Recovery_witness :
  let i := mkIndexer ex_index_file [] [] [] in
  let i1 := fst (Indexer_Write i 3 7 24) in
  exists r0 i2 r,
    Recovery ex_index_file ∅ = Some r0 /\ rSeek r0 = Some 32 /\
    Indexer_Flush 32 i1 = (i2, 48, None) /\
    ifile i2 = concat (map index_bytes (ex_records ++ [mkIndex 3 7 24])) /\
    Recovery (ifile i2) ∅ = Some r /\
    rNeedles r = insert_records ∅ (ex_records ++ [mkIndex 3 7 24]) /\
    rSeek r = Some 48.
Proof.
  intros i i1.
  destruct (Indexer_Write_Flush_Recovery i ex_records [mkIndex 3 7 24] [1; 2; 3] ∅ ∅)
    as (r0 & pos & i2 & r & Hrec0 & Hseek0 & -> & Hflush & Hfile & _ & Hrec & Hneedles &
        Hseek & _).
  - reflexivity.
  - reflexivity.
  - unfold short_tail. simpl. lia.
  - repeat constructor; unfold is_int64, is_uint32, NeedleMaxSize; simpl; lia.
  - repeat constructor; unfold is_int64, is_uint32, NeedleMaxSize; simpl; lia.
  - simpl. lia.
  - exists r0, i2, r.
    split; [exact Hrec0 |]. split; [exact Hseek0 |]. split; [exact Hflush |].
    split; [rewrite Hfile; apply app_nil_r |].
    split; [exact Hrec |]. split; [exact Hneedles | exact Hseek].
Defined.

(** X13: [Indexer.Add].  With room in the ring the entry is put at the
    end of the ring, a signal is pending afterwards, and a signal channel
    that held at most one signal still holds at most one; the file and
    the writer are not touched.  With a full ring the call fails with the
    ring error, nothing changes and no signal is sent. *)
Theorem Indexer_Add_spec (i : Indexer) key offset size :
  (Z.of_nat (length (iring i)) < ringCap ->
   exists i',
     Indexer_Add i key offset size = (i', None) /\
     iring i' = iring i ++ [mkIndex key offset size] /\
     isignal i' <> [] /\
     ((length (isignal i) <= 1)%nat -> length (isignal i') = 1%nat) /\
     ifile i' = ifile i /\ ibw i' = ibw i) /\
  (ringCap <= Z.of_nat (length (iring i)) ->
   Indexer_Add i key offset size = (i, Some ErrRingFull)).
Proof.
  unfold Indexer_Add, Indexer_Append. split; intros Hring.
  - destruct (Z.ltb_spec (Z.of_nat (length (iring i))) ringCap); [| lia].
    unfold Indexer_Signal. cbn [isignal ifile ibw iring].
    destruct (Nat.ltb_spec (length (isignal i)) signalNum) as [Hlt | Hge];
      eexists; (split; [reflexivity |]); cbn [isignal ifile ibw iring];
      unfold signalNum in *.
    + repeat split; auto.
      * destruct (isignal i); discriminate.
      * intros _. rewrite length_app. simpl. lia.
    + repeat split; auto.
      * destruct (isignal i); [simpl in Hge; lia | discriminate].
      * intros Hle. lia.
  - destruct (Z.ltb_spec (Z.of_nat (length (iring i))) ringCap); [lia | reflexivity].
Qed.

Lemma Indexer_Add_spec_witness :
  exists i',
    Indexer_Add ex_indexer 7 1 40 = (i', None) /\
    iring i' = [mkIndex 7 1 40] /\ length (isignal i') = 1%nat.
Proof.
  destruct (Indexer_Add_spec ex_indexer 7 1 40) as (Hroom & _).
  destruct (Hroom ltac:(vm_compute; reflexivity)) as (i' & Hadd & Hring & _ & Hsig & _).
  exists i'. split; [exact Hadd | split; [exact Hring |]].
  apply Hsig. simpl. lia.
Defined.

(** * Further properties of the volume *)

Section VolumeFurther.
Context {SB : Type} `{SuperBlockOps SB}.

(** The volume after [Get]: as it was, or with the entry of the key
    replaced by a tombstone of the same size and the Deleted error. *)
Lemma Get_volume (v v' : Volume SB) key cookie buf d e :
  Get v key cookie buf = Some (v', (d, e)) ->
  v' = v \/
  exists c, needles v !! key = Some c /\
    v' = set_needles
           (<[key := NewNeedleCache NeedleCacheDelOffset (snd (Value c))]> (needles v)) v /\
    d = [] /\ e = Some ErrNeedleDeleted.
Proof.
  unfold Get. intros Hget.
  destruct (needles v !! key) as [c |] eqn:Hc; [| simplify_eq; left; reflexivity].
  destruct (Value c) as [offset size] eqn:Hv. cbn [fst snd].
  destruct (offset =? NeedleCacheDelOffset); [simplify_eq; left; reflexivity |].
  repeat match type of Hget with
         | (?m ≫= _) = Some _ =>
             destruct m; cbn [mbind option_bind] in Hget; [| discriminate]
         | (let '(_, _) := ?p in _) = Some _ => destruct p
         | match ?x with (_, _) => _ end = Some _ => destruct x
         | match ?x with Some _ => _ | None => _ end = Some _ => destruct x
         | (if ?b then _ else _) = Some _ => destruct b
         end;
    simplify_eq; try (left; reflexivity).
  right. exists c. rewrite Hv. cbn [snd]. auto.
Qed.

(** X14: [Get] touches nothing but the cache entry of the key it was
    asked for.  The super block, the indexer, the delete queue and the
    compression state are as before, every other key has the entry it
    had, and unless the call returns the Deleted error the whole volume
    is unchanged. *)
Theorem Get_frame (v v' : Volume SB) key cookie buf d e :
  Get v key cookie buf = Some (v', (d, e)) ->
  block v' = block v /\ indexer v' = indexer v /\ signal v' = signal v /\
  Compress v' = Compress v /\ compressKeys v' = compressKeys v /\
  (forall k, k <> key -> needles v' !! k = needles v !! k) /\
  (e <> Some ErrNeedleDeleted -> v' = v) /\
  (e <> None -> d = []).
Proof.
  intros Hget.
  assert (e <> None -> d = []) as Hd.
  { intros He. clear - Hget He. unfold Get in Hget.
    repeat match type of Hget with
           | (?m ≫= _) = Some _ =>
               destruct m; cbn [mbind option_bind] in Hget; [| discriminate]
           | (let '(_, _) := ?p in _) = Some _ => destruct p
           | match ?x with (_, _) => _ end = Some _ => destruct x
           | match ?x with Some _ => _ | None => _ end = Some _ => destruct x
           | (if ?b then _ else _) = Some _ => destruct b
           end;
      simplify_eq; try reflexivity; contradiction. }
  destruct (Get_volume v v' key cookie buf d e Hget) as [-> | (c & Hc & -> & _ & ->)].
  - repeat split; auto.
  - cbn [block indexer signal Compress compressKeys needles set_needles].
    repeat split; auto.
    + intros k Hk. apply lookup_insert_ne. congruence.
    + intros Hne. contradiction.
Qed.

(** The volume after [Add] and [Write] in terms of the cache and the
    queue. *)
Lemma replace_entry_cases (v : Volume SB) old key offset size :
  let r := replace_entry v old key offset size in
  needles (fst r) = <[key := NewNeedleCache offset size]> (needles v) /\
  ((signal (fst r) = signal v /\ (old = None /\ snd r = None \/
                                  ~ has_room v /\ snd r = Some ErrVolumeDel)) \/
   (exists c, old = Some c /\ has_room v /\
              signal (fst r) = signal v ++ [fst (Value c)] /\ snd r = None)).
Proof.
  cbv zeta. split; [apply replace_entry_needles |].
  unfold replace_entry. destruct old as [c |]; [| left; auto].
  destruct (Z_lt_ge_dec (Z.of_nat (length (signal v))) volumeDelChNum) as [Hroom | Hfull].
  - right. exists c. rewrite asyncDel_room by exact Hroom. auto.
  - left. rewrite asyncDel_full by (unfold has_room; cbn [signal set_needles]; lia).
    cbn [fst snd signal set_needles]. split; [reflexivity | right].
    split; [unfold has_room; lia | reflexivity].
Qed.

(** X15: a failed [Add] or [Write] leaves the cache and the delete queue
    alone.  When the call returns an error other than VolumeDel, the
    cache and the queue are as before; the VolumeDel error is the one
    case in which the cache was updated although an error is returned.
    For a key that was not in the cache nothing is ever queued. *)
Theorem Add_Write_failure (v v' : Volume SB) key cookie data e :
  Add v key cookie data = Some (v', Some e) \/
  Write v key cookie data = Some (v', Some e) ->
  (e <> ErrVolumeDel -> needles v' = needles v /\ signal v' = signal v) /\
  (needles v !! key = None -> signal v' = signal v /\ needles v' = needles v).
Proof.
  intros [Hcall | Hcall].
  - unfold Add in Hcall.
    destruct (block_Add (block v) key cookie data) as [[b [[offset size] [e0 |]]] |];
      cbn [mbind option_bind] in Hcall; try discriminate.
    + simplify_eq. cbn. auto.
    + destruct (Indexer_Add _ key offset size) as [i [e1 |]].
      * simplify_eq. cbn. auto.
      * injection Hcall as Hcall.
        pose proof (f_equal fst Hcall) as Hv'. pose proof (f_equal snd Hcall) as He.
        cbn [fst snd] in Hv', He. clear Hcall.
        destruct (replace_entry_cases (set_indexer i (set_block b v)) (needles v !! key)
                    key offset size) as (Hn & [(Hsig & [(Hold & Herr) | (Hfull & Herr)])
                                              | (c & Hold & Hroom & Hsig & Herr)]);
          cbv zeta in *; rewrite ?Hv', ?He in *; try congruence.
        cbn [signal set_indexer set_block] in Hsig.
        injection Herr as <-. split; [congruence | intros Hnone].
        unfold replace_entry in He. rewrite Hnone in He. discriminate.
  - unfold Write in Hcall.
    destruct (block_Write (block v) key cookie data) as [[b [[offset size] [e0 |]]] |];
      cbn [mbind option_bind] in Hcall; try discriminate.
    + simplify_eq. cbn. auto.
    + unfold Indexer_Write in Hcall. injection Hcall as Hcall.
      pose proof (f_equal fst Hcall) as Hv'. pose proof (f_equal snd Hcall) as He.
      cbn [fst snd] in Hv', He. clear Hcall.
      match type of Hv' with
      | fst (replace_entry ?w _ _ _ _) = _ =>
          destruct (replace_entry_cases w (needles v !! key) key offset size)
            as (Hn & [(Hsig & [(Hold & Herr) | (Hfull & Herr)])
                     | (c & Hold & Hroom & Hsig & Herr)])
      end;
        cbv zeta in *; rewrite ?Hv', ?He in *; try congruence.
      cbn [signal set_indexer set_block] in Hsig.
      injection Herr as <-. split; [congruence | intros Hnone].
      unfold replace_entry in He. rewrite Hnone in He. discriminate.
Qed.

End VolumeFurther.

Lemma Get_frame_witness :
  exists v' d e,
    Get ex_volume 7 43 (repeat 0 64) = Some (v', (d, e)) /\
    signal v' = signal ex_volume /\ v' = ex_volume /\ d = [].
Proof.
  assert (Get ex_volume 7 43 (repeat 0 64) = Some (ex_volume, ([], Some ErrNeedleCookie)))
    as Hget by (vm_compute; reflexivity).
  destruct (Get_frame ex_volume _ 7 43 (repeat 0 64) _ _ Hget)
    as (_ & _ & Hsig & _ & _ & _ & Hsame & Hd).
  exists ex_volume, [], (Some ErrNeedleCookie).
  split; [exact Hget | split; [exact Hsig | split]].
  - apply Hsame. discriminate.
  - apply Hd. discriminate.
Defined.

Lemma Add_Write_failure_witness :
  exists v',
    @Add MemBlock ReadOnlyBlock_ops ex_volume 7 42 [1; 2; 3] = Some (v', Some (ErrIO 30)) /\
    needles v' = needles ex_volume /\ signal v' = signal ex_volume.
Proof.
  exists ex_volume. split; [vm_compute; reflexivity |].
  destruct (@Add_Write_failure MemBlock ReadOnlyBlock_ops ex_volume ex_volume 7 42
              [1; 2; 3] (ErrIO 30)) as (Hfail & _).
  - left. vm_compute. reflexivity.
  - apply Hfail. discriminate.
Defined.

Section VolumeQueue.
Context {SB : Type} `{SuperBlockOps SB}.

Lemma Del_present (v : Volume SB) key c :
  needles v !! key = Some c ->
  needles (fst (Del v key)) =
    <[key := NewNeedleCache NeedleCacheDelOffset (snd (Value c))]> (needles v) /\
  compressKeys (fst (Del v key)) =
    (if Compress v then compressKeys v ++ [key] else compressKeys v) /\
  (has_room v ->
   snd (Del v key) = None /\ signal (fst (Del v key)) = signal v ++ [fst (Value c)]) /\
  (~ has_room v ->
   snd (Del v key) = Some ErrVolumeDel /\ signal (fst (Del v key)) = signal v).
Proof.
  intros Hc. unfold Del. rewrite Hc.
  destruct (Value c) as [offset size]. cbn [fst snd]. cbv zeta.
  cbn [Compress set_needles].
  split; [rewrite asyncDel_needles; destruct (Compress v); reflexivity |].
  split; [unfold asyncDel; destruct (_ <? _); destruct (Compress v); reflexivity |].
  split; intros Hroom.
  - rewrite asyncDel_room by (destruct (Compress v); exact Hroom).
    destruct (Compress v); auto.
  - rewrite asyncDel_full by (destruct (Compress v); exact Hroom).
    destruct (Compress v); auto.
Qed.

(** X16: [Del] is idempotent on the cache.  A second [Del] of the same
    key leaves the cache as the first one left it; [Del] changes the
    entry of no other key; on a key that is not in the cache it changes
    nothing and returns the NoNeedle error; and it records the key for a
    running compression exactly when the key is in the cache and the
    volume is in compression. *)
Theorem Del_cache (v : Volume SB) key :
  needles (fst (Del (fst (Del v key)) key)) = needles (fst (Del v key)) /\
  (forall k, k <> key -> needles (fst (Del v key)) !! k = needles v !! k) /\
  (needles v !! key = None -> Del v key = (v, Some ErrNoNeedle)) /\
  (forall c, needles v !! key = Some c ->
     compressKeys (fst (Del v key)) =
       if Compress v then compressKeys v ++ [key] else compressKeys v).
Proof.
  destruct (needles v !! key) as [c |] eqn:Hc.
  - destruct (Del_present v key c Hc) as (Hn & Hk & _).
    assert (needles (fst (Del v key)) !! key =
            Some (NewNeedleCache NeedleCacheDelOffset (snd (Value c)))) as Hc1
      by (rewrite Hn; apply lookup_insert_eq).
    destruct (Del_present (fst (Del v key)) key _ Hc1) as (Hn2 & _).
    split; [| split; [| split]].
    + rewrite Hn2, Hn. rewrite Value_size by apply Value_int32.
      apply insert_insert_eq.
    + intros k Hne. rewrite Hn. apply lookup_insert_ne. congruence.
    + discriminate.
    + intros c' Hc'. injection Hc' as <-. exact Hk.
  - rewrite (Del_absent v key Hc). cbn [fst]. rewrite (Del_absent v key Hc).
    repeat split; auto. discriminate.
Qed.

End VolumeQueue.

(** * Further properties of the delete task *)

Lemma sort_insert_perm x l : Permutation (sort_insert x l) (x :: l).
Proof.
  induction l as [| y l IH]; cbn [sort_insert]; [reflexivity |].
  destruct (x <=? y); [reflexivity |].
  rewrite IH. apply perm_swap.
Qed.

Lemma sort_offsets_perm l : Permutation (sort_offsets l) l.
Proof.
  induction l as [| x l IH]; [reflexivity |].
  unfold sort_offsets in *. cbn [fold_right].
  rewrite sort_insert_perm, IH. reflexivity.
Qed.

Lemma sort_insert_sorted x l :
  StronglySorted Z.le l -> StronglySorted Z.le (sort_insert x l).
Proof.
  induction 1 as [| y l Hs IH Hall]; cbn [sort_insert].
  - repeat constructor.
  - destruct (Z.leb_spec x y) as [Hle | Hgt].
    + constructor; [constructor; assumption |].
      constructor; [exact Hle |].
      eapply List.Forall_impl; [| exact Hall]. cbn beta. intros. lia.
    + constructor; [exact IH |].
      apply Forall_forall. intros z Hz. apply list_elem_of_In in Hz.
      apply (Permutation_in _ (sort_insert_perm x l)) in Hz.
      destruct Hz as [<- | Hz]; [lia |].
      rewrite Forall_forall in Hall. apply Hall. apply list_elem_of_In. exact Hz.
Qed.

Lemma sort_offsets_sorted l : StronglySorted Z.le (sort_offsets l).
Proof.
  induction l as [| x l IH]; [constructor |].
  unfold sort_offsets in *. cbn [fold_right]. apply sort_insert_sorted, IH.
Qed.

Section DeleteTask.
Context {SB : Type} `{SuperBlockOps SB}.

Lemma del_batch_applied (b : SB) offsets applied :
  exists k,
    (1 <= k \/ offsets = [])%nat /\
    snd (del_batch b offsets applied) = applied ++ take k offsets /\
    ((forall b' o, snd (block_Del b' o) = None) ->
     snd (del_batch b offsets applied) = applied ++ offsets).
Proof.
  revert b applied. induction offsets as [| o offsets IH]; intros b applied.
  - exists 0%nat. cbn [del_batch snd take]. rewrite app_nil_r. auto.
  - cbn [del_batch]. destruct (block_Del b o) as [b' [e |]] eqn:Hdel.
    + exists 1%nat. cbn [snd take]. split; [lia | split; [reflexivity |]].
      intros Hok. specialize (Hok b o). rewrite Hdel in Hok. discriminate.
    + destruct (IH b' (applied ++ [o])) as (k & _ & Hk & Hall).
      exists (S k). cbn [take]. split; [lia | split].
      * rewrite Hk, <- app_assoc. reflexivity.
      * intros Hok. rewrite (Hall Hok), <- app_assoc. reflexivity.
Qed.

Lemma del_run_collects l :
  forall t : DelTask,
    dtExited t = false -> Forall (fun o => o <> volumeFinish) l ->
    (length (dtOffsets t) + length l < volumeDelMax)%nat ->
    del_run t (map Recv l) = mkDelTask (dtBlock t) (dtOffsets t ++ l) false (dtApplied t).
Proof.
  induction l as [| o l IH]; intros t Hex Hnz Hlen.
  - cbn. rewrite app_nil_r. destruct t. cbn in Hex. subst. reflexivity.
  - inversion Hnz as [| ? ? Ho Hl]; subst.
    unfold del_run in *. cbn [map fold_left].
    assert (del_step t (Recv o) = mkDelTask (dtBlock t) (dtOffsets t ++ [o]) false (dtApplied t))
      as ->.
    { unfold del_step. rewrite Hex.
      apply Z.eqb_neq in Ho. rewrite Ho.
      destruct (Nat.ltb_spec (length (dtOffsets t ++ [o])) volumeDelMax) as [_ | Hge];
        [reflexivity |].
      rewrite length_app in Hge. cbn [length] in Hge, Hlen. lia. }
    rewrite IH; cbn [dtExited dtOffsets dtBlock dtApplied].
    + rewrite <- app_assoc. reflexivity.
    + reflexivity.
    + exact Hl.
    + rewrite length_app. cbn [length] in *. lia.
Qed.

(** X18: the batches of the delete task.  A task that starts with an
    empty batch keeps up to 49 received offsets in its batch and passes
    nothing to [block.Del]; the tick of the timer, or the 50th offset,
    makes it pass the offsets of the batch to [block.Del] in ascending
    order, a prefix of them up to the first error and all of them when
    [block.Del] does not fail, and empties the batch. *)
Theorem del_task_batches (t : DelTask) (l : list Z) :
  dtExited t = false -> dtOffsets t = [] ->
  Forall (fun o => o <> volumeFinish) l ->
  StronglySorted Z.le (sort_offsets l) /\ Permutation (sort_offsets l) l /\
  ((length l < volumeDelMax)%nat ->
   del_run t (map Recv l) = mkDelTask (dtBlock t) l false (dtApplied t) /\
   (l <> [] ->
    let t' := del_run t (map Recv l ++ [Tick]) in
    dtOffsets t' = [] /\
    (exists k, (1 <= k)%nat /\ dtApplied t' = dtApplied t ++ take k (sort_offsets l)) /\
    ((forall b o, snd (block_Del b o) = None) ->
     dtApplied t' = dtApplied t ++ sort_offsets l))) /\
  (length l = volumeDelMax ->
   let t' := del_run t (map Recv l) in
   dtOffsets t' = [] /\
   (exists k, (1 <= k)%nat /\ dtApplied t' = dtApplied t ++ take k (sort_offsets l)) /\
   ((forall b o, snd (block_Del b o) = None) ->
    dtApplied t' = dtApplied t ++ sort_offsets l)).
Proof.
  intros Hex Hempty Hnz.
  split; [apply sort_offsets_sorted | split; [apply sort_offsets_perm |]].
  assert (forall (t0 : DelTask) offsets, offsets <> [] ->
            dtOffsets (del_flush t0 offsets) = [] /\
            (exists k, (1 <= k)%nat /\
               dtApplied (del_flush t0 offsets) =
                 dtApplied t0 ++ take k (sort_offsets offsets)) /\
            ((forall b o, snd (block_Del b o) = None) ->
             dtApplied (del_flush t0 offsets) = dtApplied t0 ++ sort_offsets offsets))
    as Hflush.
  { intros t0 offsets Hne. unfold del_flush.
    destruct offsets as [| o offsets]; [contradiction |].
    destruct (del_batch_applied (dtBlock t0) (sort_offsets (o :: offsets)) (dtApplied t0))
      as (k & Hk1 & Hk & Hall).
    destruct (del_batch _ _ _) as [b applied]. cbn [snd] in *.
    cbn [dtOffsets dtApplied]. split; [reflexivity | split; [| exact Hall]].
    destruct Hk1 as [Hk1 | Hnil].
    - exists k. auto.
    - exfalso. pose proof (sort_offsets_perm (o :: offsets)) as Hp.
      rewrite Hnil in Hp. apply Permutation_nil in Hp. discriminate. }
  split.
  - intros Hlen.
    assert (del_run t (map Recv l) = mkDelTask (dtBlock t) l false (dtApplied t)) as Hrun.
    { rewrite del_run_collects by (rewrite ?Hempty; simpl; assumption).
      rewrite Hempty. reflexivity. }
    split; [exact Hrun |].
    intros Hne. cbv zeta. unfold del_run in *. rewrite fold_left_app, Hrun.
    cbn [fold_left del_step dtExited dtOffsets].
    apply (Hflush (mkDelTask (dtBlock t) l false (dtApplied t)) l Hne).
  - intros Hlen. cbv zeta.
    destruct l as [| o l] using rev_ind; [discriminate |]. clear IHl.
    rewrite length_app in Hlen. cbn [length] in Hlen.
    apply Forall_app in Hnz as [Hl Ho]. inversion Ho as [| ? ? Ho' _]; subst.
    unfold del_run. rewrite map_app, fold_left_app. fold (del_run t (map Recv l)).
    rewrite del_run_collects by (rewrite ?Hempty; simpl; first [assumption | lia]).
    rewrite Hempty. cbn [app map fold_left].
    unfold del_step. cbn [dtExited dtOffsets].
    apply Z.eqb_neq in Ho'. rewrite Ho'.
    destruct (Nat.ltb_spec (length (l ++ [o])) volumeDelMax) as [Hlt | _];
      [rewrite length_app in Hlt; cbn [length] in Hlt; lia |].
    apply (Hflush (mkDelTask (dtBlock t) l false (dtApplied t)) (l ++ [o])).
    destruct l; discriminate.
Qed.

End DeleteTask.

Lemma del_task_batches_witness :
  dtApplied (del_run (mkDelTask ex_block [] false []) (map Recv [9; 3; 5] ++ [Tick])) =
    [3; 5; 9] /\
  del_run (mkDelTask ex_block [] false []) (map Recv [9; 3; 5]) =
    mkDelTask ex_block [9; 3; 5] false [].
Proof.
  destruct (del_task_batches (mkDelTask ex_block [] false []) [9; 3; 5])
    as (_ & _ & Hsmall & _).
  - reflexivity.
  - reflexivity.
  - repeat constructor; unfold volumeFinish; lia.
  - destruct (Hsmall ltac:(unfold volumeDelMax; simpl; lia)) as (Hrun & Htick).
    split; [| exact Hrun].
    destruct (Htick ltac:(discriminate)) as (_ & _ & Hall).
    apply Hall. intros b o. reflexivity.
Defined.

(** * Further properties of compression *)

Section CompressProperties.
Context {SB : Type} `{SuperBlockOps SB} `{SuperBlockCompress SB}.

(** X19: [StartCompress] cannot be repeated.  After a [StartCompress]
    that returns, with or without an error of the super block, the
    volume is in compression, and any further [StartCompress] is refused
    with the InCompress error and changes neither the volume, nor the
    offset, nor the target. *)
Theorem StartCompress_once (v v1 : Volume SB) offset offset1 nv nv1 e :
  StartCompress v offset nv = Some (v1, offset1, nv1, e) ->
  Compress v1 = true /\
  needles v1 = needles v /\ signal v1 = signal v /\ compressKeys v1 = compressKeys v /\
  forall offset' nv',
    StartCompress v1 offset' nv' = Some (v1, offset', nv', Some ErrVolumeInCompress).
Proof.
  unfold StartCompress. intros Hstart.
  destruct (Compress v) eqn:Hc.
  - simplify_eq. rewrite Hc. auto.
  - cbv zeta in Hstart.
    destruct (block_Compress _ offset nv) as [[[b nv2] [o e2]] |];
      cbn [mbind option_bind] in Hstart; [| discriminate].
    simplify_eq. cbn. auto.
Qed.

(** X20: [StopCompress] always resets the compression state.  Whenever
    it returns, with a nil target or not, with an error or not, the
    volume is out of compression, the list of recorded keys is empty and
    the offset is 0; the cache and the delete queue of the volume are as
    before; with a nil target nothing else happens and nil is
    returned. *)
Theorem StopCompress_resets (v v' : Volume SB) offset offset' nv nv' e :
  StopCompress v offset nv = Some (v', offset', nv', e) ->
  Compress v' = false /\ compressKeys v' = [] /\ offset' = 0 /\
  needles v' = needles v /\ signal v' = signal v /\
  (nv = None -> nv' = None /\ e = None /\ block v' = block v).
Proof.
  unfold StopCompress. intros Hstop.
  destruct nv as [nv |].
  - destruct (block_Compress _ offset nv) as [[[b nv2] [o [e2 |]]] |];
      cbn [mbind option_bind] in Hstop; try discriminate.
    + simplify_eq. cbn. repeat split; auto; discriminate.
    + cbv zeta in Hstop. destruct (replay_dels nv2 _) as [nv3 e3].
      simplify_eq. cbn. repeat split; auto; discriminate.
  - simplify_eq. cbn. auto 10.
Qed.

Lemma replay_dels_app (nv : Volume SB) a b :
  replay_dels nv (a ++ b) =
    match replay_dels nv a with
    | (nv', None) => replay_dels nv' b
    | r => r
    end.
Proof.
  revert nv. induction a as [| key a IH]; intros nv; [reflexivity |].
  cbn [app replay_dels]. destruct (Del nv key) as [nv' [e |]]; [reflexivity | apply IH].
Qed.

Lemma replay_dels_all keys :
  forall nv : Volume SB,
    (forall k, k ∈ keys -> is_Some (needles nv !! k)) ->
    Z.of_nat (length (signal nv)) + Z.of_nat (length keys) <= volumeDelChNum ->
    exists nv',
      replay_dels nv keys = (nv', None) /\
      (forall k, k ∈ keys ->
         exists c, needles nv !! k = Some c /\
           needles nv' !! k = Some (NewNeedleCache NeedleCacheDelOffset (snd (Value c)))) /\
      (forall k, k ∉ keys -> needles nv' !! k = needles nv !! k) /\
      length (signal nv') = (length (signal nv) + length keys)%nat.
Proof.
  induction keys as [| key keys IH]; intros nv Hpresent Hroom.
  - exists nv. cbn [replay_dels length]. repeat split; auto.
    intros k Hk. inversion Hk.
  - cbn [length] in Hroom.
    destruct (Hpresent key ltac:(left)) as [c Hc].
    destruct (Del_present nv key c Hc) as (Hn & _ & Hsend & _).
    destruct (Hsend ltac:(unfold has_room; lia)) as (Herr & Hsig).
    cbn [replay_dels]. rewrite (surjective_pairing (Del nv key)), Herr.
    set (nv1 := fst (Del nv key)) in *.
    destruct (IH nv1) as (nv' & Hrun & Hin & Hout & Hlen).
    { intros k Hk. rewrite Hn. apply insert_keeps. apply Hpresent. right. exact Hk. }
    { rewrite Hsig, length_app. simpl. lia. }
    exists nv'. split; [exact Hrun | split; [| split]].
    + intros k Hk.
      destruct (decide (k ∈ keys)) as [Hkeys | Hnot].
      * destruct (Hin k Hkeys) as (c1 & Hc1 & Hc').
        destruct (decide (k = key)) as [-> | Hne].
        -- exists c. split; [exact Hc |].
           rewrite Hn, lookup_insert_eq in Hc1. injection Hc1 as <-.
           rewrite Hc'. rewrite Value_size by apply Value_int32. reflexivity.
        -- exists c1. split; [| exact Hc'].
           rewrite Hn, lookup_insert_ne in Hc1 by congruence. exact Hc1.
      * apply elem_of_cons in Hk as [-> | Hk]; [| contradiction].
        exists c. split; [exact Hc |].
        rewrite (Hout key Hnot), Hn. apply lookup_insert_eq.
    + intros k Hk. apply not_elem_of_cons in Hk as [Hne Hk].
      rewrite (Hout k Hk), Hn. apply lookup_insert_ne. congruence.
    + rewrite Hlen, Hsig, length_app. simpl. lia.
Qed.

(** X21: the deletions recorded during a compression are replayed on
    the target, up to the first one that fails.  When the super block
    has copied without error, [StopCompress] deletes the recorded keys
    from the target in order.  If all of them are in the cache of the
    target and its delete queue has room for them, each of them ends as
    a tombstone that keeps its size, the other keys are untouched and
    nil is returned.  If one of them is not in the cache of the target,
    the call returns the NoNeedle error at that key and the keys
    recorded after it are not deleted from the target. *)
Theorem StopCompress_replays (v : Volume SB) offset nv b nv1 o :
  block_Compress (block v) offset nv = Some (b, nv1, (o, None)) ->
  ((forall k, k ∈ compressKeys v -> is_Some (needles nv1 !! k)) ->
   Z.of_nat (length (signal nv1)) + Z.of_nat (length (compressKeys v)) <= volumeDelChNum ->
   exists v' nv',
     StopCompress v offset (Some nv) = Some (v', 0, Some nv', None) /\
     (forall k, k ∈ compressKeys v ->
        exists c, needles nv1 !! k = Some c /\
          needles nv' !! k = Some (NewNeedleCache NeedleCacheDelOffset (snd (Value c)))) /\
     (forall k, k ∉ compressKeys v -> needles nv' !! k = needles nv1 !! k)) /\
  (forall before key after,
     compressKeys v = before ++ key :: after ->
     (forall k, k ∈ before -> is_Some (needles nv1 !! k)) ->
     needles nv1 !! key = None ->
     Z.of_nat (length (signal nv1)) + Z.of_nat (length before) <= volumeDelChNum ->
     exists v' nv',
       StopCompress v offset (Some nv) = Some (v', 0, Some nv', Some ErrNoNeedle) /\
       (forall k, k ∉ before -> needles nv' !! k = needles nv1 !! k)).
Proof.
  intros Hcopy. split.
  - intros Hpresent Hroom.
    destruct (replay_dels_all (compressKeys v) nv1 Hpresent Hroom)
      as (nv' & Hrun & Hin & Hout & _).
    unfold StopCompress. rewrite Hcopy. cbn [mbind option_bind]. cbv zeta.
    cbn [compressKeys set_block]. rewrite Hrun.
    eexists _, nv'. split; [reflexivity | split; assumption].
  - intros before key after Hkeys Hpresent Habsent Hroom.
    destruct (replay_dels_all before nv1 Hpresent Hroom) as (nv' & Hrun & _ & Hout & _).
    assert (key ∉ before) as Hnot.
    { intros Hin. destruct (Hpresent key Hin) as [c Hc]. congruence. }
    unfold StopCompress. rewrite Hcopy. cbn [mbind option_bind]. cbv zeta.
    cbn [compressKeys set_block]. rewrite Hkeys, replay_dels_app, Hrun.
    cbn [replay_dels].
    rewrite (Del_absent nv' key) by (rewrite (Hout key Hnot); exact Habsent).
    eexists _, nv'. split; [reflexivity | exact Hout].
Qed.

End CompressProperties.

Lemma StartCompress_once_witness :
  exists v1,
    @StartCompress MemBlock MemBlock_compress_at_end ex_volume 0 ex_deleted_volume =
      Some (v1, 0, ex_deleted_volume, None) /\
    Compress v1 = true /\
    @StartCompress MemBlock MemBlock_compress_at_end v1 0 ex_deleted_volume =
      Some (v1, 0, ex_deleted_volume, Some ErrVolumeInCompress).
Proof.
  eexists. split; [vm_compute; reflexivity |].
  match goal with
  | |- Compress ?w = true /\ _ =>
      destruct (@StartCompress_once MemBlock MemBlock_compress_at_end ex_volume w 0 0
                  ex_deleted_volume ex_deleted_volume None ltac:(vm_compute; reflexivity))
        as (Hc & _ & _ & _ & Hagain)
  end.
  split; [exact Hc | apply Hagain].
Defined.

Lemma StopCompress_resets_witness :
  exists v' nv' e,
    @StopCompress MemBlock MemBlock_compress_at_end ex_compressing 8
      (Some ex_deleted_volume) = Some (v', 0, nv', e) /\
    Compress v' = false /\ compressKeys v' = [].
Proof.
  do 3 eexists. split; [vm_compute; reflexivity |].
  match goal with
  | |- Compress ?w = false /\ _ =>
      destruct (@StopCompress_resets MemBlock MemBlock_compress_at_end ex_compressing w
                  8 0 (Some ex_deleted_volume) _ _ ltac:(vm_compute; reflexivity))
        as (Hc & Hk & _)
  end.
  split; [exact Hc | exact Hk].
Defined.

Lemma StopCompress_replays_witness :
  exists v' nv',
    @StopCompress MemBlock MemBlock_compress_at_end ex_compressing 8
      (Some ex_volume) = Some (v', 0, Some nv', Some ErrNoNeedle) /\
    needles nv' !! 9 = None.
Proof.
  destruct (@StopCompress_replays MemBlock MemBlock_compress_at_end ex_compressing 8
              ex_volume ex_block ex_volume 8 ltac:(reflexivity)) as (_ & Habort).
  destruct (Habort [7] 9 [] ltac:(reflexivity)) as (v' & nv' & Hstop & Hrest).
  - intros k Hk. apply list_elem_of_singleton in Hk. subst k.
    vm_compute. eauto.
  - vm_compute. reflexivity.
  - vm_compute. discriminate.
  - exists v', nv'. split; [exact Hstop |].
    rewrite Hrest; [vm_compute; reflexivity |].
    intros Hin. apply list_elem_of_singleton in Hin. discriminate.
Defined.

Lemma Del_cache_witness :
  needles (fst (Del (fst (Del ex_volume 7)) 7)) = needles (fst (Del ex_volume 7)) /\
  Del ex_volume 8 = (ex_volume, Some ErrNoNeedle) /\
  compressKeys (fst (Del ex_compressing 7)) = [7; 9; 7].
Proof.
  destruct (Del_cache ex_volume 7) as (Hsame & _).
  destruct (Del_cache ex_volume 8) as (_ & _ & Habsent & _).
  destruct (Del_cache ex_compressing 7) as (_ & _ & _ & Hkeys).
  split; [exact Hsame | split].
  - apply Habsent. vm_compute. reflexivity.
  - apply (Hkeys (NewNeedleCache 0 40)). vm_compute. reflexivity.
Defined.

